(** * Website Highlight Saver: storage coordinator, rate limiter and caches

    A shallow embedding of the background service worker
    ([background/background.js]), of the popup's import validation
    ([HighlightStorage.validateHighlight]) and of the content script's
    [CacheManager] and [AIUtils.summarizeHighlight], with the properties
    the design document states about them. *)

From Stdlib Require Import ZArith String Ascii List Bool Lia Btauto.
From stdpp Require Import base option list strings gmap.

#[local] Set Warnings "-register-all".
Local Open Scope string_scope.
Local Open Scope Z_scope.
Local Open Scope list_scope.

(** ** JavaScript values

    Records travel between the contexts as JSON messages, so a value is
    one of the JSON shapes, plus [undefined] for a property that is not
    there. Numbers are restricted to the integers: every number the
    modelled code computes with is an epoch-millisecond reading of
    [Date.now()] or a length. A string is a sequence of code units and
    [String.length] is its [.length]. *)

Inductive value : Type :=
| VUndefined
| VNull
| VBool (b : bool)
| VNum (n : Z)
| VStr (s : string)
| VArr (items : list value)
| VObj (props : list (string * value)).

(** [!!v]: the values that pass an [if (v)] or [v && ...] test. *)
Definition truthy (v : value) : bool :=
  match v with
  | VUndefined | VNull => false
  | VBool b => b
  | VNum n => negb (n =? 0)%Z
  | VStr s => negb (String.eqb s "")
  | VArr _ | VObj _ => true
  end.

Definition typeof (v : value) : string :=
  match v with
  | VUndefined => "undefined"
  | VNull => "object"
  | VBool _ => "boolean"
  | VNum _ => "number"
  | VStr _ => "string"
  | VArr _ | VObj _ => "object"
  end.

Fixpoint lookup_prop (k : string) (props : list (string * value)) : value :=
  match props with
  | [] => VUndefined
  | (k', v) :: rest => if String.eqb k k' then v else lookup_prop k rest
  end.

(** [v.k]. Reading a property of [undefined] or [null] throws in
    JavaScript; every read below is behind a truthiness guard on the
    receiver, or the receiver is a stored record, which is always an
    object (lemma [serve_preserves_storable]). *)
Definition prop (v : value) (k : string) : value :=
  match v with
  | VObj props => lookup_prop k props
  | VStr s => if String.eqb k "length" then VNum (Z.of_nat (String.length s)) else VUndefined
  | VArr items => if String.eqb k "length" then VNum (Z.of_nat (length items)) else VUndefined
  | _ => VUndefined
  end.

Fixpoint assign_prop (k : string) (v : value) (props : list (string * value))
  : list (string * value) :=
  match props with
  | [] => [(k, v)]
  | (k', v') :: rest =>
      if String.eqb k k' then (k, v) :: rest else (k', v') :: assign_prop k v rest
  end.

(** [o.k = v] on an object; assignments to a primitive are dropped. *)
Definition set_prop (o : value) (k : string) (v : value) : value :=
  match o with
  | VObj props => VObj (assign_prop k v props)
  | _ => o
  end.

(** [a > n] and [a <= n] for a number [a]; the code only compares
    operands it has checked with [typeof ... === "number"] or that are a
    string's [.length]. *)
Definition js_gt (a : value) (n : Z) : bool :=
  match a with VNum x => (n <? x)%Z | _ => false end.

Definition js_le (a : value) (n : Z) : bool :=
  match a with VNum x => (x <=? n)%Z | _ => false end.

(** [a === b]; also the SameValueZero of [Set.prototype.has], from which
    it differs only on NaN. Two objects are equal when they are the same
    reference, and records read back from storage or out of a message
    are fresh objects. *)
Definition strict_eq (a b : value) : bool :=
  match a, b with
  | VUndefined, VUndefined => true
  | VNull, VNull => true
  | VBool x, VBool y => Bool.eqb x y
  | VNum x, VNum y => (x =? y)%Z
  | VStr x, VStr y => String.eqb x y
  | _, _ => false
  end.

Definition isArray (v : value) : bool :=
  match v with VArr _ => true | _ => false end.

Definition items_of (v : value) : list value :=
  match v with VArr items => items | _ => [] end.

Definition vlen {A} (l : list A) : value := VNum (Z.of_nat (length l)).

(** ** Configuration constants (the constructor of [BackgroundService]) *)

Definition RATE_LIMIT_MAX : Z := 5.
Definition RATE_LIMIT_WINDOW : Z := 60000.
Definition MAX_HIGHLIGHTS : nat := 1000.
Definition MAX_TEXT_LENGTH : Z := 1000.
Definition MAX_URL_LENGTH : Z := 500.
Definition SUMMARY_CACHE_TTL : Z := 300000.

(** ** Persisted state ([chrome.storage.local]) *)

Record summary_entry : Type := SummaryEntry {
  summary : string;
  timestamp : Z
}.

Record storage : Type := Storage {
  highlights : option (list value);
  summaryCache : option (gmap string summary_entry)
}.

Definition set_highlights (hs : list value) (st : storage) : storage :=
  {| highlights := Some hs; summaryCache := summaryCache st |}.

(** ** Storage operations

    The body handed to [_withStorageLock] is an async function: it reads
    the list ([await chrome.storage.local.get]), computes, and writes it
    back ([await chrome.storage.local.set]). A body is kept as the tree
    of its effects so that the same definition can be run in one piece
    ([runOp]) and step by step among other bodies ([step]). *)

Inductive storageOp : Type :=
| Return (v : value)
| Throw (msg : string)
| StorageGet (k : option (list value) -> storageOp)
| StorageSet (hs : list value) (k : storageOp)
| DateNow (k : Z -> storageOp)
| NotifyTabs (k : storageOp).

(** What an API method has done when it returns its promise: it has
    thrown before touching the lock, or it has queued a body. *)
Inductive call : Type :=
| Rejects (msg : string)
| WithStorageLock (fn : storageOp).

(** [highlights.splice(MAX_HIGHLIGHTS)] after the length test. *)
Definition cap (hs : list value) : list value :=
  if (MAX_HIGHLIGHTS <? length hs)%nat then firstn MAX_HIGHLIGHTS hs else hs.

Definition saveHighlight (highlight : value) : call :=
  if negb (truthy highlight) || negb (truthy (prop highlight "text"))
     || negb (truthy (prop highlight "url"))
  then Rejects "Invalid highlight data: missing required fields"
  else WithStorageLock
    (StorageGet (fun result =>
       let highlights := default [] result in
       let continue (highlight : value) :=
         let highlights := highlight :: highlights in
         let highlights := cap highlights in
         StorageSet highlights (NotifyTabs (Return highlight)) in
       if negb (truthy (prop highlight "timestamp"))
       then DateNow (fun now => continue (set_prop highlight "timestamp" (VNum now)))
       else continue highlight)).

Definition getHighlights (st : storage) : list value :=
  default [] (highlights st).

Definition deleteHighlight (id : value) : call :=
  if negb (truthy id) then Rejects "Highlight ID is required"
  else WithStorageLock
    (StorageGet (fun result =>
       let highlights := default [] result in
       let filtered :=
         List.filter (fun h => negb (strict_eq (prop h "id") id)) highlights in
       StorageSet filtered (NotifyTabs (Return (VBool true))))).

Definition clearAllHighlights : call :=
  WithStorageLock (StorageSet [] (NotifyTabs (Return (VBool true)))).

(** The filter of [importHighlights], conjunct by conjunct. *)
Definition importFilter (h : value) : bool :=
  truthy h
  && String.eqb (typeof h) "object"
  && String.eqb (typeof (prop h "id")) "string"
  && js_gt (prop (prop h "id") "length") 0
  && String.eqb (typeof (prop h "text")) "string"
  && js_gt (prop (prop h "text") "length") 0
  && js_le (prop (prop h "text") "length") MAX_TEXT_LENGTH
  && String.eqb (typeof (prop h "url")) "string"
  && js_gt (prop (prop h "url") "length") 0
  && js_le (prop (prop h "url") "length") MAX_URL_LENGTH
  && String.eqb (typeof (prop h "timestamp")) "number"
  && js_gt (prop h "timestamp") 0.

(** [existingIds.has(h.id)] for [existingIds = new Set(existing.map(h => h.id))]. *)
Definition has_id (existing : list value) (h : value) : bool :=
  existsb (strict_eq (prop h "id")) (map (fun e => prop e "id") existing).

Definition importHighlights (importData : value) (merge : bool) : call :=
  let continue (incoming : list value) :=
    let validHighlights := List.filter importFilter incoming in
    let skipped := (Z.of_nat (length incoming) - Z.of_nat (length validHighlights))%Z in
    WithStorageLock
      (if merge then
         StorageGet (fun result =>
           let existing := default [] result in
           let newHighlights :=
             List.filter (fun h => negb (has_id existing h)) validHighlights in
           let merged := newHighlights ++ existing in
           let merged := cap merged in
           StorageSet merged (NotifyTabs (Return (VObj
             [("imported", vlen newHighlights);
              ("skippedDuplicates",
                VNum (Z.of_nat (length validHighlights)
                      - Z.of_nat (length newHighlights)));
              ("skippedInvalid", VNum skipped)]))))
       else
         StorageSet validHighlights (NotifyTabs (Return (VObj
           [("imported", vlen validHighlights);
            ("skippedInvalid", VNum skipped)])))) in
  if isArray importData then continue (items_of importData)
  else if truthy importData && truthy (prop importData "highlights")
          && isArray (prop importData "highlights")
  then continue (items_of (prop importData "highlights"))
  else Rejects "Invalid import format - expected array or object with highlights property".

(** *** Running one operation in one piece

    The world an operation runs in: the storage area, the successive
    readings of [Date.now()], and the number of update broadcasts sent. *)

Record world : Type := World {
  store : storage;
  clock : nat -> Z;
  notified : nat
}.

Definition outcome : Type := string + value.

Fixpoint runOp (op : storageOp) (w : world) : outcome * world :=
  match op with
  | Return v => (inr v, w)
  | Throw msg => (inl msg, w)
  | StorageGet k => runOp (k (highlights (store w))) w
  | StorageSet hs k =>
      runOp k {| store := set_highlights hs (store w);
                 clock := clock w; notified := notified w |}
  | DateNow k =>
      runOp (k (clock w 0%nat))
        {| store := store w; clock := (fun n => clock w (S n));
           notified := notified w |}
  | NotifyTabs k =>
      runOp k {| store := store w; clock := clock w; notified := S (notified w) |}
  end.

Definition run (c : call) (w : world) : outcome * world :=
  match c with
  | Rejects msg => (inl msg, w)
  | WithStorageLock fn => runOp fn w
  end.

(** The list [getAll()] answers after [c] has run in [w]. *)
Definition getAll_after (c : call) (w : world) : list value :=
  getHighlights (store (run c w).2).

(** ** The popup's side of the boundary: [HighlightStorage.validateHighlight] *)

Definition validateHighlight (h : value) : bool :=
  truthy h
  && String.eqb (typeof h) "object"
  && String.eqb (typeof (prop h "id")) "string"
  && js_gt (prop (prop h "id") "length") 0
  && String.eqb (typeof (prop h "text")) "string"
  && js_gt (prop (prop h "text") "length") 0
  && js_le (prop (prop h "text") "length") 10000
  && String.eqb (typeof (prop h "url")) "string"
  && js_gt (prop (prop h "url") "length") 0
  && js_le (prop (prop h "url") "length") 2048
  && String.eqb (typeof (prop h "timestamp")) "number"
  && js_gt (prop h "timestamp") 0.

Definition is_object (v : value) : Prop :=
  match v with VObj _ => True | _ => False end.

(** ** Saving *)

(** The record [saveHighlight] stores and returns: the argument itself,
    with [timestamp] filled in when it had none. *)
Definition stamped (h : value) (now : Z) : value :=
  if truthy (prop h "timestamp") then h
  else set_prop h "timestamp" (VNum now).

(** What the guard of [saveHighlight] lets through. *)
Definition saveable (h : value) : Prop :=
  truthy h = true /\ truthy (prop h "text") = true
  /\ truthy (prop h "url") = true.

(** The object [importHighlights] answers in merge mode. *)
Definition merge_report (imported duplicates invalid : Z) : value :=
  VObj [("imported", VNum imported);
        ("skippedDuplicates", VNum duplicates);
        ("skippedInvalid", VNum invalid)].

(** The object [importHighlights] answers in replace mode. *)
Definition replace_report (imported invalid : Z) : value :=
  VObj [("imported", VNum imported); ("skippedInvalid", VNum invalid)].

(** *** Example records (those of the service's test-suite) *)

Definition example_h1 : value :=
  VObj [("id", VStr "h1"); ("text", VStr "text1");
        ("url", VStr "https://a.com"); ("timestamp", VNum 100)].

Definition example_h2 : value :=
  VObj [("id", VStr "h2"); ("text", VStr "text2");
        ("url", VStr "https://b.com"); ("timestamp", VNum 200)].

Definition example_original : value :=
  VObj [("id", VStr "h1"); ("text", VStr "original");
        ("url", VStr "https://a.com"); ("timestamp", VNum 50)].

Definition example_no_id : value :=
  VObj [("text", VStr "no id"); ("url", VStr "u"); ("timestamp", VNum 1)].

Definition fresh_install (now : Z) : world :=
  {| store := {| highlights := Some []; summaryCache := None |};
     clock := fun _ => now; notified := 0 |}.

Definition world_with (hs : list value) (now : Z) : world :=
  {| store := {| highlights := Some hs; summaryCache := None |};
     clock := fun _ => now; notified := 0 |}.

Definition long_text : string := string_of_list_ascii (repeat "a"%char 1001).

Definition example_long : value :=
  VObj [("id", VStr "h9"); ("text", VStr long_text);
        ("url", VStr "https://a.com"); ("timestamp", VNum 100)].

(** ** What the stored list can hold *)

(** The predicate as the design document words it: [id], [text], [url]
    non-empty strings and [timestamp] a positive number. *)
Definition well_typed (h : value) : bool :=
  String.eqb (typeof (prop h "id")) "string"
  && js_gt (prop (prop h "id") "length") 0
  && String.eqb (typeof (prop h "text")) "string"
  && js_gt (prop (prop h "text") "length") 0
  && String.eqb (typeof (prop h "url")) "string"
  && js_gt (prop (prop h "url") "length") 0
  && String.eqb (typeof (prop h "timestamp")) "number"
  && js_gt (prop h "timestamp") 0.

(** What both boundaries do enforce: an object whose [text], [url] and
    [timestamp] are truthy. *)
Definition storable (h : value) : Prop :=
  is_object h /\ truthy (prop h "text") = true
  /\ truthy (prop h "url") = true /\ truthy (prop h "timestamp") = true.

(** The mutating requests of [handleMessage]. *)
Inductive request : Type :=
| SaveHighlightReq (highlight : value)
| DeleteHighlightReq (id : value)
| ClearAllHighlightsReq
| ImportHighlightsReq (highlights : value) (merge : bool).

Definition handleMessage (r : request) : call :=
  match r with
  | SaveHighlightReq highlight => saveHighlight highlight
  | DeleteHighlightReq id => deleteHighlight id
  | ClearAllHighlightsReq => clearAllHighlights
  | ImportHighlightsReq importData merge => importHighlights importData merge
  end.

(** The requests served one after the other. *)
Definition serve (rs : list request) (w : world) : world :=
  fold_left (fun w r => (run (handleMessage r) w).2) rs w.

(** ** The rate limiter *)

(** [Math.ceil(a / b)] for integers [a] and [b > 0]. *)
Definition ceil_div (a b : Z) : Z := - ((- a) / b).

(** The error [_checkRateLimit] throws, with the number of seconds its
    message tells the caller to wait. *)
Inductive rate_error : Type :=
| RateLimitExceeded (waitTime : Z).

(** [_checkRateLimit()] at time [now], on the list
    [this._apiCallTimestamps]; the list it leaves behind comes with the
    answer. *)
Definition _checkRateLimit (now : Z) (_apiCallTimestamps : list Z)
  : (rate_error + unit) * list Z :=
  let _apiCallTimestamps :=
    List.filter (fun t => now - t <? RATE_LIMIT_WINDOW) _apiCallTimestamps in
  if RATE_LIMIT_MAX <=? Z.of_nat (length _apiCallTimestamps) then
    let oldestCall := nth 0 _apiCallTimestamps 0 in
    let waitTime := ceil_div (RATE_LIMIT_WINDOW - (now - oldestCall)) 1000 in
    (inl (RateLimitExceeded waitTime), _apiCallTimestamps)
  else (inr tt, _apiCallTimestamps ++ [now]).

(** The calls the limiter lets through when it is asked at [times], one
    after the other, starting with the timestamps [ts]. *)
Fixpoint allowed_calls (times : list Z) (ts : list Z) : list Z :=
  match times with
  | [] => []
  | now :: rest =>
      match _checkRateLimit now ts with
      | (inr _, ts') => now :: allowed_calls rest ts'
      | (inl _, ts') => allowed_calls rest ts'
      end
  end.

(** The timestamps the limiter holds after it has been asked at [times]. *)
Definition after_checks (times : list Z) (ts : list Z) : list Z :=
  fold_left (fun ts now => (_checkRateLimit now ts).2) times ts.

(** [t <= a < t + RATE_LIMIT_WINDOW]. *)
Definition in_window (t a : Z) : bool :=
  (t <=? a) && (a <? t + RATE_LIMIT_WINDOW).

Definition calls_in_window (t : Z) (calls : list Z) : nat :=
  length (List.filter (in_window t) calls).

(** Times that do not decrease. *)
Fixpoint nondecreasing (times : list Z) : Prop :=
  match times with
  | [] => True
  | t :: rest => (forall a, In a rest -> t <= a) /\ nondecreasing rest
  end.

(** ** The content script's caches ([CacheManager]) *)

(** Methods of an object with mutable fields: state transformers. *)
Definition State (S A : Type) : Type := S -> A * S.

#[global] Instance State_ret {S} : MRet (State S) := fun A a s => (a, s).

#[global] Instance State_bind {S} : MBind (State S) :=
  fun A B k m s => let (a, s') := m s in k a s'.

Definition gets {S A} (f : S -> A) : State S A := fun s => (f s, s).

Definition modify {S} (f : S -> S) : State S unit := fun s => (tt, f s).

(** The highlight object [createHighlightForAI] builds for a summary:
    the selected text and the page's address, title and host name. *)
Record ai_highlight : Type := AiHighlight {
  ai_text : string;
  ai_url : string;
  ai_title : string;
  ai_domain : string;
  ai_pageText : string
}.

Definition is_alphanumeric (c : ascii) : bool :=
  let n := nat_of_ascii c in
  ((48 <=? n) && (n <=? 57) || (65 <=? n) && (n <=? 90)
   || (97 <=? n) && (n <=? 122))%nat.

(** [s.replace(/[^a-zA-Z0-9]/g, "_")]. *)
Fixpoint replace_non_alphanumeric (s : string) : string :=
  match s with
  | EmptyString => EmptyString
  | String c rest =>
      String (if is_alphanumeric c then c else "_"%char)
             (replace_non_alphanumeric rest)
  end.

Module CacheManager.

Definition cacheValidityDuration : Z := 30000.

Section Caches.

(** References to DOM text nodes. *)
Context {node : Type}.

Record text_nodes_entry : Type := TextNodesEntry {
  nodes : list node;
  nodes_timestamp : Z
}.

Record t : Type := Make {
  textNodeCache : gmap string text_nodes_entry;
  summaryCache : gmap string summary_entry;
  apiRequestQueue : gmap string nat
}.

Definition empty : t :=
  {| textNodeCache := ∅; summaryCache := ∅; apiRequestQueue := ∅ |}.

Definition set_textNodeCache (f : gmap string text_nodes_entry
                                  -> gmap string text_nodes_entry) (cm : t) : t :=
  {| textNodeCache := f (textNodeCache cm);
     summaryCache := summaryCache cm;
     apiRequestQueue := apiRequestQueue cm |}.

Definition set_summaryCache (f : gmap string summary_entry
                                 -> gmap string summary_entry) (cm : t) : t :=
  {| textNodeCache := textNodeCache cm;
     summaryCache := f (summaryCache cm);
     apiRequestQueue := apiRequestQueue cm |}.

Definition set_apiRequestQueue (f : gmap string nat -> gmap string nat)
  (cm : t) : t :=
  {| textNodeCache := textNodeCache cm;
     summaryCache := summaryCache cm;
     apiRequestQueue := f (apiRequestQueue cm) |}.

(** [getCachedTextNodes(cacheKey)] when [Date.now()] is [now];
    [None] is [null]. *)
Definition getCachedTextNodes (now : Z) (cacheKey : string)
  : State t (option (list node)) :=
  gets (fun cm =>
    match textNodeCache cm !! cacheKey with
    | Some cached =>
        if now - nodes_timestamp cached <? cacheValidityDuration
        then Some (nodes cached) else None
    | None => None
    end).

Definition cacheTextNodes (now : Z) (cacheKey : string) (nodes : list node)
  : State t unit :=
  modify (set_textNodeCache
            (insert cacheKey {| nodes := nodes; nodes_timestamp := now |})).

Definition getCachedSummary (now : Z) (cacheKey : string)
  : State t (option string) :=
  gets (fun cm =>
    match summaryCache cm !! cacheKey with
    | Some cached =>
        if now - timestamp cached <? 300000
        then Some (summary cached) else None
    | None => None
    end).

Definition cacheSummary (now : Z) (cacheKey : string) (summary : string)
  : State t unit :=
  modify (set_summaryCache
            (insert cacheKey {| summary := summary; timestamp := now |})).

Definition isApiRequestInProgress (cacheKey : string) : State t bool :=
  gets (fun cm => bool_decide (is_Some (apiRequestQueue cm !! cacheKey))).

Definition getApiRequestPromise (cacheKey : string) : State t (option nat) :=
  gets (fun cm => apiRequestQueue cm !! cacheKey).

Definition setApiRequestPromise (cacheKey : string) (promise : nat)
  : State t unit :=
  modify (set_apiRequestQueue (insert cacheKey promise)).

Definition removeApiRequestPromise (cacheKey : string) : State t unit :=
  modify (set_apiRequestQueue (delete cacheKey)).

Definition generateSummaryCacheKey (highlight : ai_highlight) : string :=
  let text := String.substring 0 100 (ai_text highlight) in
  replace_non_alphanumeric
    (text ++ "_" ++ ai_url highlight ++ "_" ++ ai_title highlight)%string.

End Caches.

Arguments t : clear implicits.
Arguments text_nodes_entry : clear implicits.

End CacheManager.

(** [CacheManager.cleanup()]: the three maps are cleared. *)
Definition cleanup {node} : State (CacheManager.t node) unit :=
  modify (fun _ => CacheManager.empty).

(** [BackgroundService.getCachedSummary(cacheKey)] when [Date.now()] is
    [now]: the cache is the [summaryCache] object of the storage area. *)
Definition getCachedSummary (now : Z) (cacheKey : string)
  : State storage (option string) :=
  gets (fun result =>
    let cache := default ∅ (summaryCache result) in
    match cache !! cacheKey with
    | Some cached =>
        if now - timestamp cached <? SUMMARY_CACHE_TTL
        then Some (summary cached) else None
    | None => None
    end).

(** ** Expired cache entries *)

Definition expired_nodes : CacheManager.t nat :=
  {| CacheManager.textNodeCache :=
       {[ "key1" := {| CacheManager.nodes := [7%nat];
                       CacheManager.nodes_timestamp := 1000 |} ]};
     CacheManager.summaryCache :=
       {[ "sum1" := {| summary := "old summary"; timestamp := 1000 |} ]};
     CacheManager.apiRequestQueue := ∅ |}.

Definition expired_storage : storage :=
  {| highlights := None;
     summaryCache :=
       Some {[ "sum1" := {| summary := "old summary"; timestamp := 1000 |} ]} |}.

(** ** The summary cache key *)

Definition hundred_a : string := string_of_list_ascii (repeat "a"%char 100).

Definition page_a (text : string) : ai_highlight :=
  {| ai_text := text; ai_url := "https://a.com/p"; ai_title := "A";
     ai_domain := "a.com"; ai_pageText := "" |}.

(** ** The storage lock

    The service worker runs one piece of code at a time; an async
    function gives way at each [await]. [_withStorageLock] chains the
    bodies: each call makes a new lock promise, remembers the one that
    was the tail of the chain, and its body starts when that one is
    resolved; its own lock is resolved when the body is over. A promise
    is the number it got when it was made; promise 0 is the resolved
    promise the constructor installs. *)

Module EventLoop.

Local Open Scope nat_scope.

Inductive task : Type :=
| Queued (previous : nat) (release : nat) (fn : storageOp)
| Running (release : nat) (rest : storageOp)
| Settled (result : outcome).

Record service : Type := Service {
  area : storage;
  _storageLock : nat;
  promises : nat;
  resolved : gset nat;
  tasks : list task;
  broadcasts : nat
}.

Definition start (area : storage) : service :=
  {| area := area; _storageLock := 0; promises := 1; resolved := {[ 0 ]};
     tasks := []; broadcasts := 0 |}.

Definition _withStorageLock (fn : storageOp) (s : service) : service :=
  let newLock := promises s in
  let previous := _storageLock s in
  {| area := area s; _storageLock := newLock; promises := S (promises s);
     resolved := resolved s;
     tasks := tasks s ++ [Queued previous newLock fn];
     broadcasts := broadcasts s |}.

Definition with_task (i : nat) (t : task) (s : service) : service :=
  {| area := area s; _storageLock := _storageLock s; promises := promises s;
     resolved := resolved s; tasks := <[i := t]> (tasks s);
     broadcasts := broadcasts s |}.

Definition settle (i : nat) (release : nat) (result : outcome) (s : service)
  : service :=
  {| area := area s; _storageLock := _storageLock s; promises := promises s;
     resolved := {[ release ]} ∪ resolved s;
     tasks := <[i := Settled result]> (tasks s);
     broadcasts := broadcasts s |}.

Definition with_area (a : storage) (s : service) : service :=
  {| area := a; _storageLock := _storageLock s; promises := promises s;
     resolved := resolved s; tasks := tasks s; broadcasts := broadcasts s |}.

Definition broadcast (s : service) : service :=
  {| area := area s; _storageLock := _storageLock s; promises := promises s;
     resolved := resolved s; tasks := tasks s; broadcasts := S (broadcasts s) |}.

(** What the event loop does next: an API method is called, or the
    body of call [i] goes on to its next effect, at time [now]. *)
Inductive event : Type :=
| Invoke (c : call)
| Advance (i : nat) (now : Z).

Definition advance (i : nat) (now : Z) (s : service) : option service :=
  match tasks s !! i with
  | Some (Queued previous release fn) =>
      if decide (previous ∈ resolved s)
      then Some (with_task i (Running release fn) s)
      else None
  | Some (Running release op) =>
      match op with
      | Return v => Some (settle i release (inr v) s)
      | Throw msg => Some (settle i release (inl msg) s)
      | StorageGet k =>
          Some (with_task i (Running release (k (highlights (area s)))) s)
      | StorageSet hs k =>
          Some (with_task i (Running release k)
                  (with_area (set_highlights hs (area s)) s))
      | DateNow k => Some (with_task i (Running release (k now)) s)
      | NotifyTabs k => Some (with_task i (Running release k) (broadcast s))
      end
  | Some (Settled _) | None => None
  end.

Definition step (e : event) (s : service) : option service :=
  match e with
  | Invoke (Rejects _) => Some s
  | Invoke (WithStorageLock fn) => Some (_withStorageLock fn s)
  | Advance i now => advance i now s
  end.

Fixpoint run_events (es : list event) (s : service) : option service :=
  match es with
  | [] => Some s
  | e :: es => match step e s with
               | Some s' => run_events es s'
               | None => None
               end
  end.

Definition is_settled (t : task) : bool :=
  match t with Settled _ => true | _ => false end.

Definition all_settled (s : service) : bool := forallb is_settled (tasks s).

(** The calls made in [es], in their order, and the bodies they queue. *)
Fixpoint invoked (es : list event) : list call :=
  match es with
  | [] => []
  | Invoke c :: es => c :: invoked es
  | Advance _ _ :: es => invoked es
  end.

Definition body (c : call) : option storageOp :=
  match c with
  | Rejects _ => None
  | WithStorageLock fn => Some fn
  end.

Definition bodies (es : list event) : list storageOp :=
  omap body (invoked es).

(** The bodies run one after the other, each in one piece. *)
Definition serial (fns : list storageOp) (w : world) : world :=
  fold_left (fun w fn => (runOp fn w).2) fns w.

(** What is left to run of a call. *)
Definition remaining (t : task) : option storageOp :=
  match t with
  | Queued _ _ fn => Some fn
  | Running _ rest => Some rest
  | Settled _ => None
  end.

Definition pending (s : service) : list storageOp := omap remaining (tasks s).

Definition world_of (s : service) (clock : nat -> Z) : world :=
  {| store := area s; clock := clock; notified := broadcasts s |}.

(** The chain of locks: the calls before [p] are over and their locks
    resolved, call [p] holds the lock or is next to take it, the calls
    after it wait for their predecessor. *)
Record chain (s : service) (p : nat) : Prop := Chain {
  chain_resolved : forall m, m ∈ resolved s <-> m <= p;
  chain_tasks : forall j t, tasks s !! j = Some t ->
    match t with
    | Settled _ => j < p
    | Running release _ => j = p /\ release = S j
    | Queued previous release _ => p <= j /\ previous = j /\ release = S j
    end;
  chain_tail : _storageLock s = length (tasks s);
  chain_promises : promises s = S (length (tasks s));
  chain_bound : p <= length (tasks s)
}.

(** One more reading in front of a clock. *)
Definition read_first (now : Z) (clock : nat -> Z) : nat -> Z :=
  fun n => match n with O => now | S m => clock m end.

(** Two saves in flight together: [b] is called while the body of [a]
    is between its read and its write. *)
Definition overlapping_saves : list event :=
  [Invoke (saveHighlight example_h1); Advance 0 1%Z; Advance 0 1%Z;
   Invoke (saveHighlight example_h2); Advance 0 2%Z; Advance 0 2%Z;
   Advance 0 2%Z; Advance 1 3%Z; Advance 1 3%Z; Advance 1 3%Z;
   Advance 1 3%Z; Advance 1 3%Z].

Definition empty_area : storage :=
  {| highlights := Some []; summaryCache := None |}.

Definition after_overlapping_saves : service :=
  default (start empty_area) (run_events overlapping_saves (start empty_area)).

(** What the lock is for: were the two bodies started at once, the
    order read, read, write, write would lose the first save. *)
Definition started_at_once : service :=
  {| area := empty_area; _storageLock := 2; promises := 3;
     resolved := {[ 0 ]};
     tasks := [Running 1 (default (Return VNull) (body (saveHighlight example_h1)));
               Running 2 (default (Return VNull) (body (saveHighlight example_h2)))];
     broadcasts := 0 |}.

End EventLoop.

(** ** Summaries in flight ([AIUtils.summarizeHighlight])

    A call of [summarizeHighlight] runs up to its first [await] in one
    piece: it answers from the cache, or waits for the request that is
    registered under its key, or sends a request of its own and
    registers it. It goes on when the promise it waits for is settled.
    A request promise is the position of the request among the messages
    sent to the background. *)

Module AIUtils.

Local Open Scope nat_scope.

Inductive settlement : Type :=
| Fulfilled (summary : string)
| Rejected (error : string).

(** A [summarizeHighlight] message sent to the background by
    [performSummarizeRequest], and how its promise stands. *)
Record request : Type := Request {
  request_key : string;
  request_highlight : ai_highlight;
  answer : option settlement
}.

(** Where a call of [summarizeHighlight] stands. *)
Inductive caller : Type :=
| AwaitsOwn (requestPromise : nat) (cacheKey : string)
| AwaitsShared (promise : nat)
| Returned (summary : string)
| Threw (error : string).

Record page : Type := Page {
  cacheManager : CacheManager.t nat;
  requests : list request;
  callers : list caller
}.

Definition start : page :=
  {| cacheManager := CacheManager.empty; requests := []; callers := [] |}.

(** A method of [this.cacheManager]. *)
Definition on_cacheManager {A} (m : State (CacheManager.t nat) A) : State page A :=
  fun pg =>
    let (a, cm) := m (cacheManager pg) in
    (a, {| cacheManager := cm; requests := requests pg; callers := callers pg |}).

(** [performSummarizeRequest(highlight, cacheKey)]: the message goes out
    at once; the promise of its answer is returned. *)
Definition performSummarizeRequest (highlight : ai_highlight) (cacheKey : string)
  : State page nat :=
  fun pg =>
    (length (requests pg),
     {| cacheManager := cacheManager pg;
        requests := requests pg ++ [{| request_key := cacheKey;
                                       request_highlight := highlight;
                                       answer := None |}];
        callers := callers pg |}).

(** [summarizeHighlight(highlight)] up to its first [await], when
    [Date.now()] is [now]. The test [isApiRequestInProgress] and the
    read [getApiRequestPromise] are one look at the registry. *)
Definition summarizeHighlight (now : Z) (highlight : ai_highlight)
  : State page caller :=
  let cacheKey := CacheManager.generateSummaryCacheKey highlight in
  cachedSummary ← on_cacheManager (CacheManager.getCachedSummary now cacheKey);
  match cachedSummary with
  | Some (String c rest) => mret (Returned (String c rest))
  | _ =>
      inProgress ← on_cacheManager (CacheManager.getApiRequestPromise cacheKey);
      match inProgress with
      | Some promise => mret (AwaitsShared promise)
      | None =>
          requestPromise ← performSummarizeRequest highlight cacheKey;
          on_cacheManager
            (CacheManager.setApiRequestPromise cacheKey requestPromise);;
          mret (AwaitsOwn requestPromise cacheKey)
      end
  end.

Definition with_caller (i : nat) (c : caller) : State page unit :=
  modify (fun pg =>
    {| cacheManager := cacheManager pg; requests := requests pg;
       callers := <[i := c]> (callers pg) |}).

Definition settled_answer (pg : page) (promise : nat) : option settlement :=
  r ← requests pg !! promise; answer r.

(** Call [i] goes on after its [await], when [Date.now()] is [now]. *)
Definition resume (i : nat) (now : Z) (pg : page) : option page :=
  match callers pg !! i with
  | Some (AwaitsOwn requestPromise cacheKey) =>
      match settled_answer pg requestPromise with
      | Some (Fulfilled summary) =>
          Some ((on_cacheManager (CacheManager.cacheSummary now cacheKey summary);;
                 on_cacheManager (CacheManager.removeApiRequestPromise cacheKey);;
                 with_caller i (Returned summary)) pg).2
      | Some (Rejected error) =>
          Some ((on_cacheManager (CacheManager.removeApiRequestPromise cacheKey);;
                 with_caller i (Threw error)) pg).2
      | None => None
      end
  | Some (AwaitsShared promise) =>
      match settled_answer pg promise with
      | Some (Fulfilled summary) => Some (with_caller i (Returned summary) pg).2
      | Some (Rejected error) => Some (with_caller i (Threw error) pg).2
      | None => None
      end
  | _ => None
  end.

(** The background answers request [promise], or the wait for it times
    out. *)
Definition respond (promise : nat) (a : settlement) (pg : page) : option page :=
  match requests pg !! promise with
  | Some r =>
      match answer r with
      | None =>
          Some {| cacheManager := cacheManager pg;
                  requests := <[promise := {| request_key := request_key r;
                                              request_highlight := request_highlight r;
                                              answer := Some a |}]> (requests pg);
                  callers := callers pg |}
      | Some _ => None
      end
  | None => None
  end.

(** The periodic sweep ([performMemoryCleanup]) deletes entries of the
    two caches, expired ones and the oldest ones over the size limits,
    and leaves the registry alone. Which entries go is left open: the
    sweep takes the keys [nodeKeys] out of the text-node cache and the
    keys [summaryKeys] out of the summary cache. *)
Definition sweep (nodeKeys summaryKeys : gset string) (pg : page) : page :=
  {| cacheManager :=
       {| CacheManager.textNodeCache :=
            filter (fun entry => entry.1 ∉ nodeKeys)
              (CacheManager.textNodeCache (cacheManager pg));
          CacheManager.summaryCache :=
            filter (fun entry => entry.1 ∉ summaryKeys)
              (CacheManager.summaryCache (cacheManager pg));
          CacheManager.apiRequestQueue :=
            CacheManager.apiRequestQueue (cacheManager pg) |};
     requests := requests pg;
     callers := callers pg |}.

(** What can happen on a page. [Cleanup] is the content script's
    [cleanup()], which calls [CacheManager.cleanup()]: it runs on
    [beforeunload], on [pagehide] and on the [cleanup] message, and the
    page, its listeners and the calls that wait go on afterwards. It
    also stops the periodic sweep; a [Sweep] after a [Cleanup] is a run
    the page does not have, and it changes no registry. *)
Inductive event : Type :=
| Summarize (now : Z) (highlight : ai_highlight)
| Respond (promise : nat) (a : settlement)
| Resume (i : nat) (now : Z)
| Sweep (nodeKeys summaryKeys : gset string)
| Cleanup.

Definition step (e : event) (pg : page) : option page :=
  match e with
  | Summarize now highlight =>
      let (c, pg') := summarizeHighlight now highlight pg in
      Some {| cacheManager := cacheManager pg'; requests := requests pg';
              callers := callers pg' ++ [c] |}
  | Respond promise a => respond promise a pg
  | Resume i now => resume i now pg
  | Sweep nodeKeys summaryKeys => Some (sweep nodeKeys summaryKeys pg)
  | Cleanup => Some (on_cacheManager cleanup pg).2
  end.

Fixpoint run_events (es : list event) (pg : page) : option page :=
  match es with
  | [] => Some pg
  | e :: es => match step e pg with
               | Some pg' => run_events es pg'
               | None => None
               end
  end.

(** Readings of the clock that do not go back, from [t] on. *)
Fixpoint timely (t : Z) (es : list event) : Prop :=
  match es with
  | [] => True
  | Summarize now _ :: es | Resume _ now :: es => (t <= now)%Z /\ timely now es
  | Respond _ _ :: es | Sweep _ _ :: es | Cleanup :: es => timely t es
  end.

Fixpoint last_time (t : Z) (es : list event) : Z :=
  match es with
  | [] => t
  | Summarize now _ :: es | Resume _ now :: es => last_time now es
  | Respond _ _ :: es | Sweep _ _ :: es | Cleanup :: es => last_time t es
  end.

(** Nothing is in flight: every request has its answer, and no call
    waits for a request of its own. *)
Definition at_rest (pg : page) : bool :=
  forallb (fun r => match answer r with Some _ => true | None => false end)
          (requests pg)
  && forallb (fun c => match c with AwaitsOwn _ _ => false | _ => true end)
             (callers pg).

(** Every [Cleanup] of the run [es] from [pg] comes while nothing is in
    flight. A run without [Cleanup] is such a run. *)
Fixpoint cleanups_at_rest (es : list event) (pg : page) : Prop :=
  match es with
  | [] => True
  | e :: es =>
      match e with Cleanup => at_rest pg = true | _ => True end
      /\ match step e pg with
         | Some pg' => cleanups_at_rest es pg'
         | None => True
         end
  end.

Definition pending_for (pg : page) (promise : nat) (cacheKey : string) : Prop :=
  exists r, requests pg !! promise = Some r /\ answer r = None
            /\ request_key r = cacheKey.

Definition outcome_of (a : settlement) : caller :=
  match a with
  | Fulfilled summary => Returned summary
  | Rejected error => Threw error
  end.

(** The cache has no summary to give for [cacheKey] at [now]. *)
Definition cache_miss (pg : page) (now : Z) (cacheKey : string) : Prop :=
  match (CacheManager.getCachedSummary now cacheKey (cacheManager pg)).1 with
  | Some (String _ _) => False
  | _ => True
  end.

Definition registered (pg : page) (cacheKey : string) : option nat :=
  CacheManager.apiRequestQueue (cacheManager pg) !! cacheKey.

Definition add_caller (c : caller) (pg : page) : page :=
  {| cacheManager := cacheManager pg; requests := requests pg;
     callers := callers pg ++ [c] |}.

(** The page after a call has sent a request of its own. *)
Definition with_new_request (highlight : ai_highlight) (pg : page) : page :=
  let cacheKey := CacheManager.generateSummaryCacheKey highlight in
  {| cacheManager :=
       CacheManager.set_apiRequestQueue (insert cacheKey (length (requests pg)))
         (cacheManager pg);
     requests := requests pg ++ [{| request_key := cacheKey;
                                    request_highlight := highlight;
                                    answer := None |}];
     callers := callers pg ++ [AwaitsOwn (length (requests pg)) cacheKey] |}.

(** What holds of the registry at every moment: a request that is not
    answered is the one registered under its key; a call that waits for
    its own request has it registered under its key; and no two calls
    own the same request. *)
Record registry_inv (pg : page) : Prop := RegistryInv {
  inv_registered : forall p r,
    requests pg !! p = Some r -> answer r = None ->
    registered pg (request_key r) = Some p;
  inv_owner : forall i p k,
    callers pg !! i = Some (AwaitsOwn p k) ->
    registered pg k = Some p /\ p < length (requests pg);
  inv_unique : forall i j p k k',
    callers pg !! i = Some (AwaitsOwn p k) ->
    callers pg !! j = Some (AwaitsOwn p k') -> i = j
}.

(** While a request is not answered the cache has nothing for its key,
    at [t] and later. *)
Definition stale_while_pending (t : Z) (pg : page) : Prop :=
  forall p r now,
    requests pg !! p = Some r -> answer r = None -> (t <= now)%Z ->
    cache_miss pg now (request_key r).

(** The page after call [i], which owned the request registered under
    [k], has gone on: the registration is removed; [summaries] is what
    became of the summary cache. *)
Definition owner_done (i : nat) (k : string) (c : caller)
    (summaries : gmap string summary_entry) (pg : page) : page :=
  {| cacheManager :=
       {| CacheManager.textNodeCache := CacheManager.textNodeCache (cacheManager pg);
          CacheManager.summaryCache := summaries;
          CacheManager.apiRequestQueue :=
            delete k (CacheManager.apiRequestQueue (cacheManager pg)) |};
     requests := requests pg;
     callers := <[i := c]> (callers pg) |}.

(** The page with two calls waiting for one request. *)
Definition two_waiting (highlight : ai_highlight) (pg : page) : page :=
  add_caller (AwaitsShared (length (requests pg))) (with_new_request highlight pg).

Definition one_waiting : page := with_new_request (page_a "Hello, world") start.

(** A call, a [cleanup()] before its request is answered, and a second
    call for the same highlight; and the page they leave: two requests
    without an answer under one key, each call waiting for its own. *)
Definition cleanup_in_flight : list event :=
  [Summarize 1000 (page_a "Hello, world"); Cleanup;
   Summarize 2000 (page_a "Hello, world")].

Definition two_in_flight : page :=
  let highlight := page_a "Hello, world" in
  let cacheKey := CacheManager.generateSummaryCacheKey highlight in
  {| cacheManager :=
       CacheManager.set_apiRequestQueue (insert cacheKey 1) CacheManager.empty;
     requests := [{| request_key := cacheKey; request_highlight := highlight;
                     answer := None |};
                  {| request_key := cacheKey; request_highlight := highlight;
                     answer := None |}];
     callers := [AwaitsOwn 0 cacheKey; AwaitsOwn 1 cacheKey] |}.

(** A call that is answered and goes on, a [cleanup()] while nothing is
    in flight, and a new call. *)
Definition cleanup_at_rest : list event :=
  [Summarize 500 (page_a "Hello, world"); Respond 0 (Fulfilled "A greeting.");
   Resume 0 600; Cleanup; Summarize 1000 (page_a "Hello, world")].

End AIUtils.

(** ** Export, and the answers of [handleMessage] *)

(** [exportHighlights()]: the stored list under [highlights], with the
    ISO text of the current date and a version. *)
Definition exportHighlights (exportDate : string) (st : storage) : value :=
  VObj [("highlights", VArr (getHighlights st));
        ("exportDate", VStr exportDate);
        ("version", VStr "1.0.0")].

(** The requests [handleMessage] does not answer with an error. *)
Definition accepted (r : request) : bool :=
  match handleMessage r with
  | Rejects _ => false
  | WithStorageLock _ => true
  end.

(** An import in replace mode. *)
Definition replaces (r : request) : bool :=
  match r with
  | ImportHighlightsReq _ false => true
  | _ => false
  end.

(** [{ success: true, ...result }]. *)
Definition spread_after_success (result : value) : value :=
  match result with
  | VObj props =>
      VObj (fold_left (fun acc kv => assign_prop kv.1 kv.2 acc) props
                      [("success", VBool true)])
  | _ => VObj [("success", VBool true)]
  end.

(** [a || b] on strings. *)
Definition or_else (a b : string) : string :=
  if String.eqb a "" then b else a.

(** What [handleMessage] hands to [sendResponse] for an
    [importHighlights] request, from the outcome of the operation. *)
Definition import_response (o : outcome) : value :=
  match o with
  | inr result => spread_after_success result
  | inl message =>
      VObj [("success", VBool false);
            ("error", VStr (or_else message "An unexpected error occurred"))]
  end.

(** ** The popup's import ([HighlightStorage.import])

    The popup parses the file, keeps the records that pass its own
    [validateHighlight], and sends those to the background. [parsed] is
    what [JSON.parse] made of the file. *)

Module HighlightStorage.

Definition import (parsed : value) (merge : bool) (w : world) : outcome * world :=
  let continue (highlights : list value) :=
    let valid := List.filter validateHighlight highlights in
    let invalid := (Z.of_nat (length highlights) - Z.of_nat (length valid))%Z in
    if (length valid =? 0)%nat
    then (inl "No valid highlights found in file", w)
    else
      let (o, w') := run (importHighlights (VArr valid) merge) w in
      let response := import_response o in
      if truthy response && truthy (prop response "success")
      then (inr (VObj [("imported", prop response "imported");
                       ("skippedInvalid", VNum invalid)]), w')
      else (inl (match prop response "error" with
                 | VStr error => or_else error "Import failed"
                 | _ => "Import failed"
                 end), w') in
  if isArray parsed then continue (items_of parsed)
  else if truthy parsed && isArray (prop parsed "highlights")
  then continue (items_of (prop parsed "highlights"))
  else (inl "Invalid file format: expected array of highlights", w).

End HighlightStorage.

(** ** The summary cache of the background ([cacheSummary]) *)

Definition MAX_TITLE_LENGTH : Z := 200.
Definition MAX_DOMAIN_LENGTH : Z := 100.
Definition MAX_SUMMARY_CACHE : nat := 50.

(** [keys.sort((a, b) => rank(a) - rank(b))]: the sort of an array is
    stable, so the result is the one sorted arrangement in which keys of
    equal rank keep their order. *)
Fixpoint insert_by {A} (rank : A -> Z) (x : A) (l : list A) : list A :=
  match l with
  | [] => [x]
  | y :: rest =>
      if rank x <=? rank y then x :: l else y :: insert_by rank x rest
  end.

Definition sort_by {A} (rank : A -> Z) (l : list A) : list A :=
  foldr (insert_by rank) [] l.

(** Sorted by rank: no element outranks a later one. *)
Fixpoint ranked {A} (rank : A -> Z) (l : list A) : Prop :=
  match l with
  | [] => True
  | x :: rest => (forall y, y ∈ rest -> rank x <= rank y) /\ ranked rank rest
  end.

(** [cache[key].timestamp || 0] for a key of the cache. *)
Definition timestamp_or_0 (cache : gmap string summary_entry) (key : string) : Z :=
  match cache !! key with
  | Some cached => timestamp cached
  | None => 0
  end.

(** [BackgroundService.cacheSummary(cacheKey, summary)] when [Date.now()]
    is [now]. [cacheKeys] is [Object.keys(cache)]: the keys of the cache
    in the order the object enumerates them. The keys go one by one
    ([toDelete.forEach]); deletions commute. *)
Definition cacheSummary (now : Z) (cacheKeys : list string)
    (cacheKey : string) (summary : string) : State storage unit :=
  modify (fun result =>
    let cache := default ∅ (summaryCache result) in
    let cache :=
      if (MAX_SUMMARY_CACHE <=? length cacheKeys)%nat then
        let sortedKeys := sort_by (timestamp_or_0 cache) cacheKeys in
        let toDelete :=
          firstn (length cacheKeys - (MAX_SUMMARY_CACHE - 1)) sortedKeys in
        foldr delete cache toDelete
      else cache in
    {| highlights := highlights result;
       summaryCache :=
         Some (<[cacheKey := {| summary := summary; timestamp := now |}]> cache) |}).

(** [keys] is an enumeration of the keys of [cache]: each key once. *)
Definition enumerates (keys : list string) (cache : gmap string summary_entry) : Prop :=
  NoDup keys /\ forall k, k ∈ keys <-> is_Some (cache !! k).

(** ** The periodic sweep of the content script's caches
       ([CacheManager.performMemoryCleanup])

    The DOM cache ([domCache]) holds references into the document and
    is not part of the model. *)

Definition maxTextNodesCache : nat := 50.
Definition maxSummaryCacheSize : nat := 20.

(** [value.timestamp && now - value.timestamp > validity]. *)
Definition is_expired (now validity timestamp : Z) : bool :=
  negb (timestamp =? 0) && (validity <? now - timestamp).

Definition cleanupExpiredCaches {node} (now : Z)
  : State (CacheManager.t node) unit :=
  modify (fun cm =>
    {| CacheManager.textNodeCache :=
         filter (fun entry =>
                   is_expired now CacheManager.cacheValidityDuration
                     (CacheManager.nodes_timestamp entry.2) = false)
                (CacheManager.textNodeCache cm);
       CacheManager.summaryCache :=
         filter (fun entry => is_expired now 300000 (timestamp entry.2) = false)
                (CacheManager.summaryCache cm);
       CacheManager.apiRequestQueue := CacheManager.apiRequestQueue cm |}).

(** [timestamp < bound] and [timestamp > bound] where the bound starts
    as [Infinity], which is [None]. *)
Definition below (timestamp : Z) (bound : option Z) : bool :=
  match bound with
  | None => true
  | Some b => timestamp <? b
  end.

Definition above (timestamp : Z) (bound : option Z) : bool :=
  match bound with
  | None => false
  | Some b => b <? timestamp
  end.

Definition is_timestamp (timestamp : Z) (t : option Z) : bool :=
  match t with
  | None => false
  | Some t => timestamp =? t
  end.

(** The second and the fourth loop of [findOldestEntries]: the keys
    with the given timestamp are pushed until there are [count]. *)
Fixpoint collect (t : option Z) (count : nat) (entries : list (string * Z))
    (oldestKeys : list string) : list string :=
  match entries with
  | [] => oldestKeys
  | (key, timestamp) :: rest =>
      if is_timestamp timestamp t then
        let oldestKeys := oldestKeys ++ [key] in
        if (count <=? length oldestKeys)%nat then oldestKeys
        else collect t count rest oldestKeys
      else collect t count rest oldestKeys
  end.

(** [findOldestEntries(cache, count)]; [entries] is [cache.entries()],
    each key with its [value.timestamp || 0]. *)
Definition findOldestEntries (entries : list (string * Z)) (count : nat)
  : list string :=
  let oldestTimestamp :=
    fold_left (fun oldestTimestamp entry =>
                 if below entry.2 oldestTimestamp then Some entry.2
                 else oldestTimestamp)
              entries None in
  let oldestKeys := collect oldestTimestamp count entries [] in
  let oldestKeys :=
    if (length oldestKeys <? count)%nat then
      let nextOldestTimestamp :=
        fold_left (fun nextOldestTimestamp entry =>
                     if above entry.2 oldestTimestamp
                        && below entry.2 nextOldestTimestamp
                     then Some entry.2 else nextOldestTimestamp)
                  entries None in
      collect nextOldestTimestamp count entries oldestKeys
    else oldestKeys in
  firstn count oldestKeys.

(** [limitCacheSize(cache, maxSize)]; [entries] is [cache.entries()] and
    [timestamp_of value] is [value.timestamp || 0]. *)
Definition limitCacheSize {A} (timestamp_of : A -> Z)
    (entries : list (string * A)) (maxSize : nat) (cache : gmap string A)
  : gmap string A :=
  if (size cache <=? maxSize)%nat then cache
  else
    let entriesToDelete := (size cache - maxSize)%nat in
    let oldestEntries :=
      findOldestEntries (map (fun entry => (entry.1, timestamp_of entry.2)) entries)
                        entriesToDelete in
    foldr delete cache oldestEntries.

(** The keys of the entries that have the timestamp [t]. *)
Definition keys_at (t : option Z) (entries : list (string * Z)) : list string :=
  map fst (List.filter (fun entry => is_timestamp entry.2 t) entries).

(** The least timestamp, and the least one above [bound]. *)
Definition least (entries : list (string * Z)) : option Z :=
  fold_left (fun oldestTimestamp entry =>
               if below entry.2 oldestTimestamp then Some entry.2
               else oldestTimestamp)
            entries None.

Definition least_above (bound : option Z) (entries : list (string * Z)) : option Z :=
  fold_left (fun nextOldestTimestamp entry =>
               if above entry.2 bound && below entry.2 nextOldestTimestamp
               then Some entry.2 else nextOldestTimestamp)
            entries None.

(** ** Work in chunks ([EventUtils.processInChunks])

    [processChunk] handles one chunk and, when items are left, asks the
    browser to call it again ([requestIdleCallback] or [setTimeout]).
    The result is the list of chunks in the order they were handled,
    each within one call; [fuel] is the number of calls the browser
    makes, and [None] says that [processChunk] is still asking for
    another call when they are used up. *)

Module EventUtils.

(** [items.slice(start, end)] for [0 <= start <= end]. *)
Definition slice {A} (items : list A) (start end_ : nat) : list A :=
  firstn (end_ - start) (skipn start items).

Fixpoint processChunk {A} (fuel : nat) (items : list A)
    (chunkSize currentIndex : nat) : option (list (list A)) :=
  match fuel with
  | O => None
  | S fuel =>
      let chunk := slice items currentIndex (currentIndex + chunkSize) in
      let currentIndex := (currentIndex + chunkSize)%nat in
      if (currentIndex <? length items)%nat
      then option_map (cons chunk) (processChunk fuel items chunkSize currentIndex)
      else Some [chunk]
  end.

Definition processInChunks {A} (fuel : nat) (items : list A) (chunkSize : nat)
  : option (list (list A)) :=
  if (length items =? 0)%nat then Some []
  else processChunk fuel items chunkSize 0.

(** *** The selection handler ([createDebouncedSelectionHandler])

    The handler keeps the timer it has set, if that has not fired yet,
    with the time it is due and the event it holds, and the time of the
    last report. [called] lists the reports made to the callback, each
    with the time read after it. *)

Definition debounceDelay : Z := 150.
Definition minSelectionInterval : Z := 100.

Record handler (E : Type) : Type := Handler {
  selectionTimeout : option (Z * E);
  lastSelectionTime : Z;
  called : list (Z * E)
}.

Arguments Handler {E}.
Arguments selectionTimeout {E}.
Arguments lastSelectionTime {E}.
Arguments called {E}.

Definition created {E} : handler E :=
  {| selectionTimeout := None; lastSelectionTime := 0; called := [] |}.

(** What happens to the handler: a selection event when [Date.now()] is
    [now], or its timer going off, with [now] read after the report. *)
Inductive input (E : Type) : Type :=
| Selection (now : Z) (event : E)
| Timeout (now : Z).

Arguments Selection {E}.
Arguments Timeout {E}.

(** A timer goes off when it is due, not before. *)
Definition handle {E} (i : input E) (h : handler E) : option (handler E) :=
  match i with
  | Selection now event =>
      if now - lastSelectionTime h <? minSelectionInterval then Some h
      else Some {| selectionTimeout := Some (now + debounceDelay, event);
                   lastSelectionTime := lastSelectionTime h;
                   called := called h |}
  | Timeout now =>
      match selectionTimeout h with
      | Some (due, event) =>
          if due <=? now
          then Some {| selectionTimeout := None;
                       lastSelectionTime := now;
                       called := called h ++ [(now, event)] |}
          else None
      | None => None
      end
  end.

Fixpoint handle_all {E} (inputs : list (input E)) (h : handler E)
  : option (handler E) :=
  match inputs with
  | [] => Some h
  | i :: rest =>
      match handle i h with
      | Some h' => handle_all rest h'
      | None => None
      end
  end.

(** Times that are at least [d] apart, one after the other. *)
Fixpoint spaced (d : Z) (times : list Z) : Prop :=
  match times with
  | [] => True
  | t1 :: rest =>
      match rest with
      | [] => True
      | t2 :: _ => t1 + d <= t2
      end /\ spaced d rest
  end.

End EventUtils.

(** ** The pages of the popup's list ([PopupUI.renderNextPage]) *)

Module PopupUI.


(** The list the popup shows: the highlights that match the search, how
    many of them are displayed, the elements in the list, and the
    number the "Load more" button gives as remaining when it is there. *)
Record t : Type := Make {
  filteredHighlights : list value;
  displayedCount : nat;
  highlightsList : list value;
  loadMoreBtn : option nat
}.





End PopupUI.

(** ** Strings: [trim], [split], [indexOf]

    The white space of [String.prototype.trim] among the code units up
    to 255: tab, line feed, vertical tab, form feed, carriage return,
    space and no-break space. *)

Definition is_white_space (c : ascii) : bool :=
  let n := nat_of_ascii c in
  ((n =? 9) || (n =? 10) || (n =? 11) || (n =? 12) || (n =? 13)
   || (n =? 32) || (n =? 160))%nat.

Fixpoint trimStart (s : string) : string :=
  match s with
  | EmptyString => EmptyString
  | String c rest => if is_white_space c then trimStart rest else s
  end.

Fixpoint trimEnd (s : string) : string :=
  match s with
  | EmptyString => EmptyString
  | String c rest =>
      match trimEnd rest with
      | EmptyString => if is_white_space c then EmptyString else String c EmptyString
      | kept => String c kept
      end
  end.

(** [s.trim()]. *)
Definition trim (s : string) : string := trimEnd (trimStart s).

Definition line_feed : ascii := ascii_of_nat 10.
Definition double_quote : string := String (ascii_of_nat 34) EmptyString.

(** [s.split(c)] for a one-character separator. *)
Fixpoint split (c : ascii) (s : string) : list string :=
  match s with
  | EmptyString => [EmptyString]
  | String a rest =>
      if Ascii.eqb a c then EmptyString :: split c rest
      else match split c rest with
           | first :: others => String a first :: others
           | [] => [String a EmptyString]
           end
  end.

(** [s.indexOf(search)]; [None] is [-1]. *)
Definition indexOf (s search : string) : option nat := String.index 0 search s.

(** [s.substring(from)]. *)
Definition substring_from (from : nat) (s : string) : string :=
  String.substring from (String.length s - from) s.

(** [s.startsWith("#")]. *)
Definition startsWith_hash (s : string) : bool :=
  match s with
  | String c _ => Ascii.eqb c "#"%char
  | EmptyString => false
  end.

(** ** The configuration of the summarizer ([loadConfigFromFile],
       [getConfig]) *)

(** One line of [.env.config]. An assignment to [__proto__] leaves an
    object without a property of that name; the order in which an
    object lists its properties is not observed. *)
Definition config_line (config : list (string * value)) (line : string)
  : list (string * value) :=
  let trimmed := trim line in
  if String.eqb trimmed "" || startsWith_hash trimmed then config
  else match indexOf trimmed "=" with
       | None => config
       | Some eqIndex =>
           let key := trim (String.substring 0 eqIndex trimmed) in
           let value := trim (substring_from (eqIndex + 1) trimmed) in
           if negb (String.eqb key "") && negb (String.eqb value "")
           then if String.eqb key "__proto__" then config
                else assign_prop key (VStr value) config
           else config
       end.

(** [loadConfigFromFile()]; [file] is the text of [.env.config], and
    [None] when the file cannot be fetched. *)
Definition loadConfigFromFile (file : option string) : value :=
  match file with
  | None => VObj []
  | Some text => VObj (fold_left config_line (split line_feed text) [])
  end.

(** ** The summarizer of the background ([summarizeHighlight])

    [js_String] is the conversion of a value to a string ([String(v)]
    and the [${v}] of a template); it is [None] where the conversion
    throws. *)

Inductive summarize_error : Type :=
| InvalidRequest
| RateLimited (e : rate_error)
| InvalidHighlightData
| ConfigurationError
| ServiceError
| InvalidResponse
| RuntimeError.

(** The request [callOpenAI] sends: the [Authorization] header, the
    model, and the content of the user message. The token limit and the
    temperature are left out. *)
Record api_request : Type := ApiRequest {
  authorization : string;
  model : value;
  user_content : string
}.

(** What [fetch] brings back: it fails, or the status is not ok, or the
    body is parsed ([None] when it is not JSON). *)
Inductive http_response : Type :=
| FetchFails
| NotOk
| Ok (data : option value).

(** The state of the service worker: the storage area, its [aiConfig]
    entry ([VUndefined] when there is none), the timestamps of the rate
    limiter, and the requests sent so far, each with the time of the
    rate check that let it through. *)
Record background : Type := Background {
  area : storage;
  aiConfig : value;
  _apiCallTimestamps : list Z;
  sent : list (Z * api_request)
}.

(** What one call of [summarizeHighlight] meets outside: the readings
    of [Date.now()] in [getCachedSummary], [_checkRateLimit] and
    [cacheSummary], the keys of the cache as [Object.keys] lists them,
    the text of [.env.config], and the answer of the API. *)
Record outside : Type := Outside {
  now_read : Z;
  now_check : Z;
  now_write : Z;
  cacheKeys : list string;
  config_file : option string;
  api : api_request -> http_response
}.

(** The message: [cacheKey] is a string, as the content script sends
    it. *)
Record summarize_request : Type := SummarizeRequest {
  requestId : value;
  highlight : value;
  cacheKey : string
}.

(** [String(v || "")]. *)
Definition String_or_empty (js_String : value -> option string) (v : value)
  : option string :=
  js_String (if truthy v then v else VStr "").

Definition sanitizeHighlight (js_String : value -> option string)
    (highlight : value) : summarize_error + value :=
  if negb (truthy highlight) || negb (String.eqb (typeof highlight) "object")
  then inl InvalidHighlightData
  else
    match String_or_empty js_String (prop highlight "text"),
          String_or_empty js_String (prop highlight "url"),
          String_or_empty js_String (prop highlight "title"),
          String_or_empty js_String (prop highlight "domain") with
    | Some text, Some url, Some title, Some domain =>
        inr (VObj
          [("text", VStr (String.substring 0 (Z.to_nat MAX_TEXT_LENGTH) text));
           ("url", VStr (String.substring 0 (Z.to_nat MAX_URL_LENGTH) url));
           ("title", VStr (String.substring 0 (Z.to_nat MAX_TITLE_LENGTH) title));
           ("domain", VStr (String.substring 0 (Z.to_nat MAX_DOMAIN_LENGTH) domain))])
    | _, _, _, _ => inl RuntimeError
    end.

Definition getConfig (file : option string)
  : State background (summarize_error + value) :=
  fun sv =>
    let config := if truthy (aiConfig sv) then aiConfig sv else VObj [] in
    if negb (truthy (prop config "OPENAI_API_KEY")) then
      let config := loadConfigFromFile file in
      if truthy (prop config "OPENAI_API_KEY")
      then (inr config,
            {| area := area sv; aiConfig := config;
               _apiCallTimestamps := _apiCallTimestamps sv; sent := sent sv |})
      else (inl ConfigurationError, sv)
    else (inr config, sv).

(** The four lines of the user message. *)
Definition highlightContent (text title domain context : string) : string :=
  ("Highlight: " ++ double_quote ++ text ++ double_quote
   ++ String line_feed
        ("Page Title: " ++ double_quote ++ title ++ double_quote
         ++ String line_feed
              ("Domain: " ++ double_quote ++ domain ++ double_quote
               ++ String line_feed
                    ("Context: " ++ double_quote ++ context ++ double_quote))))%string.

(** The checks [callOpenAI] makes on the body of the answer. Reading a
    property of [null] throws. *)
Definition summary_of_response (data : value) : summarize_error + string :=
  match data with
  | VNull | VUndefined => inl RuntimeError
  | _ =>
      if negb (isArray (prop data "choices")) then inl InvalidResponse
      else match items_of (prop data "choices") with
           | [] => inl InvalidResponse
           | VNull :: _ | VUndefined :: _ => inl RuntimeError
           | choice :: _ =>
               if negb (truthy (prop choice "message")) then inl InvalidResponse
               else match prop (prop choice "message") "content" with
                    | VStr content =>
                        if (String.length (trim content) =? 0)%nat
                        then inl InvalidResponse
                        else inr (trim content)
                    | _ => inl InvalidResponse
                    end
           end
  end.

(** [callOpenAI(highlight, config)], sent after the rate check at
    [checked]. *)
Definition callOpenAI (js_String : value -> option string)
    (api : api_request -> http_response) (checked : Z)
    (highlight config : value) : State background (summarize_error + string) :=
  fun sv =>
    match js_String (prop highlight "text"), js_String (prop highlight "title"),
          js_String (prop highlight "domain"),
          String_or_empty js_String (prop highlight "pageText"),
          js_String (prop config "OPENAI_API_KEY") with
    | Some text, Some title, Some domain, Some context, Some key =>
        let request :=
          {| authorization := ("Bearer " ++ key)%string;
             model := if truthy (prop config "AI_MODEL")
                      then prop config "AI_MODEL" else VStr "gpt-4o";
             user_content := highlightContent text title domain context |} in
        let sv := {| area := area sv; aiConfig := aiConfig sv;
                     _apiCallTimestamps := _apiCallTimestamps sv;
                     sent := sent sv ++ [(checked, request)] |} in
        match api request with
        | FetchFails => (inl RuntimeError, sv)
        | NotOk => (inl ServiceError, sv)
        | Ok None => (inl RuntimeError, sv)
        | Ok (Some data) => (summary_of_response data, sv)
        end
    | _, _, _, _, _ => (inl RuntimeError, sv)
    end.

Definition set_timestamps (ts : list Z) (sv : background) : background :=
  {| area := area sv; aiConfig := aiConfig sv;
     _apiCallTimestamps := ts; sent := sent sv |}.

Definition set_area (a : storage) (sv : background) : background :=
  {| area := a; aiConfig := aiConfig sv;
     _apiCallTimestamps := _apiCallTimestamps sv; sent := sent sv |}.

Definition summarizeHighlight (js_String : value -> option string)
    (out : outside) (request : summarize_request)
  : State background (summarize_error + string) :=
  fun sv =>
    if negb (truthy (requestId request)) || negb (truthy (highlight request))
       || String.eqb (cacheKey request) ""
    then (inl InvalidRequest, sv)
    else
      match (getCachedSummary (now_read out) (cacheKey request) (area sv)).1 with
      | Some (String c rest) => (inr (String c rest), sv)
      | _ =>
          match _checkRateLimit (now_check out) (_apiCallTimestamps sv) with
          | (inl e, ts) => (inl (RateLimited e), set_timestamps ts sv)
          | (inr _, ts) =>
              let sv := set_timestamps ts sv in
              match sanitizeHighlight js_String (highlight request) with
              | inl e => (inl e, sv)
              | inr sanitizedHighlight =>
                  match getConfig (config_file out) sv with
                  | (inl e, sv) => (inl e, sv)
                  | (inr config, sv) =>
                      match callOpenAI js_String (api out) (now_check out)
                              sanitizedHighlight config sv with
                      | (inl e, sv) => (inl e, sv)
                      | (inr summary, sv) =>
                          (inr summary,
                           set_area
                             (cacheSummary (now_write out) (cacheKeys out)
                                (cacheKey request) summary (area sv)).2
                             sv)
                      end
                  end
              end
          end
      end.

(** The calls served one after the other. *)
Definition summarize_all (js_String : value -> option string)
    (calls : list (outside * summarize_request)) (sv : background) : background :=
  fold_left (fun sv call => (summarizeHighlight js_String call.1 call.2 sv).2)
            calls sv.

(** The conversion on the values that are not numbers, arrays or
    objects. *)
Definition String_of_primitive (v : value) : option string :=
  match v with
  | VStr s => Some s
  | VUndefined => Some "undefined"
  | VNull => Some "null"
  | VBool true => Some "true"
  | VBool false => Some "false"
  | _ => None
  end.

(** *** Example values (those of the service's test-suite) *)

Definition example_config : value :=
  VObj [("OPENAI_API_KEY", VStr "sk-test")].

Definition example_answer : value :=
  VObj [("choices",
         VArr [VObj [("message",
                      VObj [("role", VStr "assistant");
                            ("content", VStr " A summary. ")])]])].

Definition example_highlight : value :=
  VObj [("text", VStr "some text"); ("url", VStr "https://a.com");
        ("title", VStr "A"); ("domain", VStr "a.com");
        ("pageText", VStr "the text around it")].

Definition example_request : summarize_request :=
  {| requestId := VStr "req_1"; highlight := example_highlight;
     cacheKey := "some_text_https___a_com_A" |}.

Definition idle : background :=
  {| area := {| highlights := Some []; summaryCache := None |};
     aiConfig := example_config; _apiCallTimestamps := []; sent := [] |}.

Definition example_outside (now : Z) : outside :=
  {| now_read := now; now_check := now; now_write := now;
     cacheKeys := []; config_file := None;
     api := fun _ => Ok (Some example_answer) |}.

(** *** Well-formed lines of [.env.config] *)

Fixpoint has_char (c : ascii) (s : string) : bool :=
  match s with
  | EmptyString => false
  | String a rest => Ascii.eqb a c || has_char c rest
  end.

(** A key as it can stand before the [=] of a line, and a value as it
    can stand after it, with nothing for [trim] to take away. *)
Definition clean_key (key : string) : Prop :=
  key <> "" /\ trim key = key /\ has_char "="%char key = false
  /\ has_char line_feed key = false /\ startsWith_hash key = false
  /\ key <> "__proto__".

Definition clean_value (v : string) : Prop :=
  v <> "" /\ trim v = v /\ has_char line_feed v = false.

(** A line that sets nothing: blank, a comment, or without [=]. *)
Definition no_assignment (line : string) : Prop :=
  trim line = "" \/ startsWith_hash (trim line) = true
  \/ indexOf (trim line) "=" = None.

(** [lines.join("\n")]. *)
Definition join_lines (lines : list string) : string :=
  String.concat (String line_feed EmptyString) lines.

(** A property the parser has set: a key and a value that are not
    empty and have no white space at either end. *)
Definition tidy (entry : string * value) : Prop :=
  entry.1 <> "" /\ trim entry.1 = entry.1 /\ entry.1 <> "__proto__"
  /\ exists s, entry.2 = VStr s /\ s <> "" /\ trim s = s.

(** The guard of [summarizeHighlight], and the summary a call is
    answered from the cache: one that is there, not expired and not
    empty. *)
Definition valid_request (request : summarize_request) : bool :=
  truthy (requestId request) && truthy (highlight request)
  && negb (String.eqb (cacheKey request) "").

Definition cached_summary (now : Z) (key : string) (st : storage) : option string :=
  match (getCachedSummary now key st).1 with
  | Some (String c rest) => Some (String c rest)
  | _ => None
  end.

(** ** Text across elements ([DOMUtils.findTextRangeAcrossElements])

    The text nodes under the root are given by their contents, in
    document order; a node is its position in that order. *)

Module DOMUtils.

Record text_range : Type := TextRange {
  startContainer : nat;
  startOffset : Z;
  endContainer : nat;
  endOffset : Z
}.

(** The first loop: every node with the length of the text before it,
    and the text of all nodes. *)
Fixpoint walk (contents : list string) (node : nat) (concat : string)
  : list (nat * string * nat) * string :=
  match contents with
  | [] => ([], concat)
  | content :: rest =>
      let (nodes, all) := walk rest (S node) (concat ++ content) in
      ((node, content, String.length concat) :: nodes, all)
  end.

(** The second loop, from the node it has got to on; [startNode] is the
    start it has found, with its offset. *)
Fixpoint locate (nodes : list (nat * string * nat)) (index endIndex : Z)
    (startNode : option (nat * Z)) : option text_range :=
  match nodes with
  | [] => None
  | (node, content, start) :: rest =>
      let nodeEnd := Z.of_nat start + Z.of_nat (String.length content) in
      let startNode :=
        match startNode with
        | None =>
            if index <? nodeEnd then Some (node, index - Z.of_nat start) else None
        | Some _ => startNode
        end in
      match startNode with
      | Some (start_node, start_offset) =>
          if endIndex <=? nodeEnd
          then Some {| startContainer := start_node; startOffset := start_offset;
                       endContainer := node;
                       endOffset := endIndex - Z.of_nat start |}
          else locate rest index endIndex startNode
      | None => locate rest index endIndex None
      end
  end.

(** [range.setStart(node, offset)] and [range.setEnd(node, offset)]
    throw when the offset is not within the node. *)
Definition within (contents : list string) (node : nat) (offset : Z) : bool :=
  match contents !! node with
  | Some content => (0 <=? offset) && (offset <=? Z.of_nat (String.length content))
  | None => false
  end.

Definition findTextRangeAcrossElements (searchText : string)
    (contents : list string) : option text_range :=
  let (nodes, concat) := walk contents 0 "" in
  match indexOf concat searchText with
  | None => None
  | Some index =>
      let endIndex := Z.of_nat index + Z.of_nat (String.length searchText) in
      match locate nodes (Z.of_nat index) endIndex None with
      | None => None
      | Some range =>
          if within contents (startContainer range) (startOffset range)
             && within contents (endContainer range) (endOffset range)
          then Some range else None
      end
  end.

(** The text of all nodes, and the length of the text before a node. *)
Definition concat_all (contents : list string) : string :=
  fold_right String.append "" contents.

Definition text_before (contents : list string) (node : nat) : nat :=
  String.length (concat_all (firstn node contents)).

(** The text a range over the text nodes holds. *)
Definition range_text (contents : list string) (range : text_range) : string :=
  let from := Z.of_nat (text_before contents (startContainer range))
              + startOffset range in
  let to := Z.of_nat (text_before contents (endContainer range))
            + endOffset range in
  String.substring (Z.to_nat from) (Z.to_nat (to - from)) (concat_all contents).

(** *** Nodes that contain a text ([findTextNodesOptimized]) *)

Definition SHORT_TEXT_THRESHOLD : nat := 3.
Definition SHORT_TEXT_MAX_MATCHES : nat := 10.
Definition LONG_TEXT_MAX_MATCHES : nat := 5.

(** [content.includes(searchText)]. *)
Definition includes (content searchText : string) : bool :=
  match indexOf content searchText with
  | Some _ => true
  | None => false
  end.

(** The text nodes as a tree walker meets them, each with its content. *)
Fixpoint numbered (contents : list string) (node : nat) : list (nat * string) :=
  match contents with
  | [] => []
  | content :: rest => (node, content) :: numbered rest (S node)
  end.

(** [getAllTextNodes]: the walker rejects a node whose trimmed content
    has fewer than two characters. *)
Definition getAllTextNodes (contents : list string) : list (nat * string) :=
  List.filter (fun n => negb (String.length (trim n.2) <? 2)%nat)
              (numbered contents 0).

(** The loop over the walker for a short text. *)
Fixpoint walk_matches (searchText : string) (nodes : list (nat * string))
    (foundCount : nat) (textNodes : list nat) : list nat :=
  match nodes with
  | [] => textNodes
  | (node, content) :: rest =>
      if (foundCount <? SHORT_TEXT_MAX_MATCHES)%nat then
        if includes content searchText
        then walk_matches searchText rest (S foundCount) (textNodes ++ [node])
        else walk_matches searchText rest foundCount textNodes
      else textNodes
  end.

(** The loop over all text nodes for a longer text. *)
Fixpoint scan_matches (searchText : string) (nodes : list (nat * string))
    (textNodes : list nat) : list nat :=
  match nodes with
  | [] => textNodes
  | (node, content) :: rest =>
      if includes content searchText then
        let textNodes := textNodes ++ [node] in
        if (LONG_TEXT_MAX_MATCHES <=? length textNodes)%nat then textNodes
        else scan_matches searchText rest textNodes
      else scan_matches searchText rest textNodes
  end.

Definition findTextNodesOptimized (searchText : string) (contents : list string)
  : list nat :=
  let searchLength := String.length searchText in
  if (searchLength <? SHORT_TEXT_THRESHOLD)%nat then
    let accepted :=
      List.filter (fun n => negb (String.length n.2 <? searchLength)%nat)
                  (numbered contents 0) in
    walk_matches searchText accepted 0 []
  else scan_matches searchText (getAllTextNodes contents) [].

(** The nodes that contain the text, in document order. *)
Definition containing (searchText : string) (contents : list string) : list nat :=
  map fst (List.filter (fun n => includes n.2 searchText) (numbered contents 0)).

End DOMUtils.

(** ** From a selection to a saved highlight ([handleTextSelection],
       [storeSelectionData], [createHighlightObject]) *)

Module StorageUtils.

(** What the content script keeps of a selection until it is saved. *)
Record pendingHighlight : Type := PendingHighlight {
  pending_text : string;
  surroundingText : string;
  textPosition : value;
  pending_timestamp : Z
}.

(** What [EventUtils.handleTextSelection] hands to its callback for the
    selected text [selected]: the trimmed text when it has between 1 and
    999 characters, an empty text without a selection when it is empty,
    and [None], no call at all, when it is longer. *)
Definition handleTextSelection (selected : string) : option (bool * string) :=
  let selectedText := trim selected in
  if (0 <? String.length selectedText)%nat
     && (Z.of_nat (String.length selectedText) <? MAX_TEXT_LENGTH)
  then Some (true, selectedText)
  else if (String.length selectedText =? 0)%nat then Some (false, "")
  else None.

(** The callback of the content script: the pending highlight it
    leaves, [now] being the time of the selection. It does nothing
    while a summary is under way. *)
Definition onTextSelection (isSummarizing : bool) (now : Z)
    (surrounding : string) (position : value)
    (selected : string) (pending : option pendingHighlight)
  : option pendingHighlight :=
  if isSummarizing then pending else
  match handleTextSelection selected with
  | Some (_, selectedText) =>
      if (0 <? String.length selectedText)%nat
         && (Z.of_nat (String.length selectedText) <? MAX_TEXT_LENGTH)
      then Some {| pending_text := selectedText; surroundingText := surrounding;
                   textPosition := position; pending_timestamp := now |}
      else if (String.length selectedText =? 0)%nat then None
      else pending
  | None => pending
  end.

(** [createHighlightObject(pendingHighlight)] on the page at [href],
    with the identifier [crypto.randomUUID()] has drawn. *)
Definition createHighlightObject (uuid href title hostname : string) (now : Z)
    (pending : pendingHighlight) : value :=
  VObj [("id", VStr ("highlight_" ++ uuid));
        ("text", VStr (pending_text pending));
        ("url", VStr href);
        ("title", VStr title);
        ("domain", VStr hostname);
        ("timestamp",
          VNum (if pending_timestamp pending =? 0 then now
                else pending_timestamp pending));
        ("pageText", VStr (surroundingText pending));
        ("textPosition", textPosition pending)].

End StorageUtils.

(** * Properties *)

(** ** Values and properties *)

Lemma lookup_assign_ne k k' v props :
  k <> k' -> lookup_prop k' (assign_prop k v props) = lookup_prop k' props.
Proof.
  intros Hne. induction props as [|[k0 v0] rest IH]; simpl.
  - destruct (String.eqb_spec k' k); congruence.
  - destruct (String.eqb_spec k k0) as [->|Hk]; simpl.
    + destruct (String.eqb_spec k' k0); congruence.
    + destruct (String.eqb_spec k' k0); congruence.
Qed.

Lemma lookup_assign_eq k v props :
  lookup_prop k (assign_prop k v props) = v.
Proof.
  induction props as [|[k0 v0] rest IH]; simpl.
  - now rewrite String.eqb_refl.
  - destruct (String.eqb_spec k k0) as [->|Hk]; simpl.
    + now rewrite String.eqb_refl.
    + destruct (String.eqb_spec k k0); congruence.
Qed.

Lemma prop_set_prop_ne o k k' v :
  k <> k' -> prop (set_prop o k v) k' = prop o k'.
Proof.
  intros Hne. destruct o; simpl; try reflexivity.
  now apply lookup_assign_ne.
Qed.

Lemma prop_set_prop_eq o k v :
  is_object o -> prop (set_prop o k v) k = v.
Proof.
  destruct o; simpl; try contradiction. intros _. apply lookup_assign_eq.
Qed.

(** Only an object can answer a truthy [text]: strings and arrays have
    [length] and nothing else. *)
Lemma truthy_text_object h :
  truthy (prop h "text") = true -> is_object h.
Proof. destruct h; simpl; try discriminate; auto. Qed.

Lemma importFilter_object h : importFilter h = true -> is_object h.
Proof.
  unfold importFilter. rewrite !andb_true_iff.
  intros [[[[[[[[[[[_ _] Hid] _] _] _] _] _] _] _] _] _].
  destruct h; simpl in *; try discriminate; auto.
Qed.

Lemma set_prop_object o k v : is_object o -> is_object (set_prop o k v).
Proof. destruct o; simpl; auto. Qed.

(** ** The capacity cap *)

Lemma cap_firstn hs : cap hs = firstn MAX_HIGHLIGHTS hs.
Proof.
  unfold cap. destruct (Nat.ltb_spec MAX_HIGHLIGHTS (length hs)) as [Hlt|Hle].
  - reflexivity.
  - symmetry. apply firstn_all2. exact Hle.
Qed.

Lemma cap_length hs : length (cap hs) = Nat.min MAX_HIGHLIGHTS (length hs).
Proof. rewrite cap_firstn. apply length_firstn. Qed.

Lemma cap_small hs : (length hs <= MAX_HIGHLIGHTS)%nat -> cap hs = hs.
Proof. intros H. rewrite cap_firstn. now apply firstn_all2. Qed.

Lemma cap_cons h hs :
  cap (h :: hs) = h :: firstn (Nat.pred MAX_HIGHLIGHTS) hs.
Proof. rewrite cap_firstn. reflexivity. Qed.

Lemma In_firstn {A} (x : A) n l : In x (firstn n l) -> In x l.
Proof.
  revert n. induction l as [|y l IH]; intros [|n]; simpl; try tauto.
  intros [->|H]; eauto.
Qed.

(** ** Saving *)

Lemma saveHighlight_accepts h :
  saveable h ->
  exists fn, saveHighlight h = WithStorageLock fn
             /\ forall w,
                 runOp fn w =
                 (inr (stamped h (clock w 0%nat)),
                  {| store := set_highlights
                       (cap (stamped h (clock w 0%nat) :: getHighlights (store w)))
                       (store w);
                     clock := (if truthy (prop h "timestamp") then clock w
                               else fun n => clock w (S n));
                     notified := S (notified w) |}).
Proof.
  intros (Hh & Ht & Hu). unfold saveHighlight. rewrite Hh, Ht, Hu. simpl negb.
  simpl orb. eexists. split; [reflexivity|]. intros w.
  unfold stamped, getHighlights.
  destruct (truthy (prop h "timestamp")); reflexivity.
Qed.

Lemma classic_saveable h : saveable h \/ ~ saveable h.
Proof.
  unfold saveable.
  destruct (truthy h), (truthy (prop h "text")), (truthy (prop h "url"));
    intuition discriminate.
Qed.

Lemma saveHighlight_rejects h :
  ~ saveable h ->
  saveHighlight h = Rejects "Invalid highlight data: missing required fields".
Proof.
  unfold saveable, saveHighlight. intros Hn.
  destruct (truthy h), (truthy (prop h "text")), (truthy (prop h "url"));
    simpl; try reflexivity.
  exfalso. apply Hn. auto.
Qed.

Lemma stamped_id h now : prop (stamped h now) "id" = prop h "id".
Proof.
  unfold stamped. destruct (truthy (prop h "timestamp")); [reflexivity|].
  now apply prop_set_prop_ne.
Qed.

Lemma saveHighlight_prepends_and_caps_aux h w :
  saveable h ->
  exists rest,
    getAll_after (saveHighlight h) w = stamped h (clock w 0%nat) :: rest.
Proof.
  intros Hs. destruct (saveHighlight_accepts h Hs) as (fn & Hcall & Hrun).
  unfold getAll_after. rewrite Hcall. simpl run. rewrite Hrun. simpl.
  rewrite cap_cons. eauto.
Qed.

(** C1. A record that passes the guard of [saveHighlight] is put at the
    head of the stored list, which is then cut to its first 1000
    entries: [getAll()] answers the saved record followed by the first
    999 of the old entries, in their old order. The saved record keeps
    its [id], no other entry has that [id] when no old entry had it, and
    a list that was full stays at exactly 1000 entries. *)
Theorem saveHighlight_prepends_and_caps (h : value) (w : world) :
  saveable h ->
  let old := getHighlights (store w) in
  let saved := stamped h (clock w 0%nat) in
  let now := getAll_after (saveHighlight h) w in
  (run (saveHighlight h) w).1 = inr saved
  /\ now = firstn MAX_HIGHLIGHTS (saved :: old)
  /\ now = saved :: firstn 999 old
  /\ prop saved "id" = prop h "id"
  /\ ((forall e, In e old -> prop e "id" <> prop h "id") ->
      forall e, In e (tl now) -> prop e "id" <> prop h "id")
  /\ length now = Nat.min 1000 (S (length old))
  /\ (length old = 1000%nat -> length now = 1000%nat).
Proof.
  intros Hs old saved now.
  destruct (saveHighlight_accepts h Hs) as (fn & Hcall & Hrun).
  assert (Hnow : now = saved :: firstn 999 old).
  { unfold now, getAll_after. rewrite Hcall. simpl run. rewrite Hrun.
    simpl. apply cap_cons. }
  split; [now rewrite Hcall; simpl run; rewrite Hrun|].
  split; [rewrite Hnow; reflexivity|].
  split; [exact Hnow|].
  split; [apply stamped_id|].
  assert (Hlen : length now = Nat.min 1000 (S (length old))).
  { rewrite Hnow. simpl length. rewrite length_firstn. lia. }
  split; [|split; [exact Hlen|intros Hfull; rewrite Hlen, Hfull; reflexivity]].
  intros Hfresh e He. rewrite Hnow in He. simpl in He.
  apply Hfresh. eapply In_firstn. exact He.
Qed.

(** ** Importing *)

Lemma filter_split_length {A} (f : A -> bool) l :
  (length (List.filter f l)
   + length (List.filter (fun x => negb (f x)) l) = length l)%nat.
Proof.
  induction l as [|x l IH]; simpl; [reflexivity|].
  destruct (f x); simpl; lia.
Qed.

Lemma filter_Forall {A} (f : A -> bool) l :
  Forall (fun x => f x = true) (List.filter f l).
Proof. apply List.Forall_forall. intros x Hx. now apply List.filter_In in Hx. Qed.

Lemma importHighlights_replace incoming w :
  let valid := List.filter importFilter incoming in
  run (importHighlights (VArr incoming) false) w =
    (inr (replace_report (Z.of_nat (length valid))
            (Z.of_nat (length incoming) - Z.of_nat (length valid))),
     {| store := set_highlights valid (store w);
        clock := clock w; notified := S (notified w) |}).
Proof. reflexivity. Qed.

Lemma importHighlights_merge incoming w :
  let existing := getHighlights (store w) in
  let valid := List.filter importFilter incoming in
  let fresh := List.filter (fun h => negb (has_id existing h)) valid in
  run (importHighlights (VArr incoming) true) w =
    (inr (merge_report (Z.of_nat (length fresh))
            (Z.of_nat (length valid) - Z.of_nat (length fresh))
            (Z.of_nat (length incoming) - Z.of_nat (length valid))),
     {| store := set_highlights (cap (fresh ++ existing)) (store w);
        clock := clock w; notified := S (notified w) |}).
Proof. reflexivity. Qed.

Lemma has_id_spec existing h :
  has_id existing h = true <->
  exists e, In e existing /\ strict_eq (prop h "id") (prop e "id") = true.
Proof.
  unfold has_id. rewrite existsb_exists. split.
  - intros (i & Hi & Heq). apply in_map_iff in Hi as (e & <- & He). eauto.
  - intros (e & He & Heq). exists (prop e "id"). split; [|exact Heq].
    apply in_map_iff. eauto.
Qed.

(** C5. Merge import. The stored list becomes the valid incoming records
    whose [id] no existing record has, in their incoming order, followed
    by the existing records as they were, cut to the first 1000 entries.
    The answer counts the prepended records as [imported], the valid
    incoming records whose [id] collides with an existing one as
    [skippedDuplicates] and the records the filter dropped as
    [skippedInvalid]. When the combined list fits the cap, every existing
    record is still there. *)
Theorem importHighlights_merge_keeps_existing (incoming : list value) (w : world) :
  let existing := getHighlights (store w) in
  let valid := List.filter importFilter incoming in
  let fresh := List.filter (fun h => negb (has_id existing h)) valid in
  let collisions := List.filter (has_id existing) valid in
  let c := importHighlights (VArr incoming) true in
  getAll_after c w = firstn MAX_HIGHLIGHTS (fresh ++ existing)
  /\ (run c w).1 =
       inr (merge_report (Z.of_nat (length fresh))
              (Z.of_nat (length collisions))
              (Z.of_nat (length incoming) - Z.of_nat (length valid)))
  /\ (forall h, In h fresh <->
        In h incoming /\ importFilter h = true
        /\ forall e, In e existing ->
             strict_eq (prop h "id") (prop e "id") = false)
  /\ (forall h, In h collisions <->
        In h incoming /\ importFilter h = true
        /\ exists e, In e existing
             /\ strict_eq (prop h "id") (prop e "id") = true)
  /\ ((length fresh + length existing <= MAX_HIGHLIGHTS)%nat ->
      getAll_after c w = fresh ++ existing).
Proof.
  intros existing valid fresh collisions c.
  unfold c, getAll_after. rewrite importHighlights_merge.
  fold existing valid fresh. cbn [fst snd store set_highlights getHighlights highlights default].
  split; [apply cap_firstn|]. split.
  { do 2 f_equal. unfold merge_report. do 3 f_equal.
    pose proof (filter_split_length (has_id existing) valid) as Hlen.
    fold collisions fresh in Hlen. lia. }
  split.
  { intros h. unfold fresh, valid. rewrite !List.filter_In, negb_true_iff.
    split.
    - intros [[Hin Hv] Hno]. repeat split; auto. intros e He.
      destruct (strict_eq (prop h "id") (prop e "id")) eqn:Heq; [|reflexivity].
      assert (has_id existing h = true) by (apply has_id_spec; eauto).
      congruence.
    - intros (Hin & Hv & Hno). repeat split; auto.
      destruct (has_id existing h) eqn:Hhas; [|reflexivity].
      apply has_id_spec in Hhas as (e & He & Heq).
      rewrite (Hno e He) in Heq. discriminate. }
  split.
  { intros h. unfold collisions, valid. rewrite !List.filter_In, has_id_spec.
    tauto. }
  intros Hfit. apply cap_small. rewrite length_app. exact Hfit.
Qed.

Lemma importHighlights_merge_keeps_existing_witness :
  (length (List.filter
             (fun h => negb (has_id [example_original] h))
             (List.filter importFilter [example_h1; example_h2]))
   + length [example_original] <= MAX_HIGHLIGHTS)%nat
  /\ getAll_after (importHighlights (VArr [example_h1; example_h2]) true)
       (world_with [example_original] 300)
     = [example_h2; example_original].
Proof.
  assert (Hfit : (length (List.filter
                            (fun h => negb (has_id [example_original] h))
                            (List.filter importFilter [example_h1; example_h2]))
                  + length [example_original] <= MAX_HIGHLIGHTS)%nat)
    by (vm_compute; lia).
  split; [exact Hfit|].
  exact (proj2 (proj2 (proj2 (proj2
    (importHighlights_merge_keeps_existing [example_h1; example_h2]
       (world_with [example_original] 300))))) Hfit).
Defined.

Lemma saveHighlight_prepends_and_caps_witness :
  saveable example_h2
  /\ getAll_after (saveHighlight example_h2) (world_with [example_h1] 300)
     = [example_h2; example_h1].
Proof.
  assert (Hs : saveable example_h2) by (repeat split; reflexivity).
  split; [exact Hs|].
  exact (proj1 (proj2 (proj2
    (saveHighlight_prepends_and_caps example_h2 (world_with [example_h1] 300) Hs)))).
Defined.

Example importHighlights_merge_test :
  run (importHighlights (VArr [example_h1; example_h2]) true)
      (world_with [example_original] 300)
  = (inr (merge_report 1 1 0),
     {| store := {| highlights := Some [example_h2; example_original];
                    summaryCache := None |};
        clock := fun _ => 300; notified := 1 |}).
Proof. reflexivity. Qed.

(** C4, at an import of 1001 valid records in replace mode: all 1001
    are stored. The replace branch writes [validHighlights] as it is;
    the merge branch and [saveHighlight] cut the list they write to
    [MAX_HIGHLIGHTS]. *)
Theorem importHighlights_replace_exceeds_cap :
  let incoming := repeat example_h1 1001 in
  let c := importHighlights (VArr incoming) false in
  getAll_after c (world_with [example_h2] 300) = incoming
  /\ length (getAll_after c (world_with [example_h2] 300)) = 1001%nat
  /\ (MAX_HIGHLIGHTS < length (getAll_after c (world_with [example_h2] 300)))%nat
  /\ (run c (world_with [example_h2] 300)).1 = inr (replace_report 1001 0)
  /\ length (getAll_after (importHighlights (VArr incoming) true)
               (world_with [example_h2] 300)) = MAX_HIGHLIGHTS.
Proof. vm_compute. repeat split; lia. Qed.

(** Replace import in general: the old list is gone, the stored list is
    the incoming records that pass the filter, in their order, and the
    answer counts them and the dropped ones. *)
Lemma importHighlights_replace_discards incoming w :
  let valid := List.filter importFilter incoming in
  let c := importHighlights (VArr incoming) false in
  getAll_after c w = valid
  /\ (run c w).1 =
       inr (replace_report (Z.of_nat (length valid))
              (Z.of_nat (length incoming) - Z.of_nat (length valid))).
Proof. split; reflexivity. Qed.

(** ** The two validation predicates *)

Lemma js_le_weaken v a b : a <= b -> js_le v a = js_le v b && js_le v a.
Proof.
  intros Hab. destruct v; try reflexivity. simpl.
  destruct (Z.leb_spec n a), (Z.leb_spec n b); try reflexivity; lia.
Qed.

(** A record whose text has 1001 characters passes the popup's
    [validateHighlight] and is dropped by the filter of
    [importHighlights]. *)
Lemma validation_predicates_differ :
  ~ (forall r, validateHighlight r = importFilter r).
Proof.
  intros Hsame. specialize (Hsame example_long). vm_compute in Hsame.
  discriminate.
Qed.

(** C6, amended. The two predicates test the same fields in the same
    way and differ in the size bounds: the popup lets a text of up to
    10000 and a url of up to 2048 characters through, the background
    filter 1000 and 500. A record passes the background filter exactly
    when it passes the popup's predicate and is within the background's
    bounds; so whatever the background accepts the popup accepts, and
    the two agree on every record within those bounds. *)
Theorem importFilter_refines_validateHighlight (r : value) :
  importFilter r =
    validateHighlight r
    && js_le (prop (prop r "text") "length") MAX_TEXT_LENGTH
    && js_le (prop (prop r "url") "length") MAX_URL_LENGTH.
Proof.
  unfold importFilter, validateHighlight.
  rewrite (js_le_weaken (prop (prop r "text") "length") MAX_TEXT_LENGTH 10000)
    by (unfold MAX_TEXT_LENGTH; lia).
  rewrite (js_le_weaken (prop (prop r "url") "length") MAX_URL_LENGTH 2048)
    by (unfold MAX_URL_LENGTH; lia).
  btauto.
Qed.

(** ** What the stored list can hold *)

Lemma importFilter_well_typed h : importFilter h = true -> well_typed h = true.
Proof.
  unfold importFilter, well_typed. rewrite !andb_true_iff. tauto.
Qed.

Lemma nonempty_string_truthy v :
  String.eqb (typeof v) "string" = true ->
  js_gt (prop v "length") 0 = true -> truthy v = true.
Proof.
  destruct v; simpl; try discriminate. intros _.
  destruct s; simpl; [discriminate|reflexivity].
Qed.

Lemma positive_number_truthy v :
  String.eqb (typeof v) "number" = true -> js_gt v 0 = true -> truthy v = true.
Proof.
  destruct v; simpl; try discriminate. intros _ Hpos.
  apply Z.ltb_lt in Hpos. destruct (Z.eqb_spec n 0); [lia|reflexivity].
Qed.

Lemma importFilter_storable h : importFilter h = true -> storable h.
Proof.
  intros Hv. pose proof (importFilter_object h Hv) as Hobj.
  unfold importFilter in Hv. rewrite !andb_true_iff in Hv.
  destruct Hv as [[[[[[[[[[[_ _] _] _] Ht1] Ht2] _] Hu1] Hu2] _] Hn1] Hn2].
  repeat split; auto using nonempty_string_truthy, positive_number_truthy.
Qed.

Lemma stamped_storable h now : now <> 0 -> saveable h -> storable (stamped h now).
Proof.
  intros Hnow (Hh & Ht & Hu). pose proof (truthy_text_object h Ht) as Hobj.
  unfold stamped. destruct (truthy (prop h "timestamp")) eqn:Hts.
  - repeat split; auto.
  - repeat split.
    + now apply set_prop_object.
    + rewrite prop_set_prop_ne by discriminate. exact Ht.
    + rewrite prop_set_prop_ne by discriminate. exact Hu.
    + rewrite prop_set_prop_eq by exact Hobj. simpl.
      destruct (Z.eqb_spec now 0); [contradiction|reflexivity].
Qed.

Lemma Forall_firstn {A} (P : A -> Prop) n l :
  List.Forall P l -> List.Forall P (firstn n l).
Proof.
  intros H. revert n. induction H; intros [|n]; simpl; constructor; auto.
Qed.

Lemma Forall_filter {A} (P : A -> Prop) (f : A -> bool) l :
  List.Forall P l -> List.Forall P (List.filter f l).
Proof.
  induction 1; simpl; [constructor|]. destruct (f x); [constructor|]; auto.
Qed.

Lemma Forall_cap (P : value -> Prop) l :
  List.Forall P l -> List.Forall P (cap l).
Proof. rewrite cap_firstn. apply Forall_firstn. Qed.

Lemma importHighlights_forms importData merge :
  (exists msg, importHighlights importData merge = Rejects msg)
  \/ (exists incoming,
        importHighlights importData merge
        = importHighlights (VArr incoming) merge).
Proof.
  destruct (isArray importData) eqn:Harr.
  - right. destruct importData; try discriminate. eauto.
  - destruct (truthy importData && truthy (prop importData "highlights")
              && isArray (prop importData "highlights")) eqn:Hobj.
    + right. exists (items_of (prop importData "highlights")).
      unfold importHighlights. rewrite Harr, Hobj. reflexivity.
    + left. unfold importHighlights. rewrite Harr, Hobj. eauto.
Qed.

(** One request keeps the stored list within [P] when the records the
    two boundaries let in are within [P]. *)
Lemma handleMessage_preserves (P : value -> Prop) r w :
  (forall h, importFilter h = true -> P h) ->
  (forall h, saveable h -> P (stamped h (clock w 0%nat))) ->
  List.Forall P (getHighlights (store w)) ->
  List.Forall P (getHighlights (store (run (handleMessage r) w).2)).
Proof.
  intros Himp Hsave Hold. destruct r as [h|id| |importData merge]; simpl handleMessage.
  - destruct (classic_saveable h) as [Hs|Hs].
    + destruct (saveHighlight_accepts h Hs) as (fn & -> & Hrun).
      simpl run. rewrite Hrun. simpl. apply Forall_cap. constructor; auto.
    + rewrite (saveHighlight_rejects h Hs). exact Hold.
  - unfold deleteHighlight. destruct (truthy id); simpl; [|exact Hold].
    apply Forall_filter. exact Hold.
  - simpl. constructor.
  - destruct (importHighlights_forms importData merge) as [[msg ->]|[incoming ->]];
      [exact Hold|].
    destruct merge.
    + rewrite importHighlights_merge. simpl. apply Forall_cap.
      apply List.Forall_app. split; [|exact Hold].
      apply Forall_filter. eapply List.Forall_impl; [|apply filter_Forall].
      exact Himp.
    + rewrite importHighlights_replace. simpl.
      eapply List.Forall_impl; [|apply filter_Forall]. exact Himp.
Qed.

Lemma run_clock_positive c w :
  (forall n, 0 < clock w n) -> forall n, 0 < clock (run c w).2 n.
Proof.
  destruct c as [msg|fn]; simpl; [auto|].
  revert w. induction fn as [v|msg|k IH|hs k IH|k IH|k IH]; intros w Hpos; simpl; auto.
  all: apply IH; simpl; auto.
Qed.

Lemma serve_preserves_storable rs w :
  (forall n, 0 < clock w n) ->
  List.Forall storable (getHighlights (store w)) ->
  List.Forall storable (getHighlights (store (serve rs w))).
Proof.
  revert w. induction rs as [|r rs IH]; intros w Hpos Hold; [exact Hold|].
  simpl. apply IH.
  - now apply run_clock_positive.
  - apply handleMessage_preserves; auto using importFilter_storable.
    intros h Hs. apply stamped_storable; [|exact Hs].
    specialize (Hpos 0%nat). lia.
Qed.

(** After one save of a record without [id] the stored list holds a
    record that is not well typed. *)
Lemma stored_record_not_well_typed :
  getHighlights
    (store (serve [SaveHighlightReq example_no_id] (fresh_install 300)))
  = [example_no_id]
  /\ well_typed example_no_id = false.
Proof. split; reflexivity. Qed.

(** C3, amended. The import boundary lets a record in only when it passes
    the filter, and then its [id], [text] and [url] are non-empty
    strings and its [timestamp] is a positive number. The save boundary
    rejects a record that is missing or whose [text] or [url] is missing
    or empty, fills in a missing [timestamp] with the current time, and
    looks at nothing else. Hence, whatever requests are served, every
    stored record is an object with a truthy [text], [url] and
    [timestamp]. *)
Theorem stored_records_storable (rs : list request) (w : world) :
  (forall n, 0 < clock w n) ->
  List.Forall storable (getHighlights (store w)) ->
  List.Forall storable (getHighlights (store (serve rs w)))
  /\ (forall importData merge h,
        In h (getAll_after (importHighlights importData merge) w) ->
        (importFilter h = true /\ well_typed h = true)
        \/ In h (getHighlights (store w)))
  /\ (forall h, ~ saveable h ->
        saveHighlight h
        = Rejects "Invalid highlight data: missing required fields")
  /\ (forall h, saveable h ->
        exists rest,
          getAll_after (saveHighlight h) w = stamped h (clock w 0%nat) :: rest
          /\ storable (stamped h (clock w 0%nat))).
Proof.
  intros Hpos Hold. split; [now apply serve_preserves_storable|].
  split; [|split].
  - intros importData merge h. unfold getAll_after.
    destruct (importHighlights_forms importData merge) as [[msg ->]|[incoming ->]];
      [simpl; auto|].
    destruct merge.
    + rewrite importHighlights_merge. simpl. rewrite cap_firstn.
      intros Hin. apply In_firstn in Hin. apply List.in_app_iff in Hin as [Hin|Hin].
      * left. apply List.filter_In in Hin as [Hin _].
        apply List.filter_In in Hin as [Hin Hv].
        auto using importFilter_well_typed.
      * right. auto.
    + rewrite importHighlights_replace. simpl. intros Hin.
      apply List.filter_In in Hin as [Hin Hv].
      left. auto using importFilter_well_typed.
  - apply saveHighlight_rejects.
  - intros h Hs.
    destruct (saveHighlight_prepends_and_caps_aux h w Hs) as [rest Hrest].
    exists rest. split; [exact Hrest|].
    apply stamped_storable; [|exact Hs]. specialize (Hpos 0%nat). lia.
Qed.

Lemma stored_records_storable_witness :
  (forall n, 0 < clock (fresh_install 300) n)
  /\ List.Forall storable (getHighlights (store (fresh_install 300)))
  /\ List.Forall storable
       (getHighlights
          (store (serve [SaveHighlightReq example_no_id;
                         ImportHighlightsReq (VArr [example_h1; VNull]) true]
                    (fresh_install 300)))).
Proof.
  assert (Hpos : forall n, 0 < clock (fresh_install 300) n) by (intros n; simpl; lia).
  assert (Hnil : List.Forall storable (getHighlights (store (fresh_install 300))))
    by constructor.
  split; [exact Hpos|]. split; [exact Hnil|].
  exact (proj1 (stored_records_storable _ (fresh_install 300) Hpos Hnil)).
Defined.

(** ** The rate limiter *)

Lemma ceil_div_spec a b :
  0 < b -> (ceil_div a b - 1) * b < a <= ceil_div a b * b.
Proof.
  intros Hb. unfold ceil_div.
  pose proof (Z.div_mod (- a) b ltac:(lia)) as Hdm.
  pose proof (Z.mod_pos_bound (- a) b Hb) as Hmod.
  nia.
Qed.

Lemma filter_length_le {A} (f : A -> bool) l :
  (length (List.filter f l) <= length l)%nat.
Proof. pose proof (filter_split_length f l). lia. Qed.

Lemma filter_filter_absorb {A} (f g : A -> bool) l :
  (forall x, In x l -> f x = true -> g x = true) ->
  List.filter f (List.filter g l) = List.filter f l.
Proof.
  induction l as [|x l IH]; intros H; simpl; [reflexivity|].
  destruct (g x) eqn:Hg; simpl.
  - rewrite IH by (intros; apply H; simpl; auto). reflexivity.
  - destruct (f x) eqn:Hf.
    + rewrite H in Hg by (simpl; auto). discriminate.
    + apply IH. intros; apply H; simpl; auto.
Qed.

Lemma filter_none {A} (f : A -> bool) l :
  (forall x, In x l -> f x = false) -> List.filter f l = [].
Proof.
  induction l as [|x l IH]; intros H; simpl; [reflexivity|].
  rewrite H by (simpl; auto). apply IH. intros; apply H; simpl; auto.
Qed.

Lemma allowed_calls_In (times ts : list Z) (a : Z) :
  In a (allowed_calls times ts) -> In a times.
Proof.
  revert ts. induction times as [|now rest IH]; intros ts; simpl; [tauto|].
  destruct (_checkRateLimit now ts) as [[e|u] ts']; simpl; intros H.
  - right. eauto.
  - destruct H as [H|H]; [auto|right; eauto].
Qed.

(** Timestamps that a check at [now] prunes share no window with a call
    made at [now] or later. *)
Lemma pruned_share_no_window (now : Z) (ts later : list Z) (t : Z) :
  (forall a, In a later -> now <= a) ->
  (length ts <= 5)%nat ->
  (calls_in_window t
     (List.filter (fun a => (now - a <? RATE_LIMIT_WINDOW)%Z) ts ++ later) <= 5)%nat ->
  (calls_in_window t (ts ++ later) <= 5)%nat.
Proof.
  intros Hlater Hlen Hpruned. unfold calls_in_window in *.
  rewrite List.filter_app, length_app in *.
  destruct (existsb (fun a => in_window t a && (RATE_LIMIT_WINDOW <=? now - a)) ts)
    eqn:Hex.
  - apply existsb_exists in Hex as (p & Hp & Hcond).
    apply andb_true_iff in Hcond as [Hwin Hold].
    unfold in_window in Hwin. apply andb_true_iff in Hwin as [Hlo Hhi].
    rewrite (filter_none (in_window t) later).
    + pose proof (filter_length_le (in_window t) ts). simpl. lia.
    + intros a Ha. apply Hlater in Ha. unfold in_window.
      apply andb_false_iff. right. apply Z.ltb_ge. lia.
  - rewrite filter_filter_absorb in Hpruned; [exact Hpruned|].
    intros a Ha Hwin.
    destruct (now - a <? RATE_LIMIT_WINDOW) eqn:Hin; [reflexivity|].
    assert (existsb (fun a => in_window t a && (RATE_LIMIT_WINDOW <=? now - a)) ts
            = true); [|congruence].
    apply existsb_exists. exists a. split; [exact Ha|].
    rewrite Hwin. simpl. apply Z.leb_le. apply Z.ltb_ge in Hin. lia.
Qed.

Lemma allowed_calls_window (times ts : list Z) (t : Z) :
  nondecreasing times ->
  (forall a n, In a ts -> In n times -> a <= n) ->
  (length ts <= 5)%nat ->
  (calls_in_window t (ts ++ allowed_calls times ts) <= 5)%nat.
Proof.
  revert ts. induction times as [|now rest IH]; intros ts Hsorted Hbefore Hlen.
  - simpl. rewrite List.app_nil_r. unfold calls_in_window.
    pose proof (filter_length_le (in_window t) ts). lia.
  - destruct Hsorted as [Hnow Hsorted]. simpl. unfold _checkRateLimit.
    set (kept := List.filter (fun a => now - a <? RATE_LIMIT_WINDOW) ts).
    assert (Hkept_len : (length kept <= length ts)%nat)
      by apply filter_length_le.
    assert (Hkept_in : forall a, In a kept -> In a ts)
      by (intros a Ha; now apply List.filter_In in Ha).
    destruct (Z.leb_spec RATE_LIMIT_MAX (Z.of_nat (length kept))) as [Hfull|Hroom].
    + apply (pruned_share_no_window now); [|exact Hlen|].
      * intros a Ha. apply allowed_calls_In in Ha. auto.
      * apply IH; [exact Hsorted| |lia].
        intros a n Ha Hn. apply Hbefore; simpl; auto.
    + apply (pruned_share_no_window now); [|exact Hlen|].
      * intros a [<-|Ha]; [lia|]. apply allowed_calls_In in Ha. auto.
      * fold kept.
        replace (kept ++ now :: allowed_calls rest (kept ++ [now]))
          with ((kept ++ [now]) ++ allowed_calls rest (kept ++ [now]))
          by (now rewrite <- List.app_assoc).
        apply IH; [exact Hsorted| |].
        -- intros a n Ha Hn. apply List.in_app_iff in Ha as [Ha|[<-|[]]].
           ++ apply Hbefore; simpl; auto.
           ++ auto.
        -- rewrite length_app. simpl. unfold RATE_LIMIT_MAX in Hroom. lia.
Qed.

Lemma _checkRateLimit_prunes now ts t :
  In t (_checkRateLimit now ts).2 -> now - t < RATE_LIMIT_WINDOW.
Proof.
  unfold _checkRateLimit.
  destruct (RATE_LIMIT_MAX <=? _); simpl; intros Hin.
  - apply List.filter_In in Hin as [_ Hin]. now apply Z.ltb_lt.
  - apply List.in_app_iff in Hin as [Hin|[<-|[]]].
    + apply List.filter_In in Hin as [_ Hin]. now apply Z.ltb_lt.
    + unfold RATE_LIMIT_WINDOW. lia.
Qed.

Lemma _checkRateLimit_keeps now ts t :
  In t ts -> now - t < RATE_LIMIT_WINDOW -> In t (_checkRateLimit now ts).2.
Proof.
  intros Hin Hwin.
  assert (In t (List.filter (fun t => now - t <? RATE_LIMIT_WINDOW) ts))
    by (apply List.filter_In; split; [exact Hin|now apply Z.ltb_lt]).
  unfold _checkRateLimit. destruct (RATE_LIMIT_MAX <=? _); simpl; auto.
  apply List.in_app_iff. auto.
Qed.

Lemma _checkRateLimit_room (now : Z) (ts : list Z) :
  (length ts < 5)%nat ->
  _checkRateLimit now ts =
    (inr tt, List.filter (fun t => now - t <? RATE_LIMIT_WINDOW) ts ++ [now]).
Proof.
  intros Hlen. unfold _checkRateLimit.
  pose proof (filter_length_le (fun t => now - t <? RATE_LIMIT_WINDOW) ts) as Hle.
  destruct (Z.leb_spec RATE_LIMIT_MAX
              (Z.of_nat (length (List.filter (fun t => now - t <? RATE_LIMIT_WINDOW) ts))));
    [unfold RATE_LIMIT_MAX in *; lia|reflexivity].
Qed.

Lemma _checkRateLimit_room_after_prune (now : Z) (ts : list Z) :
  (length (List.filter (fun t => (now - t <? RATE_LIMIT_WINDOW)%Z) ts) < 5)%nat ->
  (_checkRateLimit now ts).1 = inr tt.
Proof.
  intros Hlen. unfold _checkRateLimit.
  destruct (Z.leb_spec RATE_LIMIT_MAX
              (Z.of_nat (length (List.filter (fun t => now - t <? RATE_LIMIT_WINDOW) ts))));
    [unfold RATE_LIMIT_MAX in *; lia|reflexivity].
Qed.

Lemma filter_all {A} (f : A -> bool) l :
  (forall x, In x l -> f x = true) -> List.filter f l = l.
Proof.
  induction l as [|x l IH]; intros H; simpl; [reflexivity|].
  rewrite H by (simpl; auto). f_equal. apply IH. intros; apply H; simpl; auto.
Qed.

Lemma _checkRateLimit_allows (now : Z) (ts : list Z) :
  (forall t, In t ts -> now - t < RATE_LIMIT_WINDOW) ->
  (length ts < 5)%nat ->
  _checkRateLimit now ts = (inr tt, ts ++ [now]).
Proof.
  intros Hwin Hlen. rewrite _checkRateLimit_room by exact Hlen.
  rewrite filter_all; [reflexivity|].
  intros t Ht. apply Z.ltb_lt. auto.
Qed.

Lemma _checkRateLimit_refuses (now : Z) (ts : list Z) :
  (forall t, In t ts -> now - t < RATE_LIMIT_WINDOW) ->
  (5 <= length ts)%nat ->
  _checkRateLimit now ts =
    (inl (RateLimitExceeded
            (ceil_div (RATE_LIMIT_WINDOW - (now - nth 0 ts 0)) 1000)), ts).
Proof.
  intros Hwin Hlen. unfold _checkRateLimit.
  rewrite filter_all by (intros t Ht; apply Z.ltb_lt; auto).
  destruct (Z.leb_spec RATE_LIMIT_MAX (Z.of_nat (length ts)));
    [reflexivity|unfold RATE_LIMIT_MAX in *; lia].
Qed.

Ltac in_window_cases :=
  simpl; intros ? ?;
  repeat match goal with
         | H : _ \/ _ |- _ => destruct H
         | H : False |- _ => destruct H
         end; subst; unfold RATE_LIMIT_WINDOW in *; lia.

Lemma five_checks_in_window t1 t2 t3 t4 t5 :
  t1 <= t2 -> t2 <= t3 -> t3 <= t4 -> t4 <= t5 ->
  t5 - t1 < RATE_LIMIT_WINDOW ->
  after_checks [t1; t2; t3; t4; t5] [] = [t1; t2; t3; t4; t5].
Proof.
  intros H12 H23 H34 H45 Hwin. unfold after_checks. cbn [fold_left].
  rewrite (_checkRateLimit_allows t1 []); [cbn [snd app]|in_window_cases|simpl; lia].
  rewrite (_checkRateLimit_allows t2 [t1]); [cbn [snd app]|in_window_cases|simpl; lia].
  rewrite (_checkRateLimit_allows t3 [t1; t2]); [cbn [snd app]|in_window_cases|simpl; lia].
  rewrite (_checkRateLimit_allows t4 [t1; t2; t3]); [cbn [snd app]|in_window_cases|simpl; lia].
  rewrite (_checkRateLimit_allows t5 [t1; t2; t3; t4]); [cbn [snd app]|in_window_cases|simpl; lia].
  reflexivity.
Qed.

Lemma allowed_calls_room (times ts : list Z) :
  (length ts + length times <= 5)%nat -> allowed_calls times ts = times.
Proof.
  revert ts. induction times as [|now rest IH]; intros ts Hlen; [reflexivity|].
  simpl in *. rewrite _checkRateLimit_room by lia. f_equal. apply IH.
  pose proof (filter_length_le (fun t => now - t <? RATE_LIMIT_WINDOW) ts).
  rewrite length_app. simpl. lia.
Qed.

(** C7. The rate limiter. Every check drops the timestamps that are a
    full window old and keeps the others. Starting with no timestamps,
    the first five checks are let through whenever they come. When five
    calls were let through within one window, a sixth check in that window
    is refused at once, the timestamps stay as they are, and the error
    carries the whole seconds (between 1 and 60) until the oldest of the
    five leaves the window; a check made once that oldest call is a full
    window old is let through again. For checks made at times that do
    not decrease, no window of 60 seconds holds more than five calls that
    were let through. *)
Theorem rate_limiter_sliding_window :
  (forall now ts t,
      (In t (_checkRateLimit now ts).2 -> now - t < RATE_LIMIT_WINDOW)
      /\ (In t ts -> now - t < RATE_LIMIT_WINDOW ->
          In t (_checkRateLimit now ts).2))
  /\ (forall t1 t2 t3 t4 t5,
        allowed_calls [t1; t2; t3; t4; t5] [] = [t1; t2; t3; t4; t5])
  /\ (forall t1 t2 t3 t4 t5 t6,
        t1 <= t2 -> t2 <= t3 -> t3 <= t4 -> t4 <= t5 -> t5 <= t6 ->
        t6 - t1 < RATE_LIMIT_WINDOW ->
        let waitTime := ceil_div (RATE_LIMIT_WINDOW - (t6 - t1)) 1000 in
        _checkRateLimit t6 (after_checks [t1; t2; t3; t4; t5] [])
        = (inl (RateLimitExceeded waitTime), [t1; t2; t3; t4; t5])
        /\ 1 <= waitTime <= 60
        /\ t1 + RATE_LIMIT_WINDOW <= t6 + 1000 * waitTime
             < t1 + RATE_LIMIT_WINDOW + 1000)
  /\ (forall t1 t2 t3 t4 t5 t,
        t1 <= t2 -> t2 <= t3 -> t3 <= t4 -> t4 <= t5 -> t5 <= t ->
        RATE_LIMIT_WINDOW <= t - t1 ->
        (_checkRateLimit t [t1; t2; t3; t4; t5]).1 = inr tt)
  /\ (forall times t,
        nondecreasing times ->
        (calls_in_window t (allowed_calls times []) <= 5)%nat).
Proof.
  split; [|split; [|split; [|split]]].
  - intros now ts t. split.
    + apply _checkRateLimit_prunes.
    + apply _checkRateLimit_keeps.
  - intros t1 t2 t3 t4 t5. apply allowed_calls_room. simpl. lia.
  - intros t1 t2 t3 t4 t5 t6 H12 H23 H34 H45 H56 Hwin waitTime.
    rewrite five_checks_in_window by lia.
    pose proof (ceil_div_spec (RATE_LIMIT_WINDOW - (t6 - t1)) 1000 ltac:(lia)) as Hc.
    fold waitTime in Hc. split; [|unfold RATE_LIMIT_WINDOW in *; lia].
    rewrite _checkRateLimit_refuses; [reflexivity|in_window_cases|simpl; lia].
  - intros t1 t2 t3 t4 t5 t H12 H23 H34 H45 H5t Hold.
    rewrite _checkRateLimit_room_after_prune; [reflexivity|].
    simpl. destruct (Z.ltb_spec (t - t1) RATE_LIMIT_WINDOW); [lia|].
    pose proof (filter_length_le (fun a => t - a <? RATE_LIMIT_WINDOW)
                  [t2; t3; t4; t5]). simpl in *. lia.
  - intros times t Hsorted.
    apply (allowed_calls_window times [] t); simpl; [exact Hsorted|tauto|lia].
Qed.

Lemma rate_limiter_sliding_window_witness :
  5000 - 0 < RATE_LIMIT_WINDOW
  /\ _checkRateLimit 5000 (after_checks [0; 1000; 2000; 3000; 4000] [])
     = (inl (RateLimitExceeded 55), [0; 1000; 2000; 3000; 4000]).
Proof.
  assert (Hwin : 5000 - 0 < RATE_LIMIT_WINDOW) by (unfold RATE_LIMIT_WINDOW; lia).
  split; [exact Hwin|].
  exact (proj1 (proj1 (proj2 (proj2 rate_limiter_sliding_window))
                  0 1000 2000 3000 4000 5000
                  ltac:(lia) ltac:(lia) ltac:(lia) ltac:(lia) ltac:(lia) Hwin)).
Defined.

(** Six calls one second apart, then one a minute after the first and
    one a minute after the second: the sixth is refused. *)
Example rate_limit_run :
  allowed_calls [0; 1000; 2000; 3000; 4000; 5000; 60000; 61000] []
  = [0; 1000; 2000; 3000; 4000; 60000; 61000]
  /\ after_checks [0; 1000; 2000; 3000; 4000; 5000; 60000; 61000] []
     = [2000; 3000; 4000; 60000; 61000].
Proof. split; reflexivity. Qed.

(** ** Expired cache entries *)

(** Reads of entries that are 31 s and 310 s old answer [null] and leave
    the entries where they are. *)
Lemma expired_entry_survives_read :
  (CacheManager.getCachedTextNodes 32000 "key1" expired_nodes).1 = None
  /\ CacheManager.textNodeCache
       (CacheManager.getCachedTextNodes 32000 "key1" expired_nodes).2 !! "key1"
     = Some {| CacheManager.nodes := [7%nat];
               CacheManager.nodes_timestamp := 1000 |}
  /\ (CacheManager.getCachedSummary 311000 "sum1" expired_nodes).1 = None
  /\ CacheManager.summaryCache
       (CacheManager.getCachedSummary 311000 "sum1" expired_nodes).2 !! "sum1"
     = Some {| summary := "old summary"; timestamp := 1000 |}
  /\ (getCachedSummary 311000 "sum1" expired_storage).1 = None
  /\ default ∅ (summaryCache (getCachedSummary 311000 "sum1" expired_storage).2)
       !! "sum1"
     = Some {| summary := "old summary"; timestamp := 1000 |}.
Proof. repeat split; vm_compute; reflexivity. Qed.

(** C9, amended. In the text-node cache, in the content script's summary
    cache and in the background's summary cache, reading an entry whose
    age has reached the cache's TTL answers [null], as reading a key that
    is absent does, and the read changes nothing: the expired entry and
    all other entries stay in the cache. *)
Theorem expired_read_is_miss {node : Type} (cm : CacheManager.t node)
    (st : storage) (now : Z) (key : string) :
  (forall cached,
      CacheManager.textNodeCache cm !! key = Some cached ->
      CacheManager.cacheValidityDuration
        <= now - CacheManager.nodes_timestamp cached ->
      CacheManager.getCachedTextNodes now key cm = (None, cm))
  /\ (CacheManager.textNodeCache cm !! key = None ->
      CacheManager.getCachedTextNodes now key cm = (None, cm))
  /\ (forall cached,
        CacheManager.summaryCache cm !! key = Some cached ->
        300000 <= now - timestamp cached ->
        CacheManager.getCachedSummary now key cm = (None, cm))
  /\ (CacheManager.summaryCache cm !! key = None ->
      CacheManager.getCachedSummary now key cm = (None, cm))
  /\ (forall cached,
        default ∅ (summaryCache st) !! key = Some cached ->
        SUMMARY_CACHE_TTL <= now - timestamp cached ->
        getCachedSummary now key st = (None, st))
  /\ (default ∅ (summaryCache st) !! key = None ->
      getCachedSummary now key st = (None, st)).
Proof.
  unfold CacheManager.getCachedTextNodes, CacheManager.getCachedSummary,
    getCachedSummary, gets.
  repeat split.
  - intros cached -> Hage.
    destruct (Z.ltb_spec (now - CacheManager.nodes_timestamp cached)
                CacheManager.cacheValidityDuration); [lia|reflexivity].
  - intros ->. reflexivity.
  - intros cached -> Hage.
    destruct (Z.ltb_spec (now - timestamp cached) 300000); [lia|reflexivity].
  - intros ->. reflexivity.
  - intros cached -> Hage.
    destruct (Z.ltb_spec (now - timestamp cached) SUMMARY_CACHE_TTL);
      [lia|reflexivity].
  - intros ->. reflexivity.
Qed.

Lemma expired_read_is_miss_witness :
  CacheManager.textNodeCache expired_nodes !! "key1"
  = Some {| CacheManager.nodes := [7%nat];
            CacheManager.nodes_timestamp := 1000 |}
  /\ CacheManager.cacheValidityDuration <= 32000 - 1000
  /\ CacheManager.getCachedTextNodes 32000 "key1" expired_nodes
     = (None, expired_nodes).
Proof.
  assert (Hlook : CacheManager.textNodeCache expired_nodes !! "key1"
                  = Some {| CacheManager.nodes := [7%nat];
                            CacheManager.nodes_timestamp := 1000 |})
    by (vm_compute; reflexivity).
  assert (Hage : CacheManager.cacheValidityDuration <= 32000 - 1000)
    by (unfold CacheManager.cacheValidityDuration; lia).
  split; [exact Hlook|]. split; [exact Hage|].
  exact (proj1 (expired_read_is_miss expired_nodes expired_storage 32000 "key1")
           _ Hlook Hage).
Defined.

(** ** The summary cache key *)

Lemma served_for_other {node : Type} (cm : CacheManager.t node)
    (h1 h2 : ai_highlight) (s : string) (t now : Z) :
  CacheManager.generateSummaryCacheKey h1 = CacheManager.generateSummaryCacheKey h2 ->
  now - t < 300000 ->
  (CacheManager.getCachedSummary now (CacheManager.generateSummaryCacheKey h2)
     (CacheManager.cacheSummary t (CacheManager.generateSummaryCacheKey h1) s cm).2).1
  = Some s.
Proof.
  intros <- Hfresh.
  unfold CacheManager.getCachedSummary, CacheManager.cacheSummary, gets, modify.
  simpl. rewrite lookup_insert_eq. simpl.
  destruct (Z.ltb_spec (now - t) 300000); [reflexivity|lia].
Qed.


(** ** The storage lock *)

Section StorageLock.
Import EventLoop.
Local Open Scope nat_scope.

Lemma omap_all_None {A B} (f : A -> option B) (l : list A) :
  (forall j x, l !! j = Some x -> f x = None) -> omap f l = [].
Proof.
  induction l as [|x l IH]; intros H; [reflexivity|].
  simpl. rewrite (H 0 x eq_refl). apply IH.
  intros j y Hj. apply (H (S j) y). exact Hj.
Qed.

Lemma serial_app fns1 fns2 w :
  serial (fns1 ++ fns2) w = serial fns2 (serial fns1 w).
Proof. apply fold_left_app. Qed.

Lemma chain_start a : chain (start a) 0.
Proof.
  split; simpl; try lia; try reflexivity.
  - intros m. rewrite elem_of_singleton. lia.
  - intros j t Hj. discriminate.
Qed.

Lemma chain_settled_prefix s p :
  chain s p -> omap remaining (take p (tasks s)) = [].
Proof.
  intros Hc. apply omap_all_None. intros j t Hj.
  apply lookup_take_Some in Hj as [Hj Hlt].
  pose proof (chain_tasks s p Hc j t Hj) as Ht.
  destruct t; simpl; [lia|lia|reflexivity].
Qed.

(** The unsettled calls, seen from the head of the chain. *)
Lemma pending_at_head s p t :
  chain s p -> tasks s !! p = Some t ->
  forall t',
    omap remaining (<[p := t']> (tasks s))
    = from_option (fun op => [op]) [] (remaining t')
      ++ omap remaining (drop (S p) (tasks s)).
Proof.
  intros Hc Hp t'. rewrite insert_take_drop by (eapply lookup_lt_Some; eauto).
  rewrite omap_app, (chain_settled_prefix s p Hc). simpl.
  destruct (remaining t'); reflexivity.
Qed.

Lemma pending_head s p t :
  chain s p -> tasks s !! p = Some t ->
  pending s = from_option (fun op => [op]) [] (remaining t)
              ++ omap remaining (drop (S p) (tasks s)).
Proof.
  intros Hc Hp. unfold pending.
  rewrite <- (pending_at_head s p t Hc Hp t).
  now rewrite list_insert_id.
Qed.

Lemma chain_ext s s' p :
  resolved s' = resolved s -> tasks s' = tasks s ->
  _storageLock s' = _storageLock s -> promises s' = promises s ->
  chain s p -> chain s' p.
Proof.
  intros Hr Ht Hl Hp [H1 H2 H3 H4 H5].
  split; rewrite ?Hr, ?Ht, ?Hl, ?Hp; assumption.
Qed.

Lemma chain_invoke fn s p : chain s p -> chain (_withStorageLock fn s) p.
Proof.
  intros [H1 H2 H3 H4 H5]. split; simpl.
  - exact H1.
  - intros j t Hj.
    apply lookup_app_Some in Hj as [Hj|[Hlen Hj]]; [exact (H2 j t Hj)|].
    revert Hj. destruct (j - length (tasks s)) as [|[|n]] eqn:Hd;
      intros Hj; try discriminate.
    simpl in Hj. injection Hj as <-. rewrite H3, H4. lia.
  - rewrite length_app. simpl. lia.
  - rewrite length_app. simpl. lia.
  - rewrite length_app. lia.
Qed.

(** The head of the chain goes on: the chain stands as it was. *)
Lemma chain_head_runs s p t rest :
  chain s p -> tasks s !! p = Some t -> is_settled t = false ->
  chain (with_task p (Running (S p) rest) s) p.
Proof.
  intros [H1 H2 H3 H4 H5] Hp Hu. split; simpl; rewrite ?length_insert; auto.
  intros j t' Hj. destruct (decide (p = j)) as [<-|Hne].
  - rewrite list_lookup_insert_eq in Hj by (eapply lookup_lt_Some; eauto).
    injection Hj as <-. auto.
  - rewrite list_lookup_insert_ne in Hj by exact Hne.
    specialize (H2 j t' Hj). destruct t'; lia.
Qed.

(** The head of the chain is over: its lock is resolved and the next
    call is at the head. *)
Lemma chain_head_settles s p t result :
  chain s p -> tasks s !! p = Some t ->
  chain (settle p (S p) result s) (S p).
Proof.
  intros [H1 H2 H3 H4 H5] Hp. pose proof (lookup_lt_Some _ _ _ Hp) as Hlt.
  split; simpl; rewrite ?length_insert; auto.
  - intros m. rewrite elem_of_union, elem_of_singleton, H1. lia.
  - intros j t' Hj. destruct (decide (p = j)) as [<-|Hne].
    + rewrite list_lookup_insert_eq in Hj by exact Hlt.
      injection Hj as <-. lia.
    + rewrite list_lookup_insert_ne in Hj by exact Hne.
      specialize (H2 j t' Hj). destruct t'; lia.
Qed.

(** Only the head of the chain can go on. *)
Lemma advance_head s p i now s' :
  chain s p -> advance i now s = Some s' ->
  i = p /\ exists t, tasks s !! p = Some t /\ is_settled t = false
                     /\ match t with
                        | Queued _ release _ | Running release _ => release = S p
                        | Settled _ => False
                        end.
Proof.
  intros Hc Hadv. unfold advance in Hadv.
  destruct (tasks s !! i) as [t|] eqn:Hi; [|discriminate].
  pose proof (chain_tasks s p Hc i t Hi) as Ht.
  destruct t as [previous release fn|release op|r]; [| |discriminate].
  - destruct (decide (previous ∈ resolved s)) as [Hres|]; [|discriminate].
    apply (chain_resolved s p Hc) in Hres.
    assert (i = p) as -> by lia. split; [reflexivity|].
    eexists. split; [exact Hi|]. split; [reflexivity|]. lia.
  - destruct Ht as [-> ->]. split; [reflexivity|].
    eexists. split; [exact Hi|]. split; reflexivity.
Qed.

Lemma advance_chain s p i now s' :
  chain s p -> advance i now s = Some s' -> exists p', chain s' p'.
Proof.
  intros Hc Hadv.
  destruct (advance_head s p i now s' Hc Hadv) as (-> & t & Hp & Hu & Hrel).
  unfold advance in Hadv. rewrite Hp in Hadv.
  destruct t as [previous release fn|release op|r]; [| |discriminate]; subst release.
  - destruct (decide (previous ∈ resolved s)); [|discriminate].
    injection Hadv as <-. exists p. eapply chain_head_runs; eauto.
  - destruct op; injection Hadv as <-.
    + exists (S p). eapply chain_head_settles; eauto.
    + exists (S p). eapply chain_head_settles; eauto.
    + exists p. eapply chain_head_runs; eauto.
    + exists p.
      apply (chain_head_runs (with_area (set_highlights hs (area s)) s) p
               (Running (S p) (StorageSet hs op))); auto.
      eapply chain_ext; [..|exact Hc]; reflexivity.
    + exists p. eapply chain_head_runs; eauto.
    + exists p.
      apply (chain_head_runs (broadcast s) p
               (Running (S p) (NotifyTabs op))); auto.
      eapply chain_ext; [..|exact Hc]; reflexivity.
Qed.

Lemma step_chain e s p s' :
  chain s p -> step e s = Some s' -> exists p', chain s' p'.
Proof.
  intros Hc Hstep. destruct e as [[msg|fn]|i now]; simpl in Hstep.
  - injection Hstep as <-. eauto.
  - injection Hstep as <-. eauto using chain_invoke.
  - eauto using advance_chain.
Qed.

Lemma run_events_chain es s p s' :
  chain s p -> run_events es s = Some s' -> exists p', chain s' p'.
Proof.
  revert s p. induction es as [|e es IH]; intros s p Hc Hrun; simpl in Hrun.
  - injection Hrun as <-. eauto.
  - destruct (step e s) as [s1|] eqn:Hstep; [|discriminate].
    destruct (step_chain e s p s1 Hc Hstep) as [p1 Hc1]. eauto.
Qed.

(** A step of the head of the chain is a step of the serial run. *)
Lemma advance_serial s p i now s' rest clock' :
  chain s p -> advance i now s = Some s' ->
  exists clock,
    serial (pending s ++ rest) (world_of s clock)
    = serial (pending s' ++ rest) (world_of s' clock').
Proof.
  intros Hc Hadv.
  destruct (advance_head s p i now s' Hc Hadv) as (-> & t & Hp & Hu & Hrel).
  rewrite (pending_head s p t Hc Hp).
  unfold advance in Hadv. rewrite Hp in Hadv.
  destruct t as [previous release fn|release op|r]; [| |discriminate].
  - destruct (decide (previous ∈ resolved s)); [|discriminate].
    injection Hadv as <-. exists clock'. unfold pending. simpl tasks.
    rewrite (pending_at_head s p _ Hc Hp). reflexivity.
  - destruct op; injection Hadv as <-; unfold pending; simpl tasks;
      rewrite (pending_at_head s p _ Hc Hp).
    + exists clock'. reflexivity.
    + exists clock'. reflexivity.
    + exists clock'. reflexivity.
    + exists clock'. reflexivity.
    + exists (read_first now clock'). reflexivity.
    + exists clock'. reflexivity.
Qed.

Lemma pending_invoke fn s : pending (_withStorageLock fn s) = pending s ++ [fn].
Proof. unfold pending. simpl. now rewrite omap_app. Qed.

Lemma all_settled_pending s : all_settled s = true -> pending s = [].
Proof.
  unfold all_settled, pending. intros Hall. apply omap_all_None.
  intros j t Hj. rewrite forallb_forall in Hall.
  specialize (Hall t). destruct t; try reflexivity;
    (assert (false = true); [|discriminate]); apply Hall;
    apply list_elem_of_In; eapply list_elem_of_lookup_2; eauto.
Qed.

(** Whatever the order in which the bodies go on, the outcome is that
    of the bodies still to run, run one after the other in the order
    of their calls. *)
Lemma run_events_serial es s p s' clock' :
  chain s p -> run_events es s = Some s' ->
  exists clock,
    serial (pending s ++ bodies es) (world_of s clock)
    = serial (pending s') (world_of s' clock').
Proof.
  revert s p. induction es as [|e es IH]; intros s p Hc Hrun; simpl in Hrun.
  - injection Hrun as <-. exists clock'. unfold bodies. simpl.
    now rewrite app_nil_r.
  - destruct (step e s) as [s1|] eqn:Hstep; [|discriminate].
    destruct (step_chain e s p s1 Hc Hstep) as [p1 Hc1].
    destruct (IH s1 p1 Hc1 Hrun) as [clock1 IH1].
    destruct e as [[msg|fn]|i now]; simpl in Hstep.
    + injection Hstep as <-. exists clock1. exact IH1.
    + injection Hstep as <-. exists clock1. rewrite <- IH1.
      rewrite pending_invoke, <- app_assoc. reflexivity.
    + destruct (advance_serial s p i now s1 (bodies es) clock1 Hc Hstep)
        as [clock Hclock].
      exists clock. unfold bodies in *. simpl invoked.
      rewrite Hclock. exact IH1.
Qed.

Lemma run_events_app es1 es2 s :
  run_events (es1 ++ es2) s
  = match run_events es1 s with
    | Some s1 => run_events es2 s1
    | None => None
    end.
Proof.
  revert s. induction es1 as [|e es1 IH]; intros s; simpl; [reflexivity|].
  destruct (step e s); [apply IH|reflexivity].
Qed.

Lemma invoked_app es1 es2 : invoked (es1 ++ es2) = invoked es1 ++ invoked es2.
Proof.
  induction es1 as [|[c|i now] es1 IH]; simpl; [reflexivity| |exact IH].
  now rewrite IH.
Qed.

(** A body that has started comes to its end: it has finitely many
    effects, and each of them can take place. *)
Lemma run_to_settled op :
  forall s i release,
    tasks s !! i = Some (Running release op) ->
    exists es s' result,
      invoked es = [] /\ run_events es s = Some s'
      /\ tasks s' = <[i := Settled result]> (tasks s).
Proof.
  induction op as [v|msg|k IH|hs k IH|k IH|k IH]; intros s i release Hi;
    pose proof (lookup_lt_Some _ _ _ Hi) as Hlt.
  - exists [Advance i 0%Z], (settle i release (inr v) s), (inr v).
    simpl. unfold advance. rewrite Hi. auto.
  - exists [Advance i 0%Z], (settle i release (inl msg) s), (inl msg).
    simpl. unfold advance. rewrite Hi. auto.
  - destruct (IH (highlights (area s))
                (with_task i (Running release (k (highlights (area s)))) s)
                i release) as (es & s' & r & Hinv & Hrun & Htasks).
    { simpl. now apply list_lookup_insert_eq. }
    exists (Advance i 0%Z :: es), s', r. simpl. unfold advance. rewrite Hi.
    split; [exact Hinv|]. split; [exact Hrun|].
    rewrite Htasks. simpl. apply list_insert_insert_eq.
  - destruct (IH (with_task i (Running release k)
                    (with_area (set_highlights hs (area s)) s))
                i release) as (es & s' & r & Hinv & Hrun & Htasks).
    { simpl. now apply list_lookup_insert_eq. }
    exists (Advance i 0%Z :: es), s', r. simpl. unfold advance. rewrite Hi.
    split; [exact Hinv|]. split; [exact Hrun|].
    rewrite Htasks. simpl. apply list_insert_insert_eq.
  - destruct (IH 0%Z (with_task i (Running release (k 0%Z)) s) i release)
      as (es & s' & r & Hinv & Hrun & Htasks).
    { simpl. now apply list_lookup_insert_eq. }
    exists (Advance i 0%Z :: es), s', r. simpl. unfold advance. rewrite Hi.
    split; [exact Hinv|]. split; [exact Hrun|].
    rewrite Htasks. simpl. apply list_insert_insert_eq.
  - destruct (IH (with_task i (Running release k) (broadcast s)) i release)
      as (es & s' & r & Hinv & Hrun & Htasks).
    { simpl. now apply list_lookup_insert_eq. }
    exists (Advance i 0%Z :: es), s', r. simpl. unfold advance. rewrite Hi.
    split; [exact Hinv|]. split; [exact Hrun|].
    rewrite Htasks. simpl. apply list_insert_insert_eq.
Qed.

Lemma pending_nil_all_settled s : pending s = [] -> all_settled s = true.
Proof.
  unfold pending, all_settled. induction (tasks s) as [|t l IH]; [reflexivity|].
  simpl. destruct t; simpl; try discriminate. exact IH.
Qed.

Lemma chain_head_exists s p :
  chain s p -> pending s <> [] ->
  exists t, tasks s !! p = Some t /\ is_settled t = false.
Proof.
  intros Hc Hne.
  destruct (tasks s !! p) as [t|] eqn:Hp.
  - exists t. split; [reflexivity|].
    pose proof (chain_tasks s p Hc p t Hp) as Ht. destruct t; try reflexivity. lia.
  - exfalso. apply Hne. unfold pending.
    rewrite <- (take_drop p (tasks s)), omap_app, (chain_settled_prefix s p Hc).
    apply lookup_ge_None in Hp. rewrite drop_ge by exact Hp. reflexivity.
Qed.

(** Every call that was made comes to its end. *)
Lemma run_events_complete n :
  forall s p, chain s p -> length (pending s) = n ->
  exists es s',
    invoked es = [] /\ run_events es s = Some s' /\ all_settled s' = true.
Proof.
  induction n as [|n IH]; intros s p Hc Hn.
  - exists [], s. repeat split. apply pending_nil_all_settled.
    now destruct (pending s).
  - destruct (chain_head_exists s p Hc) as (t & Hp & Hu);
      [intros Hnil; rewrite Hnil in Hn; discriminate|].
    pose proof (lookup_lt_Some _ _ _ Hp) as Hlt.
    pose proof (chain_tasks s p Hc p t Hp) as Ht.
    assert (exists es1 s1 release op,
               invoked es1 = [] /\ run_events es1 s = Some s1
               /\ tasks s1 = <[p := Running release op]> (tasks s))
      as (es1 & s1 & release & op & Hinv1 & Hrun1 & Htasks1).
    { destruct t as [previous rel fn|rel op|r]; [| |discriminate].
      - exists [Advance p 0%Z], (with_task p (Running rel fn) s), rel, fn.
        simpl. unfold advance. rewrite Hp.
        destruct (decide (previous ∈ resolved s)) as [|Hno]; [auto|].
        exfalso. apply Hno. apply (chain_resolved s p Hc). lia.
      - exists [], s, rel, op. simpl. repeat split.
        now rewrite list_insert_id. }
    destruct (run_to_settled op s1 p release)
      as (es2 & s2 & r & Hinv2 & Hrun2 & Htasks2).
    { rewrite Htasks1. now apply list_lookup_insert_eq. }
    assert (Hrun12 : run_events (es1 ++ es2) s = Some s2)
      by (rewrite run_events_app, Hrun1; exact Hrun2).
    destruct (run_events_chain _ _ _ _ Hc Hrun12) as [p2 Hc2].
    destruct (IH s2 p2 Hc2) as (es3 & s3 & Hinv3 & Hrun3 & Hall).
    { unfold pending. rewrite Htasks2, Htasks1, list_insert_insert_eq.
      rewrite (pending_at_head s p t Hc Hp). simpl.
      rewrite (pending_head s p t Hc Hp) in Hn.
      destruct t; try discriminate; simpl in Hn; lia. }
    exists ((es1 ++ es2) ++ es3), s3.
    rewrite !invoked_app, Hinv1, Hinv2, Hinv3, run_events_app, Hrun12.
    auto.
Qed.

Lemma two_saves_serial a b w :
  saveable a -> saveable b ->
  exists ta tb,
    getHighlights
      (store (serial (omap body [saveHighlight a; saveHighlight b]) w))
    = stamped b tb :: stamped a ta :: firstn 998 (getHighlights (store w)).
Proof.
  intros Ha Hb.
  destruct (saveHighlight_accepts a Ha) as (fa & -> & Hfa).
  destruct (saveHighlight_accepts b Hb) as (fb & -> & Hfb).
  eexists _, _. simpl. unfold serial. simpl. rewrite Hfa. simpl. rewrite Hfb.
  simpl. unfold getHighlights. simpl. rewrite !cap_cons. simpl.
  f_equal. f_equal. rewrite firstn_firstn. reflexivity.
Qed.

(** C2. The storage lock. Each mutating request on the highlight list
    (save, delete, clear, import) either is refused before it touches
    the storage area or hands its read-modify-write body to
    [_withStorageLock]. Whatever the order in which the bodies take
    their steps, a run in which all calls come to their end leaves the
    storage area as the bodies leave it when they run one after the
    other, each in one piece, in the order of the calls. In particular,
    after [save(a)] and [save(b)], called in this order with their work
    in flight together, the stored list starts with [b] and [a]: no
    update is lost. And every run can be carried on until all calls have
    come to their end. *)
Theorem storage_lock_serializes :
  (forall (r : request) (s : service),
      step (Invoke (handleMessage r)) s = Some s
      \/ exists fn, handleMessage r = WithStorageLock fn
                    /\ step (Invoke (handleMessage r)) s
                       = Some (_withStorageLock fn s))
  /\ (forall (a : storage) (es : list event) (s' : service),
      run_events es (start a) = Some s' ->
      all_settled s' = true ->
      exists clock,
        let w := serial (bodies es)
                   {| store := a; clock := clock; notified := 0 |} in
        area s' = store w /\ broadcasts s' = notified w)
  /\ (forall (a b : value) (st : storage) (es : list event) (s' : service),
        saveable a -> saveable b ->
        invoked es = [saveHighlight a; saveHighlight b] ->
        run_events es (start st) = Some s' ->
        all_settled s' = true ->
        exists ta tb,
          getHighlights (area s')
          = stamped b tb :: stamped a ta :: firstn 998 (getHighlights st)
          /\ In (stamped a ta) (getHighlights (area s'))
          /\ In (stamped b tb) (getHighlights (area s')))
  /\ (forall (st : storage) (es : list event) (s : service),
        run_events es (start st) = Some s ->
        exists es' s',
          invoked es' = [] /\ run_events es' s = Some s'
          /\ all_settled s' = true).
Proof.
  assert (Hsafe : forall a es s',
             run_events es (start a) = Some s' -> all_settled s' = true ->
             exists clock,
               serial (bodies es) {| store := a; clock := clock; notified := 0 |}
               = world_of s' (fun _ => 0%Z)).
  { intros a es s' Hrun Hall.
    destruct (run_events_serial es (start a) 0 s' (fun _ => 0%Z)
                (chain_start a) Hrun) as [clock Hclock].
    rewrite (all_settled_pending s' Hall) in Hclock. simpl in Hclock.
    exists clock. exact Hclock. }
  split; [|split; [|split]].
  - intros r s. destruct (handleMessage r) as [msg|fn]; simpl; eauto.
  - intros a es s' Hrun Hall.
    destruct (Hsafe a es s' Hrun Hall) as [clock Hclock].
    exists clock. simpl. rewrite Hclock. split; reflexivity.
  - intros a b st es s' Ha Hb Hinv Hrun Hall.
    destruct (Hsafe st es s' Hrun Hall) as [clock Hclock].
    destruct (two_saves_serial a b {| store := st; clock := clock; notified := 0 |}
                Ha Hb) as (ta & tb & Hlist).
    unfold bodies in Hclock. rewrite Hinv in Hclock. rewrite Hclock in Hlist.
    simpl in Hlist. exists ta, tb. rewrite Hlist.
    split; [reflexivity|]. simpl. auto.
  - intros st es s Hrun.
    destruct (run_events_chain es (start st) 0 s (chain_start st) Hrun) as [p Hc].
    exact (run_events_complete (length (pending s)) s p Hc eq_refl).
Qed.

Lemma storage_lock_serializes_witness :
  saveable example_h1 /\ saveable example_h2
  /\ invoked overlapping_saves
     = [saveHighlight example_h1; saveHighlight example_h2]
  /\ run_events overlapping_saves (start empty_area)
     = Some after_overlapping_saves
  /\ all_settled after_overlapping_saves = true
  /\ exists ta tb,
       getHighlights (area after_overlapping_saves)
       = stamped example_h2 tb :: stamped example_h1 ta
         :: firstn 998 (getHighlights empty_area)
       /\ In (stamped example_h1 ta) (getHighlights (area after_overlapping_saves))
       /\ In (stamped example_h2 tb) (getHighlights (area after_overlapping_saves)).
Proof.
  assert (H1 : saveable example_h1) by (repeat split; reflexivity).
  assert (H2 : saveable example_h2) by (repeat split; reflexivity).
  assert (Hinv : invoked overlapping_saves
                 = [saveHighlight example_h1; saveHighlight example_h2])
    by reflexivity.
  assert (Hrun : run_events overlapping_saves (start empty_area)
                 = Some after_overlapping_saves) by (vm_compute; reflexivity).
  assert (Hall : all_settled after_overlapping_saves = true)
    by (vm_compute; reflexivity).
  repeat (split; [assumption|]).
  exact (proj1 (proj2 (proj2 storage_lock_serializes)) example_h1 example_h2
           empty_area overlapping_saves after_overlapping_saves
           H1 H2 Hinv Hrun Hall).
Defined.

Example lost_update_without_lock :
  (getHighlights ∘ area) <$>
    run_events [Advance 0 1%Z; Advance 1 1%Z; Advance 0 2%Z; Advance 1 2%Z]
      started_at_once
  = Some [example_h2].
Proof. vm_compute. reflexivity. Qed.

Example started_at_once_not_chained p : ~ chain started_at_once p.
Proof.
  intros Hc. pose proof (chain_tasks _ _ Hc 0 _ eq_refl) as H0.
  pose proof (chain_tasks _ _ Hc 1 _ eq_refl) as H1.
  simpl in *. lia.
Qed.
End StorageLock.

(** ** Summaries in flight *)

Section InFlight.
Import AIUtils.
Local Open Scope nat_scope.

Lemma summarize_hit now h pg :
  ~ cache_miss pg now (CacheManager.generateSummaryCacheKey h) ->
  exists s, (CacheManager.getCachedSummary now
               (CacheManager.generateSummaryCacheKey h) (cacheManager pg)).1 = Some s
            /\ step (Summarize now h) pg = Some (add_caller (Returned s) pg).
Proof.
  unfold cache_miss, step, summarizeHighlight, mbind, State_bind, on_cacheManager.
  destruct (CacheManager.getCachedSummary now _ (cacheManager pg)) as [[[|c s]|] cm]
    eqn:Hget; simpl; try tauto.
  intros _. exists (String c s). split; [reflexivity|].
  unfold CacheManager.getCachedSummary, gets in Hget. injection Hget as _ <-.
  reflexivity.
Qed.

Lemma summarize_shared now h pg p :
  cache_miss pg now (CacheManager.generateSummaryCacheKey h) ->
  registered pg (CacheManager.generateSummaryCacheKey h) = Some p ->
  step (Summarize now h) pg = Some (add_caller (AwaitsShared p) pg).
Proof.
  unfold cache_miss, registered, step, summarizeHighlight, mbind, State_bind,
    on_cacheManager.
  destruct (CacheManager.getCachedSummary now _ (cacheManager pg)) as [[[|c s]|] cm]
    eqn:Hget; simpl; try tauto; intros _ Hreg;
    unfold CacheManager.getCachedSummary, gets in Hget; injection Hget as _ <-;
    unfold CacheManager.getApiRequestPromise, gets; simpl; rewrite Hreg;
    reflexivity.
Qed.

Lemma summarize_new now h pg :
  cache_miss pg now (CacheManager.generateSummaryCacheKey h) ->
  registered pg (CacheManager.generateSummaryCacheKey h) = None ->
  step (Summarize now h) pg = Some (with_new_request h pg).
Proof.
  unfold cache_miss, registered, step, summarizeHighlight, mbind, State_bind,
    on_cacheManager.
  destruct (CacheManager.getCachedSummary now _ (cacheManager pg)) as [[[|c s]|] cm]
    eqn:Hget; simpl; try tauto; intros _ Hreg;
    unfold CacheManager.getCachedSummary, gets in Hget; injection Hget as _ <-;
    unfold CacheManager.getApiRequestPromise, gets; simpl; rewrite Hreg;
    reflexivity.
Qed.

Lemma cache_miss_dec pg now k : cache_miss pg now k \/ ~ cache_miss pg now k.
Proof.
  unfold cache_miss.
  destruct (CacheManager.getCachedSummary now k (cacheManager pg)).1 as [[|]|];
    tauto.
Qed.

(** An entry that has nothing to give stays so as time goes on. *)
Lemma cache_miss_later pg now now' k :
  (now <= now')%Z -> cache_miss pg now k -> cache_miss pg now' k.
Proof.
  unfold cache_miss, CacheManager.getCachedSummary, gets. simpl. intros Hle.
  destruct (CacheManager.summaryCache (cacheManager pg) !! k) as [cached|];
    [|tauto].
  destruct (Z.ltb_spec (now - timestamp cached) 300000),
           (Z.ltb_spec (now' - timestamp cached) 300000); try tauto; lia.
Qed.

Lemma cache_miss_same_cache pg pg' now k :
  CacheManager.summaryCache (cacheManager pg') !! k
  = CacheManager.summaryCache (cacheManager pg) !! k ->
  cache_miss pg now k -> cache_miss pg' now k.
Proof.
  unfold cache_miss, CacheManager.getCachedSummary, gets. simpl.
  now intros ->.
Qed.

Lemma registry_inv_start : registry_inv start.
Proof. split; intros *; simpl; discriminate. Qed.

Lemma registry_inv_add_caller c pg :
  (forall p k, c <> AwaitsOwn p k) ->
  registry_inv pg -> registry_inv (add_caller c pg).
Proof.
  intros Hc [Hreg Hown Huniq]. split; simpl.
  - exact Hreg.
  - intros i p k Hi. apply lookup_snoc_Some in Hi as [[_ Hi]|[_ Hi]]; [eauto|].
    now apply Hc in Hi.
  - intros i j p k k' Hi Hj.
    apply lookup_snoc_Some in Hi as [[_ Hi]|[_ Hi]]; [|now apply Hc in Hi].
    apply lookup_snoc_Some in Hj as [[_ Hj]|[_ Hj]]; [|now apply Hc in Hj].
    eauto.
Qed.

Lemma registry_inv_new_request h pg :
  registered pg (CacheManager.generateSummaryCacheKey h) = None ->
  registry_inv pg -> registry_inv (with_new_request h pg).
Proof.
  set (key := CacheManager.generateSummaryCacheKey h).
  intros Hfree [Hreg Hown Huniq]. unfold registered in *.
  split; unfold registered, with_new_request; fold key; simpl.
  - intros p r Hp Hpending.
    apply lookup_snoc_Some in Hp as [[_ Hp]|[-> <-]].
    + specialize (Hreg p r Hp Hpending).
      rewrite lookup_insert_ne; [exact Hreg|]. intros Heq.
      rewrite <- Heq, Hfree in Hreg. discriminate.
    + simpl. apply lookup_insert_eq.
  - intros i p k Hi. rewrite length_app. simpl.
    apply lookup_snoc_Some in Hi as [[_ Hi]|[_ Hi]].
    + destruct (Hown i p k Hi) as [Hk Hlt]. split; [|lia].
      rewrite lookup_insert_ne; [exact Hk|]. intros Heq.
      rewrite <- Heq, Hfree in Hk. discriminate.
    + injection Hi as <- <-. split; [apply lookup_insert_eq|lia].
  - intros i j p k k' Hi Hj.
    apply lookup_snoc_Some in Hi as [[Hilt Hi]|[-> Hi]];
      apply lookup_snoc_Some in Hj as [[Hjlt Hj]|[-> Hj]].
    + eauto.
    + injection Hj as <- <-. apply Hown in Hi. lia.
    + injection Hi as <- <-. apply Hown in Hj. lia.
    + reflexivity.
Qed.

Lemma registry_inv_respond p a pg pg' :
  registry_inv pg -> respond p a pg = Some pg' -> registry_inv pg'.
Proof.
  intros [Hreg Hown Huniq]. unfold respond.
  destruct (requests pg !! p) as [r|] eqn:Hp; [|discriminate].
  destruct (answer r) eqn:Hr; [discriminate|]. intros [= <-].
  split; unfold registered in *; simpl.
  - intros p' r' Hp' Hpending.
    apply list_lookup_insert_Some in Hp' as [(-> & <- & _)|[_ Hp']];
      [discriminate|eauto].
  - intros i p' k Hi. rewrite length_insert. eauto.
  - exact Huniq.
Qed.

Lemma registry_inv_with_caller i c (pg : page) :
  (forall p k, c <> AwaitsOwn p k) ->
  registry_inv pg ->
  registry_inv {| cacheManager := cacheManager pg; requests := requests pg;
                  callers := <[i := c]> (callers pg) |}.
Proof.
  intros Hc [Hreg Hown Huniq]. split; unfold registered in *; simpl.
  - exact Hreg.
  - intros j p k Hj.
    apply list_lookup_insert_Some in Hj as [(_ & Hj & _)|[_ Hj]];
      [now apply Hc in Hj|eauto].
  - intros j1 j2 p k k' H1 H2.
    apply list_lookup_insert_Some in H1 as [(_ & H1 & _)|[_ H1]];
      [now apply Hc in H1|].
    apply list_lookup_insert_Some in H2 as [(_ & H2 & _)|[_ H2]];
      [now apply Hc in H2|eauto].
Qed.

Lemma registry_inv_owner_done i p k c summaries pg :
  (forall p k, c <> AwaitsOwn p k) ->
  callers pg !! i = Some (AwaitsOwn p k) ->
  is_Some (settled_answer pg p) ->
  registry_inv pg -> registry_inv (owner_done i k c summaries pg).
Proof.
  intros Hc Hi [a Ha] [Hreg Hown Huniq].
  destruct (Hown i p k Hi) as [Hk _]. unfold registered in *.
  split; unfold registered; simpl.
  - intros p' r' Hp' Hpending. specialize (Hreg p' r' Hp' Hpending).
    rewrite lookup_delete_ne; [exact Hreg|]. intros Heq.
    rewrite <- Heq, Hk in Hreg. injection Hreg as <-.
    unfold settled_answer in Ha. rewrite Hp' in Ha. simpl in Ha. congruence.
  - intros j p' k' Hj.
    apply list_lookup_insert_Some in Hj as [(_ & Hj & _)|[Hne Hj]];
      [now apply Hc in Hj|].
    destruct (Hown j p' k' Hj) as [Hk' Hlt]. split; [|exact Hlt].
    rewrite lookup_delete_ne; [exact Hk'|]. intros Heq. subst k'.
    rewrite Hk in Hk'. injection Hk' as <-. apply Hne. eauto.
  - intros j1 j2 p' k1 k2 H1 H2.
    apply list_lookup_insert_Some in H1 as [(_ & H1 & _)|[_ H1]];
      [now apply Hc in H1|].
    apply list_lookup_insert_Some in H2 as [(_ & H2 & _)|[_ H2]];
      [now apply Hc in H2|eauto].
Qed.

(** The shapes a resumed page can have. *)
Lemma resume_cases i now pg pg' :
  resume i now pg = Some pg' ->
  (exists p a,
      callers pg !! i = Some (AwaitsShared p) /\ settled_answer pg p = Some a
      /\ pg' = {| cacheManager := cacheManager pg; requests := requests pg;
                  callers := <[i := outcome_of a]> (callers pg) |})
  \/ (exists p k a,
         callers pg !! i = Some (AwaitsOwn p k) /\ settled_answer pg p = Some a
         /\ pg' = owner_done i k (outcome_of a)
                    (match a with
                     | Fulfilled s =>
                         <[k := {| summary := s; timestamp := now |}]>
                           (CacheManager.summaryCache (cacheManager pg))
                     | Rejected _ => CacheManager.summaryCache (cacheManager pg)
                     end) pg).
Proof.
  unfold resume. destruct (callers pg !! i) as [[p k|p|s|e]|] eqn:Hi;
    try discriminate.
  - destruct (settled_answer pg p) as [[s|e]|] eqn:Ha; [| |discriminate];
      intros [= <-]; right; exists p, k; eexists; (split; [reflexivity|]);
      (split; [exact Ha|]); reflexivity.
  - destruct (settled_answer pg p) as [[s|e]|] eqn:Ha; [| |discriminate];
      intros [= <-]; left; exists p; eexists; (split; [reflexivity|]);
      (split; [exact Ha|]); reflexivity.
Qed.

Lemma outcome_of_not_owner a p k : outcome_of a <> AwaitsOwn p k.
Proof. destruct a; discriminate. Qed.

Lemma registry_inv_resume i now pg pg' :
  registry_inv pg -> resume i now pg = Some pg' -> registry_inv pg'.
Proof.
  intros Hinv Hres.
  apply resume_cases in Hres as [(p & a & Hi & Ha & ->)|(p & k & a & Hi & Ha & ->)].
  - apply registry_inv_with_caller; [|exact Hinv].
    intros; apply outcome_of_not_owner.
  - eapply registry_inv_owner_done; eauto. intros; apply outcome_of_not_owner.
Qed.

Lemma registry_inv_sweep nodeKeys summaryKeys pg :
  registry_inv pg -> registry_inv (sweep nodeKeys summaryKeys pg).
Proof. intros [Hreg Hown Huniq]. split; assumption. Qed.

Lemma at_rest_spec pg :
  at_rest pg = true ->
  (forall p r, requests pg !! p = Some r -> answer r <> None)
  /\ (forall i p k, callers pg !! i <> Some (AwaitsOwn p k)).
Proof.
  unfold at_rest. intros [Hrs Hcs]%andb_true_iff.
  rewrite forallb_forall in Hrs. rewrite forallb_forall in Hcs. split.
  - intros p r Hp Hr. apply list_elem_of_lookup_2, list_elem_of_In in Hp.
    specialize (Hrs r Hp). rewrite Hr in Hrs. discriminate.
  - intros i p k Hi. apply list_elem_of_lookup_2, list_elem_of_In in Hi.
    specialize (Hcs _ Hi). discriminate.
Qed.

(** A [cleanup()] while nothing is in flight leaves nothing to keep
    track of. *)
Lemma registry_inv_cleanup pg :
  at_rest pg = true -> registry_inv (on_cacheManager cleanup pg).2.
Proof.
  intros [Hrs Hcs]%at_rest_spec. split; simpl.
  - intros p r Hp Hr. destruct (Hrs p r Hp Hr).
  - intros i p k Hi. destruct (Hcs i p k Hi).
  - intros i j p k k' Hi. destruct (Hcs i p k Hi).
Qed.

Lemma stale_cleanup t pg :
  at_rest pg = true -> stale_while_pending t (on_cacheManager cleanup pg).2.
Proof.
  intros [Hrs _]%at_rest_spec p r now Hp Hr. destruct (Hrs p r Hp Hr).
Qed.

Lemma registry_inv_step e pg pg' :
  match e with Cleanup => at_rest pg = true | _ => True end ->
  registry_inv pg -> step e pg = Some pg' -> registry_inv pg'.
Proof.
  intros Hrest Hinv. destruct e as [now h|p a|i now|nodeKeys summaryKeys|];
    [| | |intros [= <-]; now apply registry_inv_sweep
     |intros [= <-]; now apply registry_inv_cleanup].
  - destruct (cache_miss_dec pg now (CacheManager.generateSummaryCacheKey h))
      as [Hmiss|Hhit].
    + destruct (registered pg (CacheManager.generateSummaryCacheKey h)) as [p|]
        eqn:Hreg.
      * rewrite (summarize_shared now h pg p Hmiss Hreg). intros [= <-].
        apply registry_inv_add_caller; [discriminate|exact Hinv].
      * rewrite (summarize_new now h pg Hmiss Hreg). intros [= <-].
        now apply registry_inv_new_request.
    + destruct (summarize_hit now h pg Hhit) as (s & _ & ->). intros [= <-].
      apply registry_inv_add_caller; [discriminate|exact Hinv].
  - apply registry_inv_respond. exact Hinv.
  - apply registry_inv_resume. exact Hinv.
Qed.

Lemma stale_later t t' pg :
  (t <= t')%Z -> stale_while_pending t pg -> stale_while_pending t' pg.
Proof. intros Hle Hst p r now Hp Hr Hnow. apply (Hst p r now Hp Hr). lia. Qed.

Lemma stale_new_request now h pg :
  cache_miss pg now (CacheManager.generateSummaryCacheKey h) ->
  stale_while_pending now pg -> stale_while_pending now (with_new_request h pg).
Proof.
  intros Hmiss Hst p r now' Hp Hr Hnow. unfold with_new_request in Hp. simpl in Hp.
  apply lookup_snoc_Some in Hp as [[_ Hp]|[_ <-]].
  - apply (cache_miss_same_cache pg); [reflexivity|]. eauto.
  - simpl. apply (cache_miss_same_cache pg); [reflexivity|].
    eapply cache_miss_later; eauto.
Qed.

Lemma stale_respond t p a pg pg' :
  stale_while_pending t pg -> respond p a pg = Some pg' ->
  stale_while_pending t pg'.
Proof.
  intros Hst. unfold respond.
  destruct (requests pg !! p) as [r|] eqn:Hp; [|discriminate].
  destruct (answer r) eqn:Hr; [discriminate|]. intros [= <-].
  intros p' r' now Hp' Hr' Hnow. simpl in Hp'.
  apply list_lookup_insert_Some in Hp' as [(-> & <- & _)|[_ Hp']];
    [discriminate|].
  apply (cache_miss_same_cache pg); [reflexivity|]. eauto.
Qed.

Lemma stale_resume t i now pg pg' :
  registry_inv pg -> stale_while_pending t pg -> resume i now pg = Some pg' ->
  stale_while_pending t pg'.
Proof.
  intros [Hreg Hown Huniq] Hst Hres.
  apply resume_cases in Hres as [(p & a & Hi & Ha & ->)|(p & k & a & Hi & Ha & ->)].
  - intros p' r' now' Hp' Hr' Hnow.
    apply (cache_miss_same_cache pg); [reflexivity|]. eauto.
  - intros p' r' now' Hp' Hr' Hnow. simpl in Hp'.
    assert (Hne : k <> request_key r').
    { intros ->. specialize (Hreg p' r' Hp' Hr').
      destruct (Hown i p _ Hi) as [Hk _]. rewrite Hk in Hreg.
      injection Hreg as ->. unfold settled_answer in Ha. rewrite Hp' in Ha.
      simpl in Ha. congruence. }
    apply (cache_miss_same_cache pg); [|eauto]. simpl.
    destruct a; [apply lookup_insert_ne; exact Hne|reflexivity].
Qed.

(** An entry that is gone gives nothing. *)
Lemma cache_miss_fewer pg pg' now k :
  (forall cached,
      CacheManager.summaryCache (cacheManager pg') !! k = Some cached ->
      CacheManager.summaryCache (cacheManager pg) !! k = Some cached) ->
  cache_miss pg now k -> cache_miss pg' now k.
Proof.
  unfold cache_miss, CacheManager.getCachedSummary, gets. simpl. intros Hsub.
  destruct (CacheManager.summaryCache (cacheManager pg') !! k) as [cached|];
    [|tauto].
  now rewrite (Hsub cached eq_refl).
Qed.

Lemma stale_sweep t nodeKeys summaryKeys pg :
  stale_while_pending t pg -> stale_while_pending t (sweep nodeKeys summaryKeys pg).
Proof.
  intros Hst p r now Hp Hr Hnow. apply (cache_miss_fewer pg); [|eauto].
  intros cached Hcached. simpl in Hcached.
  now apply map_lookup_filter_Some in Hcached as [Hcached _].
Qed.

Lemma run_events_registry es :
  forall pg t pg',
    registry_inv pg -> stale_while_pending t pg -> timely t es ->
    cleanups_at_rest es pg ->
    run_events es pg = Some pg' ->
    registry_inv pg' /\ stale_while_pending (last_time t es) pg'.
Proof.
  induction es as [|e es IH]; intros pg t pg' Hinv Hst Htime Hrest Hrun;
    simpl in Hrun.
  - injection Hrun as <-. split; assumption.
  - destruct Hrest as [Hhere Hrest].
    destruct (step e pg) as [pg1|] eqn:Hstep; [|discriminate].
    pose proof (registry_inv_step e pg pg1 Hhere Hinv Hstep) as Hinv1.
    destruct e as [now h|p a|i now|nodeKeys summaryKeys|]; simpl in Htime |- *;
      [| | |injection Hstep as <-;
            apply (IH _ t pg' Hinv1); [|exact Htime|exact Hrest|exact Hrun];
            now apply stale_sweep
       |injection Hstep as <-;
        apply (IH _ t pg' Hinv1); [|exact Htime|exact Hrest|exact Hrun];
        now apply stale_cleanup].
    + destruct Htime as [Hle Htime].
      apply (IH pg1 now pg' Hinv1); [|exact Htime|exact Hrest|exact Hrun].
      apply (stale_later t now) in Hst; [|exact Hle].
      destruct (cache_miss_dec pg now (CacheManager.generateSummaryCacheKey h))
        as [Hmiss|Hhit].
      * destruct (registered pg (CacheManager.generateSummaryCacheKey h)) as [p|]
          eqn:Hreg.
        -- rewrite (summarize_shared now h pg p Hmiss Hreg) in Hstep.
           injection Hstep as <-. exact Hst.
        -- rewrite (summarize_new now h pg Hmiss Hreg) in Hstep.
           injection Hstep as <-. now apply stale_new_request.
      * destruct (summarize_hit now h pg Hhit) as (s & _ & Heq).
        rewrite Heq in Hstep. injection Hstep as <-. exact Hst.
    + apply (IH pg1 t pg' Hinv1); [|exact Htime|exact Hrest|exact Hrun].
      exact (stale_respond t p a pg pg1 Hst Hstep).
    + destruct Htime as [Hle Htime].
      apply (IH pg1 now pg' Hinv1); [|exact Htime|exact Hrest|exact Hrun].
      apply (stale_later t now); [exact Hle|].
      exact (stale_resume t i now pg pg1 Hinv Hst Hstep).
Qed.

Lemma lookup_snoc2_first {A} (l : list A) x y :
  (l ++ [x; y]) !! length l = Some x.
Proof. apply list_lookup_middle. reflexivity. Qed.

Lemma lookup_snoc2_second {A} (l : list A) x y :
  (l ++ [x; y]) !! S (length l) = Some y.
Proof.
  rewrite lookup_app_r by lia. replace (S (length l) - length l) with 1 by lia.
  reflexivity.
Qed.

Lemma insert_snoc2_first {A} (l : list A) x y z :
  <[length l := z]> (l ++ [x; y]) = l ++ [z; y].
Proof.
  rewrite insert_app_r_alt by lia. now rewrite Nat.sub_diag.
Qed.

Lemma insert_snoc2_second {A} (l : list A) x y z :
  <[S (length l) := z]> (l ++ [x; y]) = l ++ [x; z].
Proof.
  rewrite insert_app_r_alt by lia.
  replace (S (length l) - length l) with 1 by lia. reflexivity.
Qed.

Lemma lookup_snoc1 {A} (l : list A) x : (l ++ [x]) !! length l = Some x.
Proof. apply list_lookup_middle. reflexivity. Qed.

Lemma insert_snoc1 {A} (l : list A) x z : <[length l := z]> (l ++ [x]) = l ++ [z].
Proof. rewrite insert_app_r_alt by lia. now rewrite Nat.sub_diag. Qed.

Lemma two_calls_one_request pg h1 h2 t1 t2 :
  CacheManager.generateSummaryCacheKey h1 = CacheManager.generateSummaryCacheKey h2 ->
  (t1 <= t2)%Z ->
  cache_miss pg t1 (CacheManager.generateSummaryCacheKey h1) ->
  registered pg (CacheManager.generateSummaryCacheKey h1) = None ->
  run_events [Summarize t1 h1; Summarize t2 h2] pg = Some (two_waiting h1 pg).
Proof.
  intros Hkey Hle Hmiss Hfree. cbn [run_events].
  rewrite (summarize_new t1 h1 pg Hmiss Hfree).
  rewrite (summarize_shared t2 h2 (with_new_request h1 pg) (length (requests pg))).
  - reflexivity.
  - rewrite <- Hkey. apply (cache_miss_same_cache pg); [reflexivity|].
    eapply cache_miss_later; eauto.
  - rewrite <- Hkey. unfold registered, with_new_request. simpl.
    apply lookup_insert_eq.
Qed.

Lemma two_waiting_answered pg h a t3 t4 :
  let p := length (requests pg) in
  let i := length (callers pg) in
  (exists pg3,
      run_events [Respond p a; Resume i t3; Resume (S i) t4] (two_waiting h pg)
      = Some pg3
      /\ callers pg3 = callers pg ++ [outcome_of a; outcome_of a]
      /\ length (requests pg3) = S (length (requests pg)))
  /\ (exists pg3,
        run_events [Respond p a; Resume (S i) t3; Resume i t4] (two_waiting h pg)
        = Some pg3
        /\ callers pg3 = callers pg ++ [outcome_of a; outcome_of a]
        /\ length (requests pg3) = S (length (requests pg))).
Proof.
  destruct pg as [cm rs cs]. intros p i. subst p i.
  unfold two_waiting, add_caller, with_new_request. simpl.
  unfold respond. simpl. rewrite lookup_snoc1. simpl.
  rewrite insert_snoc1, <- app_assoc. simpl.
  split.
  - unfold resume at 1. simpl. rewrite lookup_snoc2_first.
    unfold settled_answer. simpl. rewrite lookup_snoc1. simpl.
    destruct a as [s|e]; simpl; rewrite insert_snoc2_first;
      unfold resume; simpl; rewrite lookup_snoc2_second;
      unfold settled_answer; simpl; rewrite lookup_snoc1; simpl;
      rewrite insert_snoc2_second; eexists; (split; [reflexivity|]);
      simpl; rewrite length_app; simpl; (split; [reflexivity|lia]).
  - unfold resume at 1. simpl. rewrite lookup_snoc2_second.
    unfold settled_answer. simpl. rewrite lookup_snoc1. simpl.
    destruct a as [s|e]; simpl; rewrite insert_snoc2_second;
      unfold resume; simpl; rewrite lookup_snoc2_first;
      unfold settled_answer; simpl; rewrite lookup_snoc1; simpl;
      rewrite insert_snoc2_first; eexists; (split; [reflexivity|]);
      simpl; rewrite length_app; simpl; (split; [reflexivity|lia]).
Qed.

Lemma stale_start t : stale_while_pending t start.
Proof. intros p r now Hp. discriminate. Qed.

(** With a [cleanup()] between two calls for the same highlight, the
    first of them not yet answered, two requests for one key are in
    flight at once and the second call waits for a request of its own:
    "at most one request in flight for a key" does not hold of every
    run of the page. *)
Lemma cleanup_two_requests_in_flight :
  timely 0 cleanup_in_flight
  /\ run_events cleanup_in_flight start = Some two_in_flight
  /\ pending_for two_in_flight 0
       (CacheManager.generateSummaryCacheKey (page_a "Hello, world"))
  /\ pending_for two_in_flight 1
       (CacheManager.generateSummaryCacheKey (page_a "Hello, world"))
  /\ callers two_in_flight
     = [AwaitsOwn 0 (CacheManager.generateSummaryCacheKey (page_a "Hello, world"));
        AwaitsOwn 1 (CacheManager.generateSummaryCacheKey (page_a "Hello, world"))]
  /\ ~ (forall (es : list event) (t0 : Z) (pg : page),
          timely t0 es -> run_events es start = Some pg ->
          forall p1 p2 k, pending_for pg p1 k -> pending_for pg p2 k -> p1 = p2).
Proof.
  assert (Htime : timely 0 cleanup_in_flight)
    by (simpl; repeat split; lia).
  assert (Hrun : run_events cleanup_in_flight start = Some two_in_flight)
    by (vm_compute; reflexivity).
  assert (H0 : pending_for two_in_flight 0
                 (CacheManager.generateSummaryCacheKey (page_a "Hello, world")))
    by (eexists; repeat split; reflexivity).
  assert (H1 : pending_for two_in_flight 1
                 (CacheManager.generateSummaryCacheKey (page_a "Hello, world")))
    by (eexists; repeat split; reflexivity).
  repeat (split; [assumption|]). split; [reflexivity|].
  intros Hone.
  discriminate (Hone cleanup_in_flight 0%Z two_in_flight Htime Hrun 0 1 _ H0 H1).
Qed.

(** C8, amended. Requests in flight. Whatever calls, answers,
    resumptions, sweeps and [cleanup()]s take place on a page, as long
    as every [cleanup()] comes while nothing is in flight (every request
    answered, no call waiting for a request of its own), and so in
    every run without [cleanup()], at most one request that is not yet
    answered has a given cache key, and a further call of
    [summarizeHighlight] with that key sends nothing: it waits for the
    promise of that request. Two calls with the same key, the second
    made before the first is answered and with no [cleanup()] in
    between, send one request; once it is answered both calls end with
    its summary, or both with its error, whichever of them goes on
    first. *)
Theorem one_request_in_flight_per_key :
  (forall (es : list event) (t0 : Z) (pg : page),
      timely t0 es -> cleanups_at_rest es start ->
      run_events es start = Some pg ->
      (forall p1 p2 k, pending_for pg p1 k -> pending_for pg p2 k -> p1 = p2)
      /\ (forall now h p,
            (last_time t0 es <= now)%Z ->
            pending_for pg p (CacheManager.generateSummaryCacheKey h) ->
            step (Summarize now h) pg = Some (add_caller (AwaitsShared p) pg)))
  /\ (forall (pg : page) (h1 h2 : ai_highlight) (t1 t2 : Z),
        CacheManager.generateSummaryCacheKey h1
        = CacheManager.generateSummaryCacheKey h2 ->
        (t1 <= t2)%Z ->
        cache_miss pg t1 (CacheManager.generateSummaryCacheKey h1) ->
        registered pg (CacheManager.generateSummaryCacheKey h1) = None ->
        let p := length (requests pg) in
        let i := length (callers pg) in
        run_events [Summarize t1 h1; Summarize t2 h2] pg
        = Some (two_waiting h1 pg)
        /\ requests (two_waiting h1 pg)
           = requests pg
             ++ [{| request_key := CacheManager.generateSummaryCacheKey h1;
                    request_highlight := h1; answer := None |}]
        /\ callers (two_waiting h1 pg)
           = callers pg
             ++ [AwaitsOwn p (CacheManager.generateSummaryCacheKey h1);
                 AwaitsShared p]
        /\ forall a t3 t4,
             (exists pg3,
                 run_events [Respond p a; Resume i t3; Resume (S i) t4]
                   (two_waiting h1 pg) = Some pg3
                 /\ callers pg3 = callers pg ++ [outcome_of a; outcome_of a]
                 /\ length (requests pg3) = S (length (requests pg)))
             /\ (exists pg3,
                   run_events [Respond p a; Resume (S i) t3; Resume i t4]
                     (two_waiting h1 pg) = Some pg3
                   /\ callers pg3 = callers pg ++ [outcome_of a; outcome_of a]
                   /\ length (requests pg3) = S (length (requests pg)))).
Proof.
  split.
  - intros es t0 pg Htime Hrest Hrun.
    destruct (run_events_registry es start t0 pg registry_inv_start
                (stale_start t0) Htime Hrest Hrun) as [[Hreg Hown Huniq] Hstale].
    split.
    + intros p1 p2 k (r1 & Hp1 & Hr1 & Hk1) (r2 & Hp2 & Hr2 & Hk2).
      pose proof (Hreg p1 r1 Hp1 Hr1) as H1.
      pose proof (Hreg p2 r2 Hp2 Hr2) as H2. congruence.
    + intros now h p Hnow (r & Hp & Hr & Hk).
      apply summarize_shared.
      * rewrite <- Hk. eauto.
      * rewrite <- Hk. eauto.
  - intros pg h1 h2 t1 t2 Hkey Hle Hmiss Hfree p i.
    split; [now apply two_calls_one_request|].
    split; [reflexivity|].
    split; [unfold two_waiting, add_caller, with_new_request; simpl;
            now rewrite <- app_assoc|].
    intros a t3 t4. apply two_waiting_answered.
Qed.

Lemma one_request_in_flight_per_key_witness :
  timely 0 cleanup_at_rest
  /\ cleanups_at_rest cleanup_at_rest start
  /\ exists pg,
       run_events cleanup_at_rest start = Some pg
       /\ (last_time 0 cleanup_at_rest <= 2000)%Z
       /\ pending_for pg 1
            (CacheManager.generateSummaryCacheKey (page_a "Hello. world"))
       /\ step (Summarize 2000 (page_a "Hello. world")) pg
          = Some (add_caller (AwaitsShared 1) pg).
Proof.
  assert (Htime : timely 0 cleanup_at_rest)
    by (simpl; repeat split; lia).
  assert (Hrest : cleanups_at_rest cleanup_at_rest start)
    by (vm_compute; repeat split).
  split; [exact Htime|]. split; [exact Hrest|].
  destruct (run_events cleanup_at_rest start) as [pg|] eqn:Hrun;
    [|vm_compute in Hrun; discriminate Hrun].
  exists pg.
  assert (Hnow : (last_time 0 cleanup_at_rest <= 2000)%Z) by (simpl; lia).
  assert (Hpend : pending_for pg 1
                    (CacheManager.generateSummaryCacheKey (page_a "Hello. world"))).
  { vm_compute in Hrun. injection Hrun as <-.
    eexists. split; [reflexivity|]. split; [reflexivity|].
    vm_compute. reflexivity. }
  repeat (split; [assumption || reflexivity|]).
  exact (proj2 (proj1 one_request_in_flight_per_key _ 0%Z pg Htime Hrest Hrun)
           2000%Z (page_a "Hello. world") 1 Hnow Hpend).
Defined.

End InFlight.

(** ** The summary cache key, and what is served under it *)

(** C10. The key of the summary cache is a function of the text, the
    address and the title alone, and it is not injective: highlights
    that differ in a punctuation mark, in where the separator falls, or
    in the text after its first 100 characters have the same key. A
    summary cached for one highlight is then what the cache answers for
    the other, and a call for one highlight made while the request for
    the other is in flight waits for that request. *)
Theorem generateSummaryCacheKey_deterministic_not_injective :
  (forall h1 h2,
      ai_text h1 = ai_text h2 -> ai_url h1 = ai_url h2 ->
      ai_title h1 = ai_title h2 ->
      CacheManager.generateSummaryCacheKey h1
      = CacheManager.generateSummaryCacheKey h2)
  /\ (let h1 := page_a "Hello, world" in
      let h2 := page_a "Hello. world" in
      h1 <> h2
      /\ CacheManager.generateSummaryCacheKey h1
         = CacheManager.generateSummaryCacheKey h2)
  /\ (let h1 := {| ai_text := "a"; ai_url := "b_c"; ai_title := "d";
                   ai_domain := ""; ai_pageText := "" |} in
      let h2 := {| ai_text := "a_b"; ai_url := "c"; ai_title := "d";
                   ai_domain := ""; ai_pageText := "" |} in
      h1 <> h2
      /\ CacheManager.generateSummaryCacheKey h1
         = CacheManager.generateSummaryCacheKey h2)
  /\ (let h1 := page_a (hundred_a ++ "x")%string in
      let h2 := page_a (hundred_a ++ "y")%string in
      h1 <> h2
      /\ CacheManager.generateSummaryCacheKey h1
         = CacheManager.generateSummaryCacheKey h2)
  /\ (forall (cm : CacheManager.t nat) h1 h2 s t now,
        CacheManager.generateSummaryCacheKey h1
        = CacheManager.generateSummaryCacheKey h2 ->
        now - t < 300000 ->
        (CacheManager.getCachedSummary now
           (CacheManager.generateSummaryCacheKey h2)
           (CacheManager.cacheSummary t
              (CacheManager.generateSummaryCacheKey h1) s cm).2).1
        = Some s)
  /\ (forall h1 h2 t1 t2,
        CacheManager.generateSummaryCacheKey h1
        = CacheManager.generateSummaryCacheKey h2 ->
        t1 <= t2 ->
        AIUtils.run_events
          [AIUtils.Summarize t1 h1; AIUtils.Summarize t2 h2] AIUtils.start
        = Some
            {| AIUtils.cacheManager :=
                 CacheManager.set_apiRequestQueue
                   (insert (CacheManager.generateSummaryCacheKey h1) 0%nat)
                   CacheManager.empty;
               AIUtils.requests :=
                 [{| AIUtils.request_key := CacheManager.generateSummaryCacheKey h1;
                     AIUtils.request_highlight := h1;
                     AIUtils.answer := None |}];
               AIUtils.callers :=
                 [AIUtils.AwaitsOwn 0 (CacheManager.generateSummaryCacheKey h1);
                  AIUtils.AwaitsShared 0] |}).
Proof.
  split; [|split; [|split; [|split; [|split]]]].
  - intros h1 h2 Ht Hu Hti. unfold CacheManager.generateSummaryCacheKey.
    now rewrite Ht, Hu, Hti.
  - split; [discriminate|vm_compute; reflexivity].
  - split; [discriminate|vm_compute; reflexivity].
  - split; [|vm_compute; reflexivity].
    intros Heq. apply (f_equal ai_text) in Heq. vm_compute in Heq. discriminate.
  - intros cm h1 h2 s t now. apply served_for_other.
  - intros h1 h2 t1 t2 Hkey Hle.
    rewrite (two_calls_one_request AIUtils.start h1 h2 t1 t2 Hkey Hle).
    + reflexivity.
    + exact I.
    + reflexivity.
Qed.

Lemma generateSummaryCacheKey_deterministic_not_injective_witness :
  CacheManager.generateSummaryCacheKey (page_a "Hello, world")
  = CacheManager.generateSummaryCacheKey (page_a "Hello. world")
  /\ 1000 - 0 < 300000
  /\ (CacheManager.getCachedSummary 1000
        (CacheManager.generateSummaryCacheKey (page_a "Hello. world"))
        (CacheManager.cacheSummary 0
           (CacheManager.generateSummaryCacheKey (page_a "Hello, world"))
           "a summary" (CacheManager.empty : CacheManager.t nat)).2).1
     = Some "a summary".
Proof.
  assert (Hkey : CacheManager.generateSummaryCacheKey (page_a "Hello, world")
                 = CacheManager.generateSummaryCacheKey (page_a "Hello. world"))
    by (vm_compute; reflexivity).
  assert (Hfresh : 1000 - 0 < 300000) by lia.
  split; [exact Hkey|]. split; [exact Hfresh|].
  exact (proj1 (proj2 (proj2 (proj2 (proj2
    generateSummaryCacheKey_deterministic_not_injective))))
    CacheManager.empty _ _ "a summary" 0 1000 Hkey Hfresh).
Defined.

(** ** Deleting *)

Lemma deleteHighlight_run id w :
  truthy id = true ->
  run (deleteHighlight id) w =
    (inr (VBool true),
     {| store := set_highlights
          (List.filter (fun h => negb (strict_eq (prop h "id") id))
             (getHighlights (store w)))
          (store w);
        clock := clock w; notified := S (notified w) |}).
Proof. intros Hid. unfold deleteHighlight. rewrite Hid. reflexivity. Qed.

Lemma getHighlights_set l st : getHighlights (set_highlights l st) = l.
Proof. reflexivity. Qed.

Lemma filter_idempotent {A} (f : A -> bool) l :
  List.filter f (List.filter f l) = List.filter f l.
Proof.
  induction l as [|x l IH]; simpl; [reflexivity|].
  destruct (f x) eqn:Hx; simpl; [rewrite Hx, IH|]; auto.
Qed.

(** Delete. [deleteHighlight(id)] with a truthy [id] succeeds whether or
    not a record has that [id]; afterwards [getAll()] answers the old
    records whose [id] is not [id], in their old order, so no record
    with that [id] is left and no other record is lost; a list without
    such a record is left as it was, and a second delete of the same
    [id] changes nothing more. *)
Theorem deleteHighlight_removes_id (id : value) (w : world) :
  truthy id = true ->
  let old := getHighlights (store w) in
  let c := deleteHighlight id in
  let now := getAll_after c w in
  (run c w).1 = inr (VBool true)
  /\ now = List.filter (fun h => negb (strict_eq (prop h "id") id)) old
  /\ (forall h, In h now -> strict_eq (prop h "id") id = false)
  /\ (forall h, In h old -> strict_eq (prop h "id") id = false -> In h now)
  /\ (length now
      + length (List.filter (fun h => strict_eq (prop h "id") id) old)
      = length old)%nat
  /\ ((forall h, In h old -> strict_eq (prop h "id") id = false) -> now = old)
  /\ getAll_after c (run c w).2 = now.
Proof.
  intros Hid old c now.
  assert (Hnow : now = List.filter (fun h => negb (strict_eq (prop h "id") id)) old).
  { unfold now, c, getAll_after. now rewrite deleteHighlight_run. }
  split; [unfold c; now rewrite deleteHighlight_run|].
  split; [exact Hnow|]. split; [|split; [|split; [|split]]].
  - intros h Hin. rewrite Hnow in Hin. apply List.filter_In in Hin as [_ Hne].
    now apply negb_true_iff in Hne.
  - intros h Hin Hne. rewrite Hnow. apply List.filter_In. split; [exact Hin|].
    now rewrite Hne.
  - rewrite Hnow.
    pose proof (filter_split_length (fun h => strict_eq (prop h "id") id) old).
    lia.
  - intros Hnone. rewrite Hnow. apply filter_all. intros h Hin.
    now rewrite (Hnone h Hin).
  - unfold c, getAll_after.
    rewrite (deleteHighlight_run id (run (deleteHighlight id) w).2 Hid).
    cbn [snd store]. rewrite getHighlights_set.
    rewrite (deleteHighlight_run id w Hid). cbn [snd store].
    rewrite getHighlights_set, filter_idempotent. symmetry. exact Hnow.
Qed.

Lemma deleteHighlight_removes_id_witness :
  truthy (VStr "h1") = true
  /\ getAll_after (deleteHighlight (VStr "h1"))
       (world_with [example_h2; example_h1; example_original] 300)
     = [example_h2].
Proof.
  assert (Hid : truthy (VStr "h1") = true) by reflexivity.
  split; [exact Hid|].
  exact (proj1 (proj2
    (deleteHighlight_removes_id (VStr "h1")
       (world_with [example_h2; example_h1; example_original] 300) Hid))).
Defined.

(** Save, then delete by the saved record's [id]. When the [id] is a
    primitive that no stored record had, the list is back to its first
    999 old entries: to the old list itself when that had fewer than
    1000 entries, and short of its last entry when it was full, which
    the save has pushed out for good. *)
Theorem save_then_delete_restores (h : value) (w : world) :
  saveable h ->
  truthy (prop h "id") = true ->
  strict_eq (prop h "id") (prop h "id") = true ->
  (forall e, In e (getHighlights (store w)) ->
             strict_eq (prop e "id") (prop h "id") = false) ->
  let old := getHighlights (store w) in
  let now :=
    getHighlights
      (store (serve [SaveHighlightReq h; DeleteHighlightReq (prop h "id")] w)) in
  now = firstn 999 old
  /\ ((length old < MAX_HIGHLIGHTS)%nat -> now = old)
  /\ (length old = MAX_HIGHLIGHTS -> now = removelast old).
Proof.
  intros Hs Hid Hprim Hfresh old now.
  assert (Hnow : now = firstn 999 old).
  { unfold now, serve. simpl fold_left.
    destruct (saveHighlight_accepts h Hs) as (fn & Hcall & Hrun).
    rewrite Hcall. simpl run at 2. rewrite Hrun. cbn [snd].
    rewrite deleteHighlight_run by exact Hid.
    cbn [store]. rewrite !getHighlights_set.
    rewrite cap_cons. simpl List.filter. rewrite stamped_id, Hprim. simpl.
    apply filter_all. intros e He. apply In_firstn in He.
    fold (getHighlights (store w)) in He. now rewrite (Hfresh e He). }
  split; [exact Hnow|]. split.
  - intros Hlt. rewrite Hnow. apply firstn_all2. unfold MAX_HIGHLIGHTS in Hlt. lia.
  - intros Hfull. rewrite Hnow. rewrite removelast_firstn_len.
    unfold MAX_HIGHLIGHTS in Hfull. now rewrite Hfull.
Qed.

Lemma save_then_delete_restores_witness :
  saveable example_h2
  /\ getHighlights
       (store (serve [SaveHighlightReq example_h2;
                      DeleteHighlightReq (prop example_h2 "id")]
                 (world_with [example_h1] 300)))
     = firstn 999 [example_h1].
Proof.
  assert (Hs : saveable example_h2) by (repeat split; reflexivity).
  split; [exact Hs|].
  refine (proj1 (save_then_delete_restores example_h2
                   (world_with [example_h1] 300) Hs _ _ _)).
  - reflexivity.
  - reflexivity.
  - intros e [<-|[]]. reflexivity.
Defined.

(** ** Every request, one after the other *)

Lemma handleMessage_cases r w :
  (exists msg, handleMessage r = Rejects msg)
  \/ (exists v hs,
        run (handleMessage r) w =
          (inr v, {| store := set_highlights hs (store w);
                     clock := clock (run (handleMessage r) w).2;
                     notified := S (notified w) |})).
Proof.
  destruct r as [h|id| |importData merge]; simpl handleMessage.
  - destruct (classic_saveable h) as [Hs|Hs].
    + right. destruct (saveHighlight_accepts h Hs) as (fn & -> & Hrun).
      simpl run. rewrite Hrun. eauto.
    + left. rewrite (saveHighlight_rejects h Hs). eauto.
  - destruct (truthy id) eqn:Hid.
    + right. rewrite deleteHighlight_run by exact Hid. eauto.
    + left. unfold deleteHighlight. rewrite Hid. eauto.
  - right. simpl. eauto.
  - destruct (importHighlights_forms importData merge) as [[msg ->]|[incoming ->]];
      [left; eauto|right].
    destruct merge.
    + rewrite importHighlights_merge. eauto.
    + rewrite importHighlights_replace. eauto.
Qed.

Lemma accepted_false r w :
  accepted r = false -> exists msg, run (handleMessage r) w = (inl msg, w).
Proof.
  unfold accepted. destruct (handleMessage r) as [msg|fn]; [|discriminate].
  intros _. exists msg. reflexivity.
Qed.

Lemma accepted_true r w :
  accepted r = true ->
  exists v hs,
    run (handleMessage r) w =
      (inr v, {| store := set_highlights hs (store w);
                 clock := clock (run (handleMessage r) w).2;
                 notified := S (notified w) |}).
Proof.
  intros Hacc. destruct (handleMessage_cases r w) as [[msg Hrej]|Hok]; [|exact Hok].
  unfold accepted in Hacc. rewrite Hrej in Hacc. discriminate.
Qed.

(** Update broadcasts. A request that is refused leaves the storage
    area, the clock and the broadcast count as they were; a request that
    is accepted writes the list and sends the update broadcast exactly
    once. None of the four operations touches the summary cache. Over a
    sequence of requests the number of broadcasts sent is the number of
    accepted requests. *)
Theorem handleMessage_broadcasts_once (rs : list request) (w : world) :
  (forall r w,
      (accepted r = false /\
       exists msg, run (handleMessage r) w = (inl msg, w))
      \/ (accepted r = true /\
          exists v hs,
            (run (handleMessage r) w).1 = inr v
            /\ highlights (store (run (handleMessage r) w).2) = Some hs
            /\ notified (run (handleMessage r) w).2 = S (notified w)))
  /\ notified (serve rs w) = (notified w + length (List.filter accepted rs))%nat
  /\ summaryCache (store (serve rs w)) = summaryCache (store w).
Proof.
  split.
  { clear. intros r w. destruct (accepted r) eqn:Hacc.
    - right. split; [reflexivity|].
      destruct (accepted_true r w Hacc) as (v & hs & Hrun).
      exists v, hs. rewrite Hrun. auto.
    - left. split; [reflexivity|]. now apply accepted_false. }
  revert w. induction rs as [|r rs IH]; intros w; [simpl; split; [lia|reflexivity]|].
  change (serve (r :: rs) w) with (serve rs (run (handleMessage r) w).2).
  destruct (IH (run (handleMessage r) w).2) as [IHn IHs]. rewrite IHn, IHs.
  simpl List.filter. destruct (accepted r) eqn:Hacc.
  - destruct (accepted_true r w Hacc) as (v & hs & Hrun). rewrite Hrun.
    simpl. split; [lia|reflexivity].
  - destruct (accepted_false r w Hacc) as (msg & Hrun). rewrite Hrun.
    simpl. split; [lia|reflexivity].
Qed.

(** ** The capacity of the list *)

Lemma handleMessage_within_cap r w :
  replaces r = false ->
  (length (getHighlights (store w)) <= MAX_HIGHLIGHTS)%nat ->
  (length (getHighlights (store (run (handleMessage r) w).2)) <= MAX_HIGHLIGHTS)%nat.
Proof.
  intros Hr Hold. destruct r as [h|id| |importData merge]; simpl handleMessage.
  - destruct (classic_saveable h) as [Hs|Hs].
    + destruct (saveHighlight_accepts h Hs) as (fn & -> & Hrun).
      simpl run. rewrite Hrun. cbn [snd store]. rewrite getHighlights_set.
      rewrite cap_length. lia.
    + rewrite (saveHighlight_rejects h Hs). exact Hold.
  - destruct (truthy id) eqn:Hid.
    + rewrite deleteHighlight_run by exact Hid. cbn [snd store].
      rewrite getHighlights_set.
      etransitivity; [apply filter_length_le|exact Hold].
    + unfold deleteHighlight. rewrite Hid. exact Hold.
  - simpl. lia.
  - destruct merge; [|discriminate].
    destruct (importHighlights_forms importData true) as [[msg ->]|[incoming ->]];
      [exact Hold|].
    rewrite importHighlights_merge. cbn [snd store]. rewrite getHighlights_set.
    rewrite cap_length. lia.
Qed.

(** The cap as an invariant. Saves, deletes, clears and merge imports,
    in any number and order, keep a list of at most 1000 entries at
    1000 entries or fewer; whatever its length was, the list has at most
    1000 entries right after an accepted save or merge import. Replace
    imports are the one exception, and after one of them the list is as
    long as the number of valid records in the file. *)
Theorem highlights_within_cap (rs : list request) (w : world) :
  (length (getHighlights (store w)) <= MAX_HIGHLIGHTS)%nat ->
  forallb (fun r => negb (replaces r)) rs = true ->
  (length (getHighlights (store (serve rs w))) <= MAX_HIGHLIGHTS)%nat
  /\ (forall h w', saveable h ->
        (length (getAll_after (saveHighlight h) w') <= MAX_HIGHLIGHTS)%nat)
  /\ (forall incoming w',
        (length (getAll_after (importHighlights (VArr incoming) true) w')
         <= MAX_HIGHLIGHTS)%nat)
  /\ (forall incoming w',
        length (getAll_after (importHighlights (VArr incoming) false) w')
        = length (List.filter importFilter incoming)).
Proof.
  intros Hold Hrs. split; [|split; [|split]].
  - revert w Hold. induction rs as [|r rs IH]; intros w Hold; [exact Hold|].
    simpl in Hrs. apply andb_true_iff in Hrs as [Hr Hrs].
    change (serve (r :: rs) w) with (serve rs (run (handleMessage r) w).2).
    apply IH; [exact Hrs|]. apply handleMessage_within_cap; [|exact Hold].
    now apply negb_true_iff in Hr.
  - intros h w' Hs. unfold getAll_after.
    destruct (saveHighlight_accepts h Hs) as (fn & -> & Hrun).
    simpl run. rewrite Hrun. cbn [snd store]. rewrite getHighlights_set.
    rewrite cap_length. lia.
  - intros incoming w'. unfold getAll_after. rewrite importHighlights_merge.
    cbn [snd store]. rewrite getHighlights_set. rewrite cap_length. lia.
  - intros incoming w'. reflexivity.
Qed.

Lemma highlights_within_cap_witness :
  (length (getHighlights (store (world_with [example_h1] 300))) <= MAX_HIGHLIGHTS)%nat
  /\ (length (getHighlights
         (store (serve [SaveHighlightReq example_h2;
                        ImportHighlightsReq (VArr [example_original]) true;
                        DeleteHighlightReq (VStr "h2")]
                   (world_with [example_h1] 300)))) <= MAX_HIGHLIGHTS)%nat.
Proof.
  assert (Hold : (length (getHighlights (store (world_with [example_h1] 300)))
                  <= MAX_HIGHLIGHTS)%nat) by (vm_compute; lia).
  split; [exact Hold|].
  exact (proj1 (highlights_within_cap
    [SaveHighlightReq example_h2;
     ImportHighlightsReq (VArr [example_original]) true;
     DeleteHighlightReq (VStr "h2")]
    (world_with [example_h1] 300) Hold eq_refl)).
Defined.

(** ** Importing twice, and importing an export *)

Lemma importFilter_id_reflexive h :
  importFilter h = true -> strict_eq (prop h "id") (prop h "id") = true.
Proof.
  unfold importFilter. rewrite !andb_true_iff.
  intros [[[[[[[[[[[_ _] Hid] _] _] _] _] _] _] _] _] _].
  destruct (prop h "id"); simpl in *; try discriminate.
  apply String.eqb_refl.
Qed.

Lemma has_id_app l1 l2 h :
  has_id (l1 ++ l2) h = has_id l1 h || has_id l2 h.
Proof. unfold has_id. now rewrite map_app, existsb_app. Qed.

Lemma has_id_In l h :
  In h l -> importFilter h = true -> has_id l h = true.
Proof.
  intros Hin Hv. apply has_id_spec. exists h.
  split; [exact Hin|]. now apply importFilter_id_reflexive.
Qed.

(** Merge import twice. When the first merge import of a file fits the
    cap, importing the same file again in merge mode adds nothing: the
    stored list stays as the first import left it, and the answer
    counts no record as imported and every valid record as a
    duplicate. *)
Theorem importHighlights_merge_twice (incoming : list value) (w : world) :
  let existing := getHighlights (store w) in
  let valid := List.filter importFilter incoming in
  let fresh := List.filter (fun h => negb (has_id existing h)) valid in
  let c := importHighlights (VArr incoming) true in
  (length fresh + length existing <= MAX_HIGHLIGHTS)%nat ->
  getAll_after c (run c w).2 = getAll_after c w
  /\ store (run c (run c w).2).2 = store (run c w).2
  /\ (run c (run c w).2).1 =
       inr (merge_report 0 (Z.of_nat (length valid))
              (Z.of_nat (length incoming) - Z.of_nat (length valid))).
Proof.
  intros existing valid fresh c Hfit. unfold c, getAll_after.
  rewrite (importHighlights_merge incoming (run _ w).2).
  rewrite (importHighlights_merge incoming w).
  cbn [fst snd store]. rewrite !getHighlights_set.
  fold existing valid fresh.
  rewrite (cap_small (fresh ++ existing)) by (rewrite length_app; exact Hfit).
  assert (Hnone : List.filter (fun h => negb (has_id (fresh ++ existing) h)) valid = []).
  { apply filter_none. intros h Hin. apply negb_false_iff.
    rewrite has_id_app. destruct (has_id existing h) eqn:Hex;
      [apply orb_true_r|]. rewrite orb_false_r.
    apply List.filter_In in Hin as Hv. destruct Hv as [_ Hv].
    apply has_id_In; [|exact Hv].
    apply List.filter_In. split; [exact Hin|]. now rewrite Hex. }
  rewrite Hnone. simpl app.
  rewrite (cap_small (fresh ++ existing)) by (rewrite length_app; exact Hfit).
  repeat split. simpl length. do 3 f_equal. lia.
Qed.

Lemma importHighlights_merge_twice_witness :
  (length (List.filter
             (fun h => negb (has_id [example_original] h))
             (List.filter importFilter [example_h1; example_h2]))
   + length [example_original] <= MAX_HIGHLIGHTS)%nat
  /\ getAll_after (importHighlights (VArr [example_h1; example_h2]) true)
       (run (importHighlights (VArr [example_h1; example_h2]) true)
            (world_with [example_original] 300)).2
     = getAll_after (importHighlights (VArr [example_h1; example_h2]) true)
         (world_with [example_original] 300).
Proof.
  assert (Hfit : (length (List.filter
                            (fun h => negb (has_id [example_original] h))
                            (List.filter importFilter [example_h1; example_h2]))
                  + length [example_original] <= MAX_HIGHLIGHTS)%nat)
    by (vm_compute; lia).
  split; [exact Hfit|].
  exact (proj1 (importHighlights_merge_twice [example_h1; example_h2]
                  (world_with [example_original] 300) Hfit)).
Defined.

Lemma importHighlights_export exportDate st merge :
  importHighlights (exportHighlights exportDate st) merge
  = importHighlights (VArr (getHighlights st)) merge.
Proof. reflexivity. Qed.

(** Export, then import. The object [exportHighlights] answers is a
    file [importHighlights] accepts. Imported in replace mode, into any
    store, it leaves the exported records that pass the import filter,
    in their order: the exported list itself when all of its records
    pass, and without the records that do not (one saved without [id],
    say) otherwise. Imported in merge mode into the store it came from,
    it adds nothing, whatever that store holds. *)
Theorem export_then_import (exportDate : string) (w w' : world) :
  let stored := getHighlights (store w) in
  let data := exportHighlights exportDate (store w) in
  getAll_after (importHighlights data false) w' = List.filter importFilter stored
  /\ (run (importHighlights data false) w').1 =
       inr (replace_report (Z.of_nat (length (List.filter importFilter stored)))
              (Z.of_nat (length stored)
               - Z.of_nat (length (List.filter importFilter stored))))
  /\ (List.Forall (fun h => importFilter h = true) stored ->
      getAll_after (importHighlights data false) w' = stored)
  /\ (forall h, In h stored -> importFilter h = false ->
        ~ In h (getAll_after (importHighlights data false) w'))
  /\ getAll_after (importHighlights data true) w = firstn MAX_HIGHLIGHTS stored
  /\ (run (importHighlights data true) w).1 =
       inr (merge_report 0 (Z.of_nat (length (List.filter importFilter stored)))
              (Z.of_nat (length stored)
               - Z.of_nat (length (List.filter importFilter stored)))).
Proof.
  intros stored data. unfold data. rewrite !importHighlights_export.
  fold stored. unfold getAll_after.
  rewrite (importHighlights_replace stored w').
  rewrite (importHighlights_merge stored w). fold stored.
  cbn [fst snd store]. rewrite !getHighlights_set.
  assert (Hnone : List.filter (fun h => negb (has_id stored h))
                    (List.filter importFilter stored) = []).
  { apply filter_none. intros h Hin. apply negb_false_iff.
    apply List.filter_In in Hin as [Hin Hv]. now apply has_id_In. }
  rewrite Hnone.
  split; [reflexivity|]. split; [reflexivity|]. split; [|split; [|split]].
  - intros Hall. apply filter_all. now apply List.Forall_forall.
  - intros h _ Hbad Hin. apply List.filter_In in Hin as [_ Hv]. congruence.
  - apply cap_firstn.
  - simpl length. unfold merge_report, vlen. simpl length.
    rewrite Z.sub_0_r. reflexivity.
Qed.

(** ** The popup's import *)

Lemma js_le_mono v a b : a <= b -> js_le v a = true -> js_le v b = true.
Proof.
  intros Hab. destruct v; simpl; try discriminate.
  rewrite !Z.leb_le. lia.
Qed.

Lemma importFilter_validateHighlight h :
  importFilter h = true -> validateHighlight h = true.
Proof.
  unfold importFilter, validateHighlight. rewrite !andb_true_iff.
  intros [[[[[[[[[[[H1 H2] H3] H4] H5] H6] H7] H8] H9] H10] H11] H12].
  repeat split; try assumption.
  - apply (js_le_mono _ MAX_TEXT_LENGTH); [unfold MAX_TEXT_LENGTH; lia|exact H7].
  - apply (js_le_mono _ MAX_URL_LENGTH); [unfold MAX_URL_LENGTH; lia|exact H10].
Qed.

Lemma importFilter_after_validateHighlight l :
  List.filter importFilter (List.filter validateHighlight l)
  = List.filter importFilter l.
Proof.
  apply filter_filter_absorb. intros x _. apply importFilter_validateHighlight.
Qed.

Lemma importHighlights_after_validateHighlight l merge w :
  run (importHighlights (VArr (List.filter validateHighlight l)) merge) w
  = (match (run (importHighlights (VArr l) merge) w).1 with
     | inr result =>
         inr (set_prop result "skippedInvalid"
                (VNum (Z.of_nat (length (List.filter validateHighlight l))
                       - Z.of_nat (length (List.filter importFilter l)))))
     | inl msg => inl msg
     end,
     (run (importHighlights (VArr l) merge) w).2).
Proof.
  destruct merge.
  - rewrite !importHighlights_merge, importFilter_after_validateHighlight.
    reflexivity.
  - rewrite !importHighlights_replace, importFilter_after_validateHighlight.
    reflexivity.
Qed.

(** The popup's import of a file that holds an array. When no record
    passes the popup's [validateHighlight] the import is refused and
    nothing is written, in replace mode too. Otherwise the storage area
    ends up exactly as if the whole file had gone to the background: the
    popup's filter drops nothing the background's filter would keep.
    The answer carries the background's [imported] count and, as
    [skippedInvalid], the number of records the popup dropped; the
    records that pass the popup's filter and fail the background's are
    in neither, so in replace mode the two counts add up to the size of
    the file exactly when there are none of those. *)
Theorem popup_import_filters_twice (highlights : list value) (merge : bool) (w : world) :
  let valid := List.filter validateHighlight highlights in
  let kept := List.filter importFilter highlights in
  let fresh :=
    List.filter (fun h => negb (has_id (getHighlights (store w)) h)) kept in
  let imported := if merge then length fresh else length kept in
  let res := HighlightStorage.import (VArr highlights) merge w in
  (valid = [] -> res = (inl "No valid highlights found in file", w))
  /\ (valid <> [] ->
      res = (inr (VObj [("imported", VNum (Z.of_nat imported));
                        ("skippedInvalid",
                          VNum (Z.of_nat (length highlights)
                                - Z.of_nat (length valid)))]),
             (run (importHighlights (VArr highlights) merge) w).2))
  /\ (length kept <= length valid <= length highlights)%nat
  /\ (length kept
      + length (List.filter (fun h => negb (importFilter h)) valid)
      + (length highlights - length valid)
      = length highlights)%nat.
Proof.
  intros valid kept fresh imported res. split; [|split; [|split]].
  - intros Hnil. unfold res, HighlightStorage.import. simpl isArray. cbv iota.
    simpl items_of. fold valid. rewrite Hnil. reflexivity.
  - intros Hne. unfold res, HighlightStorage.import. simpl isArray. cbv iota.
    simpl items_of. fold valid.
    destruct valid as [|v0 valid0] eqn:Hvalid; [congruence|].
    simpl Nat.eqb. cbv iota. rewrite <- Hvalid. unfold valid.
    rewrite importHighlights_after_validateHighlight.
    unfold imported, fresh, kept. destruct merge.
    + rewrite importHighlights_merge. reflexivity.
    + rewrite importHighlights_replace. reflexivity.
  - unfold kept, valid. rewrite <- importFilter_after_validateHighlight.
    split; apply filter_length_le.
  - unfold kept. rewrite <- importFilter_after_validateHighlight. fold valid.
    pose proof (filter_split_length importFilter valid).
    pose proof (filter_length_le validateHighlight highlights) as Hle.
    fold valid in Hle. lia.
Qed.

Lemma popup_import_filters_twice_witness :
  List.filter validateHighlight [example_long; example_h1] <> []
  /\ HighlightStorage.import (VArr [example_long; example_h1]) false
       (world_with [example_h2] 300)
     = (inr (VObj [("imported", VNum 1); ("skippedInvalid", VNum 0)]),
        {| store := {| highlights := Some [example_h1]; summaryCache := None |};
           clock := fun _ => 300; notified := 1 |}).
Proof.
  assert (Hne : List.filter validateHighlight [example_long; example_h1] <> [])
    by (vm_compute; discriminate).
  split; [exact Hne|].
  exact (proj1 (proj2 (popup_import_filters_twice [example_long; example_h1] false
                         (world_with [example_h2] 300))) Hne).
Defined.

(** ** The summary cache of the background *)

Lemma insert_by_Permutation {A} (rank : A -> Z) x l :
  insert_by rank x l ≡ₚ x :: l.
Proof.
  induction l as [|y l IH]; simpl; [reflexivity|].
  destruct (rank x <=? rank y); [reflexivity|].
  rewrite IH. apply Permutation_swap.
Qed.

Lemma sort_by_Permutation {A} (rank : A -> Z) l : sort_by rank l ≡ₚ l.
Proof.
  induction l as [|x l IH]; simpl; [reflexivity|].
  unfold sort_by in *. simpl. rewrite insert_by_Permutation. now rewrite IH.
Qed.

Lemma insert_by_ranked {A} (rank : A -> Z) x l :
  ranked rank l -> ranked rank (insert_by rank x l).
Proof.
  induction l as [|y l IH]; simpl; intros Hl.
  - split; [|exact I]. intros y Hy. now apply elem_of_nil in Hy.
  - destruct Hl as [Hy Hl]. destruct (Z.leb_spec (rank x) (rank y)) as [Hle|Hlt].
    + simpl. split; [|split; assumption].
      intros z Hz. apply elem_of_cons in Hz as [->|Hz]; [exact Hle|].
      specialize (Hy z Hz). lia.
    + simpl. split; [|now apply IH].
      intros z Hz. rewrite insert_by_Permutation in Hz.
      apply elem_of_cons in Hz as [->|Hz]; [lia|now apply Hy].
Qed.

Lemma sort_by_ranked {A} (rank : A -> Z) l : ranked rank (sort_by rank l).
Proof.
  induction l as [|x l IH]; simpl; [exact I|]. now apply insert_by_ranked.
Qed.

Lemma ranked_take_drop {A} (rank : A -> Z) l n x y :
  ranked rank l -> x ∈ take n l -> y ∈ drop n l -> rank x <= rank y.
Proof.
  revert n. induction l as [|z l IH]; intros n Hl Hx Hy.
  - rewrite take_nil in Hx. now apply elem_of_nil in Hx.
  - destruct Hl as [Hz Hl]. destruct n as [|n]; simpl in *.
    + now apply elem_of_nil in Hx.
    + apply elem_of_cons in Hx as [->|Hx].
      * apply Hz. exact (subseteq_drop n l y Hy).
      * eapply IH; eauto.
Qed.

Lemma enumerates_length keys cache :
  enumerates keys cache -> length keys = size cache.
Proof.
  revert cache. induction keys as [|k keys IH]; intros cache [Hnd Hdom].
  - simpl. symmetry. apply map_size_empty_iff. apply map_empty. intros i.
    destruct (cache !! i) eqn:Hi; [|reflexivity].
    assert (i ∈ @nil string) as Hin by (apply Hdom; eauto).
    now apply elem_of_nil in Hin.
  - apply NoDup_cons in Hnd as [Hk Hnd].
    assert (is_Some (cache !! k)) as Hsome by (apply Hdom; left).
    assert (enumerates keys (delete k cache)) as Henum.
    { split; [exact Hnd|]. intros i. rewrite lookup_delete_is_Some.
      split.
      - intros Hi. split; [intros ->; contradiction|]. apply Hdom. now right.
      - intros [Hne Hi]. apply Hdom in Hi. apply elem_of_cons in Hi as [->|Hi];
          [contradiction|exact Hi]. }
    simpl. rewrite (IH _ Henum). rewrite map_size_delete_Some by exact Hsome.
    destruct Hsome as [e He].
    assert (size cache <> 0%nat).
    { apply map_size_non_empty_iff. intros ->. now rewrite lookup_empty in He. }
    lia.
Qed.

Lemma size_foldr_delete (cache : gmap string summary_entry) js :
  NoDup js -> (forall j, j ∈ js -> is_Some (cache !! j)) ->
  size (foldr delete cache js) = (size cache - length js)%nat.
Proof.
  induction js as [|j js IH]; intros Hnd Hdom; simpl; [lia|].
  apply NoDup_cons in Hnd as [Hj Hnd].
  rewrite map_size_delete_Some.
  - rewrite IH; [lia|exact Hnd|]. intros i Hi. apply Hdom. now right.
  - rewrite lookup_foldr_delete_not_elem_of by exact Hj. apply Hdom. left.
Qed.

Lemma cacheSummary_below now cacheKeys cacheKey summary st :
  (length cacheKeys < MAX_SUMMARY_CACHE)%nat ->
  (cacheSummary now cacheKeys cacheKey summary st).2
  = {| highlights := highlights st;
       summaryCache :=
         Some (<[cacheKey := {| summary := summary; timestamp := now |}]>
                 (default ∅ (summaryCache st))) |}.
Proof.
  intros Hlt. unfold cacheSummary, modify. cbn [snd].
  destruct (Nat.leb_spec MAX_SUMMARY_CACHE (length cacheKeys)); [lia|reflexivity].
Qed.

Lemma cacheSummary_full now cacheKeys cacheKey summary st :
  (MAX_SUMMARY_CACHE <= length cacheKeys)%nat ->
  (cacheSummary now cacheKeys cacheKey summary st).2
  = {| highlights := highlights st;
       summaryCache :=
         Some (<[cacheKey := {| summary := summary; timestamp := now |}]>
                 (foldr delete (default ∅ (summaryCache st))
                    (take (length cacheKeys - 49)
                       (sort_by (timestamp_or_0 (default ∅ (summaryCache st)))
                          cacheKeys)))) |}.
Proof.
  intros Hle. unfold cacheSummary, modify. cbn [snd].
  destruct (Nat.leb_spec MAX_SUMMARY_CACHE (length cacheKeys)); [reflexivity|lia].
Qed.

(** The background's summary cache. After [cacheSummary] the cache holds
    at most 50 entries, whatever it held before, and the new summary is
    there under its key with the time of the write, so that a read
    within the next five minutes answers it. Below 50 entries nothing
    else changes. From 50 entries on, entries are deleted first until 49
    are left: other entries only ever disappear, never change, and those
    that disappear are the oldest, in that no deleted entry is younger
    than an old entry that is kept. The highlight list is not touched. *)
Theorem cacheSummary_bounded_evicts_oldest
    (now : Z) (cacheKeys : list string) (cacheKey summary : string) (st : storage) :
  let cache := default ∅ (summaryCache st) in
  let st' := (cacheSummary now cacheKeys cacheKey summary st).2 in
  let cache' := default ∅ (summaryCache st') in
  enumerates cacheKeys cache ->
  (size cache' <= MAX_SUMMARY_CACHE)%nat
  /\ cache' !! cacheKey = Some {| summary := summary; timestamp := now |}
  /\ (forall now', now' - now < SUMMARY_CACHE_TTL ->
        (getCachedSummary now' cacheKey st').1 = Some summary)
  /\ (forall k, k <> cacheKey -> cache' !! k = cache !! k \/ cache' !! k = None)
  /\ ((size cache < MAX_SUMMARY_CACHE)%nat ->
      forall k, k <> cacheKey -> cache' !! k = cache !! k)
  /\ ((MAX_SUMMARY_CACHE <= size cache)%nat -> (49 <= size cache')%nat)
  /\ (forall k1 k2 e1 e2,
        k1 <> cacheKey -> k2 <> cacheKey ->
        cache !! k1 = Some e1 -> cache' !! k1 = None ->
        cache' !! k2 = Some e2 ->
        timestamp e1 <= timestamp e2)
  /\ highlights st' = highlights st.
Proof.
  intros cache st' cache' Henum.
  pose proof (enumerates_length _ _ Henum) as Hlen.
  assert (Hread : cache' !! cacheKey = Some {| summary := summary; timestamp := now |}
                  -> forall now', now' - now < SUMMARY_CACHE_TTL ->
                     (getCachedSummary now' cacheKey st').1 = Some summary).
  { intros Hk now' Hfresh. unfold getCachedSummary, gets. cbn [fst].
    fold cache'. rewrite Hk. simpl.
    destruct (Z.ltb_spec (now' - now) SUMMARY_CACHE_TTL); [reflexivity|lia]. }
  destruct (Nat.lt_ge_cases (length cacheKeys) MAX_SUMMARY_CACHE) as [Hlt|Hge].
  - assert (Hc : cache' = <[cacheKey := {| summary := summary; timestamp := now |}]> cache).
    { unfold cache', st'. now rewrite cacheSummary_below. }
    assert (Hk : cache' !! cacheKey = Some {| summary := summary; timestamp := now |})
      by (rewrite Hc; apply lookup_insert_eq).
    assert (Hother : forall k, k <> cacheKey -> cache' !! k = cache !! k)
      by (intros k Hne; rewrite Hc; now apply lookup_insert_ne).
    split.
    { rewrite Hc, map_size_insert. destruct (cache !! cacheKey); simpl; lia. }
    split; [exact Hk|]. split; [now apply Hread|].
    split; [intros k Hne; left; now apply Hother|].
    split; [intros _; exact Hother|].
    split; [intros Hfull; lia|].
    split; [|unfold st'; now rewrite cacheSummary_below].
    intros k1 k2 e1 e2 Hn1 _ H1 H1' _. rewrite (Hother k1 Hn1) in H1'. congruence.
  - set (sorted := sort_by (timestamp_or_0 cache) cacheKeys).
    set (toDelete := take (length cacheKeys - 49) sorted).
    assert (Hc : cache' = <[cacheKey := {| summary := summary; timestamp := now |}]>
                            (foldr delete cache toDelete)).
    { unfold cache', st'. now rewrite cacheSummary_full. }
    assert (Hperm : sorted ≡ₚ cacheKeys) by apply sort_by_Permutation.
    destruct Henum as [Hnd Hdom].
    assert (Hnds : NoDup sorted) by now rewrite Hperm.
    assert (Hndd : NoDup toDelete)
      by (exact (sublist_NoDup _ _ Hnds (sublist_take sorted _))).
    assert (Hsub : forall j, j ∈ toDelete -> is_Some (cache !! j)).
    { intros j Hj. apply Hdom. rewrite <- Hperm.
      exact (subseteq_take _ _ j Hj). }
    assert (Hdel : length toDelete = (length cacheKeys - 49)%nat).
    { unfold toDelete. rewrite length_take, Hperm. lia. }
    assert (Hsize : size (foldr delete cache toDelete) = 49%nat).
    { rewrite size_foldr_delete by assumption. rewrite Hdel, <- Hlen.
      unfold MAX_SUMMARY_CACHE in Hge. lia. }
    assert (Hk : cache' !! cacheKey = Some {| summary := summary; timestamp := now |})
      by (rewrite Hc; apply lookup_insert_eq).
    assert (Hother : forall k, k <> cacheKey ->
                               cache' !! k = foldr delete cache toDelete !! k)
      by (intros k Hne; rewrite Hc; now apply lookup_insert_ne).
    assert (Hbound : (49 <= size cache' <= MAX_SUMMARY_CACHE)%nat).
    { rewrite Hc, map_size_insert. unfold MAX_SUMMARY_CACHE.
      destruct (foldr delete cache toDelete !! cacheKey); simpl; lia. }
    split; [lia|]. split; [exact Hk|]. split; [now apply Hread|].
    split.
    { intros k Hne. rewrite (Hother k Hne).
      destruct (decide (k ∈ toDelete)) as [Hin|Hout].
      - right. now apply lookup_foldr_delete.
      - left. now apply lookup_foldr_delete_not_elem_of. }
    split; [intros Hsmall; lia|]. split; [intros _; lia|].
    split; [|unfold st'; now rewrite cacheSummary_full].
    intros k1 k2 e1 e2 Hn1 Hn2 H1 H1' H2'.
    rewrite (Hother k1 Hn1) in H1'. rewrite (Hother k2 Hn2) in H2'.
    apply lookup_foldr_delete_Some in H2' as [Hout2 H2].
    assert (Hin1 : k1 ∈ toDelete).
    { destruct (decide (k1 ∈ toDelete)) as [Hin|Hout]; [exact Hin|].
      rewrite lookup_foldr_delete_not_elem_of in H1' by exact Hout. congruence. }
    assert (Hin2 : k2 ∈ drop (length cacheKeys - 49) sorted).
    { assert (k2 ∈ sorted) as Hs by (rewrite Hperm; apply Hdom; eauto).
      rewrite <- (take_drop (length cacheKeys - 49) sorted) in Hs.
      apply elem_of_app in Hs as [Hs|Hs]; [contradiction|exact Hs]. }
    pose proof (ranked_take_drop (timestamp_or_0 cache) sorted _ k1 k2
                  (sort_by_ranked _ _) Hin1 Hin2) as Hrank.
    unfold timestamp_or_0 in Hrank. now rewrite H1, H2 in Hrank.
Qed.

Lemma cacheSummary_bounded_evicts_oldest_witness :
  enumerates ["sum1"] (default ∅ (summaryCache expired_storage))
  /\ (size (default ∅ (summaryCache
              (cacheSummary 400000 ["sum1"] "sum2" "new summary" expired_storage).2))
      <= MAX_SUMMARY_CACHE)%nat.
Proof.
  assert (Henum : enumerates ["sum1"] (default ∅ (summaryCache expired_storage))).
  { split; [apply NoDup_singleton|]. intros k. simpl.
    rewrite list_elem_of_singleton. split.
    - intros ->. rewrite lookup_singleton_eq. eauto.
    - intros [e He]. apply lookup_singleton_Some in He as [Hk _].
      symmetry. exact Hk. }
  split; [exact Henum|].
  exact (proj1 (cacheSummary_bounded_evicts_oldest 400000 ["sum1"] "sum2"
                  "new summary" expired_storage Henum)).
Defined.

(** ** The periodic sweep of the content script's caches *)

Lemma is_expired_later now now' validity timestamp :
  now <= now' -> is_expired now validity timestamp = true ->
  (now' - timestamp <? validity) = false.
Proof.
  intros Hle. unfold is_expired. rewrite andb_true_iff, Z.ltb_lt.
  intros [_ Hold]. apply Z.ltb_ge. lia.
Qed.

Lemma is_expired_within now validity timestamp :
  now - timestamp <= validity -> is_expired now validity timestamp = false.
Proof.
  intros Hin. unfold is_expired. apply andb_false_iff. right.
  apply Z.ltb_ge. exact Hin.
Qed.

Lemma lookup_filter_kept {A} (P : string * A -> Prop) `{!forall x, Decision (P x)}
    (m : gmap string A) k :
  filter P m !! k =
    match m !! k with
    | Some x => if decide (P (k, x)) then Some x else None
    | None => None
    end.
Proof.
  destruct (m !! k) as [x|] eqn:Hk.
  - destruct (decide (P (k, x))) as [HP|HP].
    + apply map_lookup_filter_Some. auto.
    + apply map_lookup_filter_None. right. intros y Hy. congruence.
  - apply map_lookup_filter_None. left. exact Hk.
Qed.

Lemma cleanupExpiredCaches_later_read {node : Type}
    (now now' : Z) (cacheKey : string) (cm : CacheManager.t node) :
  now <= now' ->
  (CacheManager.getCachedTextNodes now' cacheKey (cleanupExpiredCaches now cm).2).1
  = (CacheManager.getCachedTextNodes now' cacheKey cm).1.
Proof.
  intros Hle. unfold cleanupExpiredCaches, modify. cbn [snd].
  unfold CacheManager.getCachedTextNodes, gets.
  cbn [fst CacheManager.textNodeCache].
  rewrite lookup_filter_kept.
  destruct (CacheManager.textNodeCache cm !! cacheKey) as [e|]; [|reflexivity].
  cbn [snd]. destruct (decide _) as [Hkeep|Hgo]; [reflexivity|].
  apply not_false_is_true in Hgo.
  now rewrite (is_expired_later now now' _ _ Hle Hgo).
Qed.

(** The sweep of expired entries. [cleanupExpiredCaches(now)] cannot be
    told from outside at any later time: every read of the text-node
    cache and of the summary cache at [now' >= now] answers what it
    would have answered without the sweep. The sweep leaves the request
    registry as it is, keeps every entry that is not older than its
    validity (30 s for text nodes, 5 min for summaries), and leaves no
    entry with a timestamp other than 0 that is older. *)
Theorem cleanupExpiredCaches_invisible {node : Type}
    (now now' : Z) (cacheKey : string) (cm : CacheManager.t node) :
  now <= now' ->
  let cm' := (cleanupExpiredCaches now cm).2 in
  (CacheManager.getCachedTextNodes now' cacheKey cm').1
  = (CacheManager.getCachedTextNodes now' cacheKey cm).1
  /\ (CacheManager.getCachedSummary now' cacheKey cm').1
     = (CacheManager.getCachedSummary now' cacheKey cm).1
  /\ CacheManager.apiRequestQueue cm' = CacheManager.apiRequestQueue cm
  /\ (forall k e, CacheManager.textNodeCache cm !! k = Some e ->
        now - CacheManager.nodes_timestamp e <= CacheManager.cacheValidityDuration ->
        CacheManager.textNodeCache cm' !! k = Some e)
  /\ (forall k e, CacheManager.summaryCache cm !! k = Some e ->
        now - timestamp e <= 300000 ->
        CacheManager.summaryCache cm' !! k = Some e)
  /\ (forall k e, CacheManager.textNodeCache cm' !! k = Some e ->
        CacheManager.textNodeCache cm !! k = Some e
        /\ (CacheManager.nodes_timestamp e = 0
            \/ now - CacheManager.nodes_timestamp e
               <= CacheManager.cacheValidityDuration))
  /\ (forall k e, CacheManager.summaryCache cm' !! k = Some e ->
        CacheManager.summaryCache cm !! k = Some e
        /\ (timestamp e = 0 \/ now - timestamp e <= 300000)).
Proof.
  intros Hle cm'.
  unfold cm', cleanupExpiredCaches, modify. cbn [snd].
  unfold CacheManager.getCachedTextNodes, CacheManager.getCachedSummary, gets.
  cbn [fst CacheManager.textNodeCache CacheManager.summaryCache
       CacheManager.apiRequestQueue].
  split; [|split; [|split; [reflexivity|split; [|split; [|split]]]]].
  - rewrite lookup_filter_kept.
    destruct (CacheManager.textNodeCache cm !! cacheKey) as [e|]; [|reflexivity].
    cbn [snd]. destruct (decide _) as [Hkeep|Hgo]; [reflexivity|].
    apply not_false_is_true in Hgo.
    now rewrite (is_expired_later now now' _ _ Hle Hgo).
  - rewrite lookup_filter_kept.
    destruct (CacheManager.summaryCache cm !! cacheKey) as [e|]; [|reflexivity].
    cbn [snd]. destruct (decide _) as [Hkeep|Hgo]; [reflexivity|].
    apply not_false_is_true in Hgo.
    now rewrite (is_expired_later now now' _ _ Hle Hgo).
  - intros k e Hk Hin. apply map_lookup_filter_Some. split; [exact Hk|].
    now apply is_expired_within.
  - intros k e Hk Hin. apply map_lookup_filter_Some. split; [exact Hk|].
    now apply is_expired_within.
  - intros k e Hk. apply map_lookup_filter_Some in Hk as [Hk Hkeep].
    split; [exact Hk|]. cbn [snd] in Hkeep. unfold is_expired in Hkeep.
    apply andb_false_iff in Hkeep as [Hz|Hin].
    + left. apply negb_false_iff in Hz. now apply Z.eqb_eq.
    + right. now apply Z.ltb_ge.
  - intros k e Hk. apply map_lookup_filter_Some in Hk as [Hk Hkeep].
    split; [exact Hk|]. cbn [snd] in Hkeep. unfold is_expired in Hkeep.
    apply andb_false_iff in Hkeep as [Hz|Hin].
    + left. apply negb_false_iff in Hz. now apply Z.eqb_eq.
    + right. now apply Z.ltb_ge.
Qed.

Lemma cleanupExpiredCaches_invisible_witness :
  40000 <= 50000
  /\ (CacheManager.getCachedTextNodes 50000 "key1"
        (cleanupExpiredCaches 40000 expired_nodes).2).1
     = (CacheManager.getCachedTextNodes 50000 "key1" expired_nodes).1.
Proof.
  assert (Hle : 40000 <= 50000) by lia.
  split; [exact Hle|].
  exact (proj1 (cleanupExpiredCaches_invisible 40000 50000 "key1" expired_nodes Hle)).
Defined.

(** The text-node cache, written at [t] and read at [r]: the read
    answers the nodes that were written when less than 30 s have gone by
    since the write, and nothing otherwise. A sweep at [s <= r] in
    between and a write under another key do not change the answer, and
    the write does not change what is read under another key. *)
Theorem cacheTextNodes_then_read {node : Type}
    (t s r : Z) (cacheKey other : string) (nodes nodes' : list node)
    (cm : CacheManager.t node) :
  s <= r -> other <> cacheKey ->
  let written := (CacheManager.cacheTextNodes t cacheKey nodes cm).2 in
  (CacheManager.getCachedTextNodes r cacheKey written).1
  = (if r - t <? CacheManager.cacheValidityDuration then Some nodes else None)
  /\ (CacheManager.getCachedTextNodes r cacheKey
        (cleanupExpiredCaches s written).2).1
     = (if r - t <? CacheManager.cacheValidityDuration then Some nodes else None)
  /\ (CacheManager.getCachedTextNodes r cacheKey
        (CacheManager.cacheTextNodes s other nodes' written).2).1
     = (if r - t <? CacheManager.cacheValidityDuration then Some nodes else None)
  /\ (CacheManager.getCachedTextNodes r other written).1
     = (CacheManager.getCachedTextNodes r other cm).1.
Proof.
  intros Hsr Hne written.
  assert (Hread : (CacheManager.getCachedTextNodes r cacheKey written).1
                  = (if r - t <? CacheManager.cacheValidityDuration
                     then Some nodes else None)).
  { unfold written, CacheManager.getCachedTextNodes, CacheManager.cacheTextNodes,
      gets, modify. simpl. now rewrite lookup_insert_eq. }
  split; [exact Hread|]. split; [|split].
  - pose proof (cleanupExpiredCaches_later_read s r cacheKey written Hsr) as Hsame.
    now rewrite Hsame.
  - unfold written, CacheManager.getCachedTextNodes, CacheManager.cacheTextNodes,
      gets, modify. simpl.
    rewrite lookup_insert_ne by exact Hne. now rewrite lookup_insert_eq.
  - unfold written, CacheManager.getCachedTextNodes, CacheManager.cacheTextNodes,
      gets, modify. simpl.
    now rewrite lookup_insert_ne by (intros Heq; apply Hne; now symmetry).
Qed.

Lemma cacheTextNodes_then_read_witness :
  2000 <= 20000 /\ "key2" <> "key1"
  /\ (CacheManager.getCachedTextNodes 20000 "key1"
        (cleanupExpiredCaches 2000
           (CacheManager.cacheTextNodes 1000 "key1" [3%nat; 4%nat]
              expired_nodes).2).2).1
     = Some [3%nat; 4%nat].
Proof.
  assert (Hsr : 2000 <= 20000) by lia.
  assert (Hne : "key2" <> "key1") by discriminate.
  split; [exact Hsr|]. split; [exact Hne|].
  exact (proj1 (proj2 (cacheTextNodes_then_read 1000 2000 20000 "key1" "key2"
                         [3%nat; 4%nat] [] expired_nodes Hsr Hne))).
Defined.

(** ** The size limit of the content script's caches *)

Lemma collect_spec t count entries oldestKeys :
  collect t count entries oldestKeys
  = oldestKeys ++ firstn (Nat.max 1 (count - length oldestKeys)) (keys_at t entries).
Proof.
  revert oldestKeys. induction entries as [|[key timestamp] rest IH];
    intros oldestKeys; simpl.
  - unfold keys_at. simpl. rewrite firstn_nil. now rewrite app_nil_r.
  - unfold keys_at. simpl. destruct (is_timestamp timestamp t); simpl.
    + rewrite length_app. simpl length.
      destruct (Nat.leb_spec count (length oldestKeys + 1)) as [Hle|Hgt].
      * replace (Nat.max 1 (count - length oldestKeys)) with 1%nat by lia.
        reflexivity.
      * rewrite IH, length_app. simpl length. rewrite <- app_assoc. simpl.
        replace (Nat.max 1 (count - length oldestKeys))
          with (S (Nat.max 1 (count - (length oldestKeys + 1)))) by lia.
        reflexivity.
    + apply IH.
Qed.

Lemma findOldestEntries_spec entries count :
  findOldestEntries entries count
  = firstn count (keys_at (least entries) entries
                  ++ keys_at (least_above (least entries) entries) entries).
Proof.
  unfold findOldestEntries. fold (least entries).
  fold (least_above (least entries) entries).
  rewrite !collect_spec. simpl app. simpl length. rewrite Nat.sub_0_r.
  set (B1 := keys_at (least entries) entries).
  set (B2 := keys_at (least_above (least entries) entries) entries).
  destruct (Nat.ltb_spec (length (firstn (Nat.max 1 count) B1)) count) as [Hlt|Hge].
  - rewrite length_firstn in Hlt.
    assert (Hall : (length B1 <= Nat.max 1 count)%nat) by lia.
    rewrite (take_ge B1 (Nat.max 1 count)) by exact Hall.
    assert (Hc : (length B1 < count)%nat) by lia.
    rewrite !firstn_app. rewrite (take_ge B1 count) by lia.
    f_equal. rewrite firstn_firstn. f_equal. lia.
  - rewrite length_firstn in Hge. rewrite firstn_firstn.
    replace (Nat.min count (Nat.max 1 count)) with count by lia.
    rewrite firstn_app. replace (count - length B1)%nat with 0%nat by lia.
    simpl. now rewrite app_nil_r.
Qed.

Lemma fold_least entries acc :
  let r := fold_left (fun oldestTimestamp (entry : string * Z) =>
                        if below entry.2 oldestTimestamp then Some entry.2
                        else oldestTimestamp) entries acc in
  (r = acc \/ exists e, In e entries /\ r = Some e.2)
  /\ (forall e, In e entries -> below e.2 r = false)
  /\ (forall a, acc = Some a -> below a r = false /\ r <> None).
Proof.
  revert acc. induction entries as [|e entries IH]; intros acc; simpl.
  - split; [auto|]. split; [tauto|]. intros a ->. simpl.
    split; [apply Z.ltb_irrefl|discriminate].
  - destruct (below e.2 acc) eqn:Hb.
    + destruct (IH (Some e.2)) as (Hr & Hall & Hacc).
      destruct (Hacc _ eq_refl) as [He Hsome].
      split; [|split].
      * right. destruct Hr as [Hr|(e' & Hin & Hr)]; eauto.
      * intros e' [<-|Hin]; auto.
      * intros a ->. split; [|exact Hsome]. simpl in Hb.
        destruct (fold_left _ entries (Some e.2)) as [x|]; [|contradiction].
        simpl in *. apply Z.ltb_ge. apply Z.ltb_ge in He. apply Z.ltb_lt in Hb. lia.
    + destruct (IH acc) as (Hr & Hall & Hacc).
      destruct acc as [a|]; [|discriminate]. simpl in Hb.
      destruct (Hacc a eq_refl) as [Ha Hsome].
      split; [|split].
      * destruct Hr as [Hr|(e' & Hin & Hr)]; eauto.
      * intros e' [<-|Hin]; auto.
        destruct (fold_left _ entries (Some a)) as [x|]; [|contradiction].
        simpl in *. apply Z.ltb_ge. apply Z.ltb_ge in Ha. apply Z.ltb_ge in Hb. lia.
      * intros a' [= <-]. auto.
Qed.

Lemma least_spec entries :
  match least entries with
  | None => entries = []
  | Some t => (exists k, In (k, t) entries) /\ forall e, In e entries -> t <= e.2
  end.
Proof.
  destruct (fold_least entries None) as (Hr & Hall & _). fold (least entries) in *.
  destruct (least entries) as [t|].
  - split.
    + destruct Hr as [Hr|([k t'] & Hin & [= ->])]; [discriminate|eauto].
    + intros e Hin. specialize (Hall e Hin). simpl in Hall.
      now apply Z.ltb_ge in Hall.
  - destruct entries as [|e entries]; [reflexivity|].
    specialize (Hall e (or_introl eq_refl)). discriminate.
Qed.

Lemma fold_least_above bound entries acc :
  let r := fold_left (fun nextOldestTimestamp (entry : string * Z) =>
                        if above entry.2 bound && below entry.2 nextOldestTimestamp
                        then Some entry.2 else nextOldestTimestamp) entries acc in
  (r = acc \/ exists e, In e entries /\ above e.2 bound = true /\ r = Some e.2)
  /\ (forall e, In e entries -> above e.2 bound = true -> below e.2 r = false)
  /\ (forall a, acc = Some a -> below a r = false /\ r <> None).
Proof.
  revert acc. induction entries as [|e entries IH]; intros acc; simpl.
  - split; [auto|]. split; [tauto|]. intros a ->. simpl.
    split; [apply Z.ltb_irrefl|discriminate].
  - destruct (above e.2 bound && below e.2 acc) eqn:Hb.
    + apply andb_true_iff in Hb as [Hab Hb].
      destruct (IH (Some e.2)) as (Hr & Hall & Hacc).
      destruct (Hacc _ eq_refl) as [He Hsome].
      split; [|split].
      * right. destruct Hr as [Hr|(e' & Hin & Hr)]; eauto.
      * intros e' [<-|Hin]; auto.
      * intros a ->. split; [|exact Hsome]. simpl in Hb.
        destruct (fold_left _ entries (Some e.2)) as [x|]; [|contradiction].
        simpl in *. apply Z.ltb_ge. apply Z.ltb_ge in He. apply Z.ltb_lt in Hb. lia.
    + destruct (IH acc) as (Hr & Hall & Hacc).
      split; [|split].
      * destruct Hr as [Hr|(e' & Hin & Hr)]; eauto.
      * intros e' [<-|Hin] Hab; auto. rewrite Hab in Hb. simpl in Hb.
        destruct acc as [a|]; [|discriminate]. simpl in Hb.
        destruct (Hacc a eq_refl) as [Ha Hsome].
        destruct (fold_left _ entries (Some a)) as [x|]; [|contradiction].
        simpl in *. apply Z.ltb_ge. apply Z.ltb_ge in Ha. apply Z.ltb_ge in Hb. lia.
      * intros a Ha. auto.
Qed.

Lemma least_above_spec t1 entries :
  match least_above (Some t1) entries with
  | None => forall e, In e entries -> e.2 <= t1
  | Some t2 =>
      t1 < t2 /\ (exists k, In (k, t2) entries)
      /\ forall e, In e entries -> t1 < e.2 -> t2 <= e.2
  end.
Proof.
  destruct (fold_least_above (Some t1) entries None) as (Hr & Hall & _).
  fold (least_above (Some t1) entries) in *.
  destruct (least_above (Some t1) entries) as [t2|].
  - destruct Hr as [Hr|([k t'] & Hin & Hab & [= ->])]; [discriminate|].
    simpl in Hab. apply Z.ltb_lt in Hab. split; [exact Hab|]. split; [eauto|].
    intros e Hin' Hlt. specialize (Hall e Hin'). simpl in Hall.
    apply Z.ltb_ge. apply Hall. now apply Z.ltb_lt.
  - intros e Hin. specialize (Hall e Hin). simpl in Hall.
    destruct (Z.ltb_spec t1 e.2) as [Hlt|Hge]; [|exact Hge].
    specialize (Hall eq_refl). discriminate.
Qed.

Lemma In_keys_at t entries k :
  In k (keys_at t entries) <->
  exists timestamp, In (k, timestamp) entries /\ t = Some timestamp.
Proof.
  unfold keys_at. rewrite in_map_iff. split.
  - intros ([k' timestamp] & <- & Hin). apply List.filter_In in Hin as [Hin Ht].
    destruct t as [t|]; simpl in Ht; [|discriminate].
    apply Z.eqb_eq in Ht. subst. eauto.
  - intros (timestamp & Hin & ->). exists (k, timestamp). split; [reflexivity|].
    apply List.filter_In. split; [exact Hin|]. simpl. apply Z.eqb_refl.
Qed.

Lemma size_foldr_delete_keys {A} (cache : gmap string A) js :
  NoDup js -> (forall j, j ∈ js -> is_Some (cache !! j)) ->
  size (foldr delete cache js) = (size cache - length js)%nat.
Proof.
  induction js as [|j js IH]; intros Hnd Hdom; simpl; [lia|].
  apply NoDup_cons in Hnd as [Hj Hnd].
  rewrite map_size_delete_Some.
  - rewrite IH; [lia|exact Hnd|]. intros i Hi. apply Hdom. now right.
  - rewrite lookup_foldr_delete_not_elem_of by exact Hj. apply Hdom. left.
Qed.

Lemma NoDup_keys_at t entries :
  NoDup (map fst entries) -> NoDup (keys_at t entries).
Proof.
  unfold keys_at. induction entries as [|[k ts] entries IH]; simpl; intros Hnd.
  - constructor.
  - apply NoDup_cons in Hnd as [Hk Hnd]. destruct (is_timestamp ts t); simpl; auto.
    apply NoDup_cons. split; [|auto]. intros Hin. apply Hk.
    apply list_elem_of_In. apply list_elem_of_In in Hin.
    apply in_map_iff in Hin as (e & He & Hin). apply in_map_iff. exists e.
    split; [exact He|]. now apply List.filter_In in Hin as [Hin _].
Qed.

Lemma keys_at_distinct t entries :
  List.NoDup (map snd entries) -> (length (keys_at t entries) <= 1)%nat.
Proof.
  unfold keys_at. induction entries as [|[k ts] entries IH]; simpl; intros Hnd;
    [lia|].
  inversion Hnd as [|? ? Hts Hnd']; subst.
  destruct (is_timestamp ts t) eqn:Ht; simpl; [|auto].
  rewrite (filter_none (fun entry => is_timestamp entry.2 t) entries); [simpl; lia|].
  intros [k' ts'] Hin. simpl. destruct (is_timestamp ts' t) eqn:Ht'; [|reflexivity].
  exfalso. apply Hts. destruct t as [t|]; simpl in *; [|discriminate].
  apply Z.eqb_eq in Ht, Ht'. subst. apply in_map_iff. exists (k', t). auto.
Qed.

Lemma keys_at_nonempty t entries k :
  In (k, t) entries -> (1 <= length (keys_at (Some t) entries))%nat.
Proof.
  intros Hin. assert (In k (keys_at (Some t) entries)) as Hk
    by (apply In_keys_at; eauto).
  destruct (keys_at (Some t) entries); [contradiction|simpl; lia].
Qed.

Lemma another_timestamp (l : list (string * Z)) k t :
  List.NoDup (map snd l) -> (2 <= length l)%nat -> In (k, t) l ->
  exists k' t', In (k', t') l /\ t' <> t.
Proof.
  destruct l as [|[ka ta] [|[kb tb] rest]]; simpl; try lia.
  intros Hnd _ _. inversion Hnd as [|? ? Hnot _]; subst.
  assert (ta <> tb) by (intros ->; apply Hnot; now left).
  destruct (Z.eq_dec ta t) as [->|Hne].
  - exists kb, tb. split; [auto|congruence].
  - exists ka, ta. auto.
Qed.

(** The size limit. [limitCacheSize] leaves a cache within its limit
    alone. Over the limit it deletes entries among those with the
    oldest and the second-oldest timestamp only: as many as the cache
    is over, when those two groups hold that many, and the two groups
    otherwise. Entries only ever disappear, and oldest first: no
    deleted entry is younger than a kept one. So a cache whose
    timestamps are all different and that is three or more over its
    limit loses two entries and is still over the limit. *)
Theorem limitCacheSize_two_oldest_groups {A : Type} (timestamp_of : A -> Z)
    (entries : list (string * A)) (maxSize : nat) (cache : gmap string A) :
  entries ≡ₚ map_to_list cache ->
  let dated := map (fun entry => (entry.1, timestamp_of entry.2)) entries in
  let oldest := keys_at (least dated) dated in
  let next := keys_at (least_above (least dated) dated) dated in
  let cache' := limitCacheSize timestamp_of entries maxSize cache in
  ((size cache <= maxSize)%nat -> cache' = cache)
  /\ size cache'
     = (size cache
        - Nat.min (size cache - maxSize) (length oldest + length next))%nat
  /\ (forall k v, cache' !! k = Some v -> cache !! k = Some v)
  /\ (forall k1 k2 v1 v2,
        cache !! k1 = Some v1 -> cache' !! k1 = None ->
        cache' !! k2 = Some v2 ->
        timestamp_of v1 <= timestamp_of v2)
  /\ (List.NoDup (map snd dated) -> (maxSize + 2 < size cache)%nat ->
      size cache' = (size cache - 2)%nat /\ (maxSize < size cache')%nat).
Proof.
  intros Hperm dated oldest next cache'.
  assert (Hin : forall k t, In (k, t) dated <->
                            exists v, cache !! k = Some v /\ t = timestamp_of v).
  { intros k t. unfold dated. rewrite in_map_iff. split.
    - intros ([k' v] & [= <- <-] & Hin). exists v. split; [|reflexivity].
      apply elem_of_map_to_list. rewrite <- Hperm. now apply list_elem_of_In.
    - intros (v & Hk & ->). exists (k, v). split; [reflexivity|].
      apply list_elem_of_In. rewrite Hperm. now apply elem_of_map_to_list. }
  assert (Hlen : length entries = size cache).
  { rewrite Hperm. apply length_map_to_list. }
  assert (Hkeys : NoDup (map fst dated)).
  { unfold dated. rewrite map_map. simpl.
    change (NoDup (entries.*1)). rewrite Hperm. apply NoDup_fst_map_to_list. }
  assert (Hat : forall t k, In k (keys_at t dated) <->
                            exists v, cache !! k = Some v /\ t = Some (timestamp_of v)).
  { intros t k. rewrite In_keys_at. split.
    - intros (ts & Hk & ->). apply Hin in Hk as (v & Hk & ->). eauto.
    - intros (v & Hk & ->). exists (timestamp_of v). split; [|reflexivity].
      apply Hin. eauto. }
  assert (Hdisj : forall k, k ∈ oldest -> k ∉ next).
  { intros k H1 H2. apply list_elem_of_In in H1, H2.
    apply Hat in H1 as (v1 & Hk1 & Ht1). apply Hat in H2 as (v2 & Hk2 & Ht2).
    rewrite Hk1 in Hk2. injection Hk2 as <-. rewrite Ht1 in Ht2.
    pose proof (least_above_spec (timestamp_of v1) dated) as Hspec.
    rewrite Ht2 in Hspec. lia. }
  assert (Hnd : NoDup (oldest ++ next)).
  { apply NoDup_app. split; [now apply NoDup_keys_at|].
    split; [exact Hdisj|now apply NoDup_keys_at]. }
  set (count := (size cache - maxSize)%nat).
  set (removed := firstn count (oldest ++ next)).
  assert (Hndr : NoDup removed)
    by (exact (sublist_NoDup _ _ Hnd (sublist_take _ _))).
  assert (Hdom : forall j, j ∈ removed -> is_Some (cache !! j)).
  { intros j Hj. apply (subseteq_take count) in Hj.
    apply elem_of_app in Hj as [Hj|Hj]; apply list_elem_of_In, Hat in Hj;
      destruct Hj as (v & Hk & _); eauto. }
  assert (Hover : (maxSize < size cache)%nat ->
                  cache' = foldr delete cache removed).
  { intros Hgt. unfold cache', limitCacheSize.
    destruct (Nat.leb_spec (size cache) maxSize); [lia|].
    now rewrite findOldestEntries_spec. }
  assert (Hunder : (size cache <= maxSize)%nat -> cache' = cache).
  { intros Hle. unfold cache', limitCacheSize.
    destruct (Nat.leb_spec (size cache) maxSize); [reflexivity|lia]. }
  assert (Hsize : size cache'
                  = (size cache
                     - Nat.min (size cache - maxSize)
                         (length oldest + length next))%nat).
  { destruct (Nat.le_gt_cases (size cache) maxSize) as [Hle|Hgt].
    - rewrite (Hunder Hle). lia.
    - rewrite (Hover Hgt), size_foldr_delete_keys by assumption.
      unfold removed. rewrite length_firstn, length_app. reflexivity. }
  split; [exact Hunder|]. split; [exact Hsize|]. split; [|split].
  - intros k v Hk. destruct (Nat.le_gt_cases (size cache) maxSize) as [Hle|Hgt].
    + now rewrite (Hunder Hle) in Hk.
    + rewrite (Hover Hgt) in Hk. now apply lookup_foldr_delete_Some in Hk.
  - intros k1 k2 v1 v2 H1 H1' H2'.
    destruct (Nat.le_gt_cases (size cache) maxSize) as [Hle|Hgt].
    { rewrite (Hunder Hle) in H1'. congruence. }
    rewrite (Hover Hgt) in H1', H2'.
    apply lookup_foldr_delete_Some in H2' as [Hout2 H2].
    assert (Hin1 : k1 ∈ removed).
    { destruct (decide (k1 ∈ removed)) as [Hi|Ho]; [exact Hi|].
      rewrite lookup_foldr_delete_not_elem_of in H1' by exact Ho. congruence. }
    assert (Hd2 : In (k2, timestamp_of v2) dated) by (apply Hin; eauto).
    unfold removed in Hin1, Hout2. rewrite firstn_app in Hin1, Hout2.
    apply elem_of_app in Hin1 as [Hin1|Hin1].
    + apply (subseteq_take count) in Hin1.
      apply list_elem_of_In, Hat in Hin1 as (v & Hk & Ht).
      rewrite H1 in Hk. injection Hk as <-.
      pose proof (least_spec dated) as Hspec. rewrite Ht in Hspec.
      destruct Hspec as [_ Hmin]. exact (Hmin _ Hd2).
    + assert (Hc : (length oldest < count)%nat).
      { destruct (Nat.le_gt_cases count (length oldest)) as [Hle|Hlt]; [|exact Hlt].
        replace (count - length oldest)%nat with 0%nat in Hin1 by lia.
        now apply elem_of_nil in Hin1. }
      apply (subseteq_take (count - length oldest)) in Hin1.
      apply list_elem_of_In, Hat in Hin1 as (v & Hk & Ht).
      rewrite H1 in Hk. injection Hk as <-.
      rewrite (take_ge oldest count) in Hout2 by lia.
      assert (Hnot : k2 ∉ oldest) by (intros Hk2; apply Hout2, elem_of_app; auto).
      destruct (least dated) as [t1|] eqn:Hleast.
      2: { pose proof (least_spec dated) as Hspec. rewrite Hleast in Hspec.
           rewrite Hspec in Hd2. contradiction. }
      pose proof (least_spec dated) as Hspec1. rewrite Hleast in Hspec1.
      destruct Hspec1 as [_ Hmin].
      pose proof (least_above_spec t1 dated) as Hspec. rewrite Ht in Hspec.
      destruct Hspec as (_ & _ & Hnext).
      apply (Hnext _ Hd2). pose proof (Hmin _ Hd2) as Hle. simpl in Hle |- *.
      destruct (Z.eq_dec t1 (timestamp_of v2)) as [Heq|Hne]; [|lia].
      exfalso. apply Hnot. unfold oldest. rewrite ?Hleast.
      apply list_elem_of_In, Hat. exists v2. split; [exact H2|]. now rewrite Heq.
  - intros Hdist Hbig.
    assert (H1 : length oldest = 1%nat /\ length next = 1%nat).
    { pose proof (keys_at_distinct (least dated) dated Hdist) as Hle1.
      pose proof (keys_at_distinct (least_above (least dated) dated) dated Hdist)
        as Hle2. fold oldest in Hle1. fold next in Hle2.
      pose proof (least_spec dated) as Hspec1.
      destruct (least dated) as [t1|] eqn:Hleast.
      2: { exfalso. apply (f_equal (@length _)) in Hspec1. unfold dated in Hspec1.
           rewrite length_map in Hspec1. simpl in Hspec1. lia. }
      destruct Hspec1 as [[k1 Hk1] Hmin].
      pose proof (keys_at_nonempty t1 dated k1 Hk1) as Hge1.
      pose proof (least_above_spec t1 dated) as Hspec2.
      destruct (least_above (Some t1) dated) as [t2|] eqn:Hnext.
      - destruct Hspec2 as (_ & [k2 Hk2] & _).
        pose proof (keys_at_nonempty t2 dated k2 Hk2) as Hge2.
        unfold oldest, next in *. rewrite ?Hleast, ?Hnext in *. lia.
      - destruct (another_timestamp dated k1 t1 Hdist) as (k' & t' & Hin' & Hne);
          [unfold dated; rewrite length_map; lia|exact Hk1|].
        pose proof (Hmin _ Hin') as Hl. pose proof (Hspec2 _ Hin') as Hu.
        simpl in *. lia. }
    destruct H1 as [Ho Hn]. rewrite Hsize, Ho, Hn. lia.
Qed.

Lemma limitCacheSize_two_oldest_groups_witness :
  map_to_list ({[ "a" := 1; "b" := 2; "c" := 3 ]} : gmap string Z)
  ≡ₚ map_to_list ({[ "a" := 1; "b" := 2; "c" := 3 ]} : gmap string Z)
  /\ forall k v,
       limitCacheSize (fun t : Z => t)
         (map_to_list ({[ "a" := 1; "b" := 2; "c" := 3 ]} : gmap string Z)) 1
         {[ "a" := 1; "b" := 2; "c" := 3 ]} !! k = Some v ->
       ({[ "a" := 1; "b" := 2; "c" := 3 ]} : gmap string Z) !! k = Some v.
Proof.
  assert (Hperm : map_to_list ({[ "a" := 1; "b" := 2; "c" := 3 ]} : gmap string Z)
                  ≡ₚ map_to_list ({[ "a" := 1; "b" := 2; "c" := 3 ]} : gmap string Z))
    by reflexivity.
  split; [exact Hperm|].
  exact (proj1 (proj2 (proj2
    (limitCacheSize_two_oldest_groups (fun t : Z => t) _ 1 _ Hperm)))).
Defined.

Example limitCacheSize_three_over :
  size (limitCacheSize (fun t : Z => t)
          [("a", 10); ("b", 20); ("c", 30); ("d", 40)] 1
          ({[ "a" := 10; "b" := 20; "c" := 30; "d" := 40 ]} : gmap string Z))
  = 2%nat.
Proof. vm_compute. reflexivity. Qed.

(** ** The registry after [cleanup()] *)

(** [cleanup()] and a request in flight. [cleanup()] clears the request
    registry along with the caches, and the page may live on (the
    [cleanup] message). A call of [summarizeHighlight] made after it
    finds neither a summary nor a registered request, so it sends a
    request of its own although the earlier request for the same key is
    not answered yet: two requests for one key are then in flight, and
    only the later one is registered. *)
Theorem cleanup_forgets_request_in_flight
    (pg : AIUtils.page) (now : Z) (highlight : ai_highlight) (promise : nat) :
  AIUtils.pending_for pg promise (CacheManager.generateSummaryCacheKey highlight) ->
  let cacheKey := CacheManager.generateSummaryCacheKey highlight in
  let cleaned := (AIUtils.on_cacheManager cleanup pg).2 in
  let after := AIUtils.summarizeHighlight now highlight cleaned in
  after.1 = AIUtils.AwaitsOwn (length (AIUtils.requests pg)) cacheKey
  /\ AIUtils.pending_for after.2 promise cacheKey
  /\ AIUtils.pending_for after.2 (length (AIUtils.requests pg)) cacheKey
  /\ promise <> length (AIUtils.requests pg)
  /\ AIUtils.registered after.2 cacheKey = Some (length (AIUtils.requests pg))
  /\ (forall k, AIUtils.registered cleaned k = None)
  /\ (forall k t, (CacheManager.getCachedSummary t k
                     (AIUtils.cacheManager cleaned)).1 = None).
Proof.
  intros (r & Hr & Hans & Hkey) cacheKey cleaned after.
  assert (Hlt : (promise < length (AIUtils.requests pg))%nat)
    by (apply lookup_lt_is_Some; eauto).
  assert (Hafter :
    after = (AIUtils.AwaitsOwn (length (AIUtils.requests pg)) cacheKey,
             {| AIUtils.cacheManager :=
                  CacheManager.set_apiRequestQueue
                    (insert cacheKey (length (AIUtils.requests pg)))
                    CacheManager.empty;
                AIUtils.requests :=
                  AIUtils.requests pg
                  ++ [{| AIUtils.request_key := cacheKey;
                         AIUtils.request_highlight := highlight;
                         AIUtils.answer := None |}];
                AIUtils.callers := AIUtils.callers pg |})) by reflexivity.
  rewrite Hafter. cbn [fst snd].
  split; [reflexivity|]. split; [|split; [|split; [|split; [|split]]]].
  - exists r. split; [|auto]. cbn [AIUtils.requests].
    rewrite lookup_app_l by exact Hlt. exact Hr.
  - eexists. split.
    + cbn [AIUtils.requests]. rewrite lookup_app_r by lia.
      rewrite Nat.sub_diag. reflexivity.
    + split; reflexivity.
  - lia.
  - unfold AIUtils.registered. cbn. apply lookup_insert_eq.
  - intros k. unfold AIUtils.registered. apply lookup_empty.
  - intros k t. reflexivity.
Qed.

Lemma cleanup_forgets_request_in_flight_witness :
  AIUtils.pending_for AIUtils.one_waiting 0
    (CacheManager.generateSummaryCacheKey (page_a "Hello, world"))
  /\ (AIUtils.summarizeHighlight 1000 (page_a "Hello, world")
        (AIUtils.on_cacheManager cleanup AIUtils.one_waiting).2).1
     = AIUtils.AwaitsOwn 1
         (CacheManager.generateSummaryCacheKey (page_a "Hello, world")).
Proof.
  assert (Hp : AIUtils.pending_for AIUtils.one_waiting 0
                 (CacheManager.generateSummaryCacheKey (page_a "Hello, world"))).
  { eexists. split; [reflexivity|]. split; reflexivity. }
  split; [exact Hp|].
  exact (proj1 (cleanup_forgets_request_in_flight AIUtils.one_waiting 1000
                  (page_a "Hello, world") 0%nat Hp)).
Defined.

(** ** Work in chunks, and the pages of the popup's list *)






Example processInChunks_twelve :
  EventUtils.processInChunks 12 (seq 0 12) 5
  = Some [[0; 1; 2; 3; 4]; [5; 6; 7; 8; 9]; [10; 11]]%nat.
Proof. reflexivity. Qed.



(** ** Strings *)

Lemma trimEnd_idempotent s : trimEnd (trimEnd s) = trimEnd s.
Proof.
  induction s as [|c rest IH]; [reflexivity|]. simpl.
  destruct (trimEnd rest) as [|c' kept] eqn:Hrest.
  - destruct (is_white_space c) eqn:Hc; [reflexivity|]. simpl. now rewrite Hc.
  - simpl. simpl in IH. rewrite IH. reflexivity.
Qed.

Lemma trimStart_head s :
  match trimStart s with
  | EmptyString => True
  | String c _ => is_white_space c = false
  end.
Proof.
  induction s as [|c rest IH]; simpl; [exact I|].
  destruct (is_white_space c) eqn:Hc; [exact IH|exact Hc].
Qed.

Lemma trimStart_fixed c rest :
  is_white_space c = false -> trimStart (String c rest) = String c rest.
Proof. intros Hc. simpl. now rewrite Hc. Qed.

Lemma trimEnd_head c rest :
  is_white_space c = false ->
  exists kept, trimEnd (String c rest) = String c kept.
Proof.
  intros Hc. simpl. destruct (trimEnd rest); rewrite ?Hc; eauto.
Qed.

Lemma trim_head s :
  match trim s with
  | EmptyString => True
  | String c _ => is_white_space c = false
  end.
Proof.
  unfold trim. pose proof (trimStart_head s) as Hs.
  destruct (trimStart s) as [|c rest]; [exact I|].
  destruct (trimEnd_head c rest Hs) as [kept ->]. exact Hs.
Qed.

Lemma trim_idempotent s : trim (trim s) = trim s.
Proof.
  pose proof (trim_head s) as Hhead. unfold trim at 1.
  destruct (trim s) as [|c kept] eqn:Hs; [reflexivity|].
  rewrite trimStart_fixed by exact Hhead. rewrite <- Hs. unfold trim.
  apply trimEnd_idempotent.
Qed.

Lemma length_zero_empty s : (String.length s =? 0)%nat = false -> s <> "".
Proof. destruct s; simpl; [discriminate|discriminate]. Qed.

(** ** The answer of the summarization service *)

Lemma callOpenAI_answers
    (js_String : value -> option string) (api : api_request -> http_response)
    (checked : Z) (highlight config : value) (sv : background) (summary : string) :
  (callOpenAI js_String api checked highlight config sv).1 = inr summary ->
  summary <> "" /\ trim summary = summary
  /\ (exists request data choice choices content,
        sent (callOpenAI js_String api checked highlight config sv).2
        = sent sv ++ [(checked, request)]
        /\ api request = Ok (Some data)
        /\ prop data "choices" = VArr (choice :: choices)
        /\ prop (prop choice "message") "content" = VStr content
        /\ summary = trim content)
  /\ area (callOpenAI js_String api checked highlight config sv).2 = area sv
  /\ _apiCallTimestamps (callOpenAI js_String api checked highlight config sv).2
     = _apiCallTimestamps sv.
Proof.
  unfold callOpenAI.
  destruct (js_String (prop highlight "text")) as [text|]; [|discriminate].
  destruct (js_String (prop highlight "title")) as [title|]; [|discriminate].
  destruct (js_String (prop highlight "domain")) as [domain|]; [|discriminate].
  destruct (String_or_empty js_String (prop highlight "pageText")) as [context|];
    [|discriminate].
  destruct (js_String (prop config "OPENAI_API_KEY")) as [key|]; [|discriminate].
  set (request := {| authorization := _; model := _; user_content := _ |}).
  destruct (api request) as [| |[data|]] eqn:Hapi; try discriminate.
  cbn [fst snd sent area _apiCallTimestamps]. unfold summary_of_response.
  destruct data; try discriminate.
  all: destruct (isArray (prop _ "choices")) eqn:Harr; try discriminate.
  all: cbn [negb].
  all: destruct (prop _ "choices") as [| | | | |items|] eqn:Hchoices;
    try discriminate.
  all: cbn [items_of]; destruct items as [|choice choices]; try discriminate.
  all: destruct choice eqn:Hchoice; try discriminate.
  all: rewrite <- Hchoice in *.
  all: destruct (truthy (prop choice "message")); try discriminate; cbn [negb].
  all: destruct (prop (prop choice "message") "content") as [| | | |content| |]
    eqn:Hcontent; try discriminate.
  all: destruct (String.length (trim content) =? 0)%nat eqn:Hlen; try discriminate.
  all: intros [= <-].
  all: split; [now apply length_zero_empty|].
  all: split; [apply trim_idempotent|].
  all: split; [|split; reflexivity].
  all: exists request, (VObj props), choice, choices, content.
  all: subst choice; rewrite Hchoices; auto.
Qed.

(** The answer of the API. A summary comes out of [callOpenAI] only
    when the answer is ok, its body is JSON, [choices] is an array that
    is not empty, and the [content] of the first choice's [message] is a
    string with more in it than white space; the summary is that
    content, trimmed, so it is never empty and never starts or ends with
    white space. Whatever the answer, one request has gone out, carrying
    the time of the rate check. *)
Theorem callOpenAI_summary_trimmed
    (js_String : value -> option string) (api : api_request -> http_response)
    (checked : Z) (highlight config : value) (sv : background) (summary : string) :
  (callOpenAI js_String api checked highlight config sv).1 = inr summary ->
  summary <> "" /\ trim summary = summary
  /\ (exists request data choice choices content,
        sent (callOpenAI js_String api checked highlight config sv).2
        = sent sv ++ [(checked, request)]
        /\ api request = Ok (Some data)
        /\ prop data "choices" = VArr (choice :: choices)
        /\ prop (prop choice "message") "content" = VStr content
        /\ summary = trim content)
  /\ area (callOpenAI js_String api checked highlight config sv).2 = area sv
  /\ _apiCallTimestamps (callOpenAI js_String api checked highlight config sv).2
     = _apiCallTimestamps sv.
Proof. apply callOpenAI_answers. Qed.

Lemma callOpenAI_summary_trimmed_witness :
  (callOpenAI String_of_primitive (fun _ => Ok (Some example_answer)) 1000
     example_highlight example_config idle).1 = inr "A summary."
  /\ "A summary." <> "" /\ trim "A summary." = "A summary.".
Proof.
  assert (Hrun : (callOpenAI String_of_primitive (fun _ => Ok (Some example_answer))
                    1000 example_highlight example_config idle).1
                 = inr "A summary.") by reflexivity.
  split; [exact Hrun|].
  pose proof (callOpenAI_summary_trimmed _ _ _ _ _ _ _ Hrun) as (Hne & Htrim & _).
  split; [exact Hne|exact Htrim].
Defined.

(** ** The highlight the summarizer works on *)

Lemma length_substring_0 n s : (String.length (String.substring 0 n s) <= n)%nat.
Proof.
  revert s. induction n as [|n IH]; intros [|c s]; simpl; try lia.
  specialize (IH s). lia.
Qed.

Lemma substring_0_idempotent n s :
  String.substring 0 n (String.substring 0 n s) = String.substring 0 n s.
Proof.
  revert s. induction n as [|n IH]; intros [|c s]; simpl; try reflexivity.
  now rewrite IH.
Qed.

Lemma substring_0_short n s :
  (String.length s <= n)%nat -> String.substring 0 n s = s.
Proof.
  revert s. induction n as [|n IH]; intros [|c s]; simpl; try reflexivity; try lia.
  intros Hlen. rewrite IH by lia. reflexivity.
Qed.

Lemma String_or_empty_string js_String s :
  (forall s, js_String (VStr s) = Some s) ->
  String_or_empty js_String (VStr s) = Some s.
Proof.
  intros Hstr. unfold String_or_empty. simpl.
  destruct (String.eqb_spec s ""); simpl; [subst|]; apply Hstr.
Qed.

Lemma sanitizeHighlight_shape js_String highlight sanitized :
  sanitizeHighlight js_String highlight = inr sanitized ->
  exists text url title domain,
    sanitized = VObj [("text", VStr text); ("url", VStr url);
                      ("title", VStr title); ("domain", VStr domain)].
Proof.
  unfold sanitizeHighlight.
  destruct (negb (truthy highlight) || negb (String.eqb (typeof highlight) "object"));
    [discriminate|].
  destruct (String_or_empty js_String (prop highlight "text")); [|discriminate].
  destruct (String_or_empty js_String (prop highlight "url")); [|discriminate].
  destruct (String_or_empty js_String (prop highlight "title")); [|discriminate].
  destruct (String_or_empty js_String (prop highlight "domain")); [|discriminate].
  intros [= <-]. eauto.
Qed.

(** The sanitized highlight. What [sanitizeHighlight] answers is an
    object with the four properties [text], [url], [title] and
    [domain], each a string, of at most 1000, 500, 200 and 100
    characters; the highlight's [pageText] is not among them. Sanitizing
    it again changes nothing, and a string that is within its bound is
    taken over as it is. *)
Theorem sanitizeHighlight_bounded
    (js_String : value -> option string) (highlight sanitized : value) :
  (forall s, js_String (VStr s) = Some s) ->
  sanitizeHighlight js_String highlight = inr sanitized ->
  (exists text url title domain,
      sanitized = VObj [("text", VStr text); ("url", VStr url);
                        ("title", VStr title); ("domain", VStr domain)]
      /\ (String.length text <= 1000)%nat /\ (String.length url <= 500)%nat
      /\ (String.length title <= 200)%nat /\ (String.length domain <= 100)%nat)
  /\ prop sanitized "pageText" = VUndefined
  /\ sanitizeHighlight js_String sanitized = inr sanitized
  /\ (forall s, prop highlight "text" = VStr s -> (String.length s <= 1000)%nat ->
        prop sanitized "text" = VStr s)
  /\ (forall s, prop highlight "text" = VStr s ->
        prop sanitized "text" = VStr (String.substring 0 1000 s)).
Proof.
  intros Hstr. unfold sanitizeHighlight.
  destruct (negb (truthy highlight) || negb (String.eqb (typeof highlight) "object"));
    [discriminate|].
  destruct (String_or_empty js_String (prop highlight "text")) as [text|] eqn:Ht;
    [|discriminate].
  destruct (String_or_empty js_String (prop highlight "url")) as [url|];
    [|discriminate].
  destruct (String_or_empty js_String (prop highlight "title")) as [title|];
    [|discriminate].
  destruct (String_or_empty js_String (prop highlight "domain")) as [domain|];
    [|discriminate].
  intros [= <-]. change (Z.to_nat MAX_TEXT_LENGTH) with 1000%nat.
  change (Z.to_nat MAX_URL_LENGTH) with 500%nat.
  change (Z.to_nat MAX_TITLE_LENGTH) with 200%nat.
  change (Z.to_nat MAX_DOMAIN_LENGTH) with 100%nat.
  split; [|split; [reflexivity|split; [|split]]].
  - do 4 eexists. split; [reflexivity|]. repeat split; apply length_substring_0.
  - cbn [truthy typeof negb orb String.eqb Ascii.eqb Bool.eqb prop lookup_prop].
    simpl String.eqb. cbn iota.
    rewrite !String_or_empty_string by exact Hstr.
    change (Z.to_nat MAX_TEXT_LENGTH) with 1000%nat.
    change (Z.to_nat MAX_URL_LENGTH) with 500%nat.
    change (Z.to_nat MAX_TITLE_LENGTH) with 200%nat.
    change (Z.to_nat MAX_DOMAIN_LENGTH) with 100%nat.
    now rewrite !substring_0_idempotent.
  - intros s Hs Hlen. rewrite Hs, String_or_empty_string in Ht by exact Hstr.
    injection Ht as <-. cbn [prop lookup_prop]. simpl String.eqb. cbn iota.
    now rewrite substring_0_short.
  - intros s Hs. rewrite Hs, String_or_empty_string in Ht by exact Hstr.
    injection Ht as <-. reflexivity.
Qed.

Lemma sanitizeHighlight_bounded_witness :
  (forall s, String_of_primitive (VStr s) = Some s)
  /\ sanitizeHighlight String_of_primitive example_highlight
     = inr (VObj [("text", VStr "some text"); ("url", VStr "https://a.com");
                  ("title", VStr "A"); ("domain", VStr "a.com")])
  /\ prop (VObj [("text", VStr "some text"); ("url", VStr "https://a.com");
                 ("title", VStr "A"); ("domain", VStr "a.com")]) "pageText"
     = VUndefined.
Proof.
  assert (Hstr : forall s, String_of_primitive (VStr s) = Some s) by reflexivity.
  assert (Hrun : sanitizeHighlight String_of_primitive example_highlight
                 = inr (VObj [("text", VStr "some text");
                              ("url", VStr "https://a.com");
                              ("title", VStr "A"); ("domain", VStr "a.com")]))
    by reflexivity.
  split; [exact Hstr|]. split; [exact Hrun|].
  exact (proj1 (proj2 (sanitizeHighlight_bounded _ _ _ Hstr Hrun))).
Defined.

(** ** The configuration of the summarizer *)

Lemma split_no_separator c s : has_char c s = false -> split c s = [s].
Proof.
  induction s as [|a s IH]; simpl; [reflexivity|].
  intros Hn. apply orb_false_iff in Hn as [Ha Hs]. rewrite Ha.
  now rewrite (IH Hs).
Qed.

Lemma split_at_separator c s t :
  has_char c s = false -> split c (s ++ String c t) = s :: split c t.
Proof.
  induction s as [|a s IH]; simpl.
  - intros _. now rewrite Ascii.eqb_refl.
  - intros Hn. apply orb_false_iff in Hn as [Ha Hs]. rewrite Ha.
    now rewrite (IH Hs).
Qed.

Lemma split_join_lines x lines :
  List.Forall (fun line => has_char line_feed line = false) (x :: lines) ->
  split line_feed (join_lines (x :: lines)) = x :: lines.
Proof.
  revert x. induction lines as [|y lines IH]; intros x Hall.
  - inversion Hall; subst. now apply split_no_separator.
  - inversion Hall as [|? ? Hx Hrest]; subst.
    change (join_lines (x :: y :: lines))
      with (x ++ String line_feed (join_lines (y :: lines)))%string.
    rewrite split_at_separator by exact Hx. f_equal. now apply IH.
Qed.

Lemma substring_0_0 s : String.substring 0 0 s = "".
Proof. destruct s; reflexivity. Qed.

Lemma index_head c v : String.index 0 (String c "") (String c v) = Some 0%nat.
Proof.
  simpl. destruct (ascii_dec c c); [|contradiction]. now destruct v.
Qed.

Lemma index_skip c a s :
  Ascii.eqb a c = false ->
  String.index 0 (String c "") (String a s)
  = option_map S (String.index 0 (String c "") s).
Proof.
  intros Hne. simpl. destruct (ascii_dec c a) as [->|_].
  - now rewrite Ascii.eqb_refl in Hne.
  - now destruct (String.index 0 (String c "") s).
Qed.

Lemma indexOf_first c k v :
  has_char c k = false ->
  indexOf (k ++ String c v) (String c "") = Some (String.length k).
Proof.
  unfold indexOf. induction k as [|a k IH]; intros Hn.
  - apply index_head.
  - simpl in Hn. apply orb_false_iff in Hn as [Ha Hk].
    change (String a k ++ String c v)%string with (String a (k ++ String c v)).
    rewrite index_skip by exact Ha. now rewrite (IH Hk).
Qed.

Lemma substring_0_append a b :
  String.substring 0 (String.length a) (a ++ b) = a.
Proof.
  induction a as [|c a IH]; simpl; [apply substring_0_0|]. now rewrite IH.
Qed.

Lemma substring_all s : String.substring 0 (String.length s) s = s.
Proof. induction s as [|c s IH]; simpl; [reflexivity|]. now rewrite IH. Qed.

Lemma length_append a b :
  String.length (a ++ b) = (String.length a + String.length b)%nat.
Proof. induction a as [|c a IH]; simpl; [reflexivity|]. now rewrite IH. Qed.

Lemma substring_from_append a c b :
  substring_from (String.length a + 1) (a ++ String c b) = b.
Proof.
  unfold substring_from. rewrite length_append. simpl String.length.
  replace (String.length a + S (String.length b) - (String.length a + 1))%nat
    with (String.length b) by lia.
  induction a as [|x a IH]; simpl; [apply substring_all|exact IH].
Qed.

Lemma trimEnd_append a b :
  trimEnd b = b -> b <> "" -> trimEnd (a ++ b) = (a ++ b)%string.
Proof.
  intros Hb Hne. induction a as [|c a IH]; [exact Hb|].
  change (String c a ++ b)%string with (String c (a ++ b)).
  cbn [trimEnd]. rewrite IH. destruct (a ++ b)%string eqn:Hab; [|reflexivity].
  destruct a; simpl in Hab; [contradiction|discriminate].
Qed.

Lemma trim_fixed_head s :
  trim s = s -> s <> "" ->
  exists c rest, s = String c rest /\ is_white_space c = false.
Proof.
  intros Ht Hne. pose proof (trim_head s) as Hh. rewrite Ht in Hh.
  destruct s as [|c rest]; [contradiction|eauto].
Qed.

Lemma trim_fixed_end s : trim s = s -> s <> "" -> trimEnd s = s.
Proof.
  intros Ht Hne. destruct (trim_fixed_head s Ht Hne) as (c & rest & -> & Hc).
  unfold trim in Ht. now rewrite trimStart_fixed in Ht by exact Hc.
Qed.

Lemma string_append_assoc (a b c : string) :
  (a ++ (b ++ c) = (a ++ b) ++ c)%string.
Proof.
  induction a as [|x a IH]; [reflexivity|].
  change (String x (a ++ (b ++ c)) = String x ((a ++ b) ++ c))%string.
  f_equal. exact IH.
Qed.

Lemma trim_assignment key v :
  trim key = key -> key <> "" -> trim v = v -> v <> "" ->
  trim (key ++ "=" ++ v) = (key ++ "=" ++ v)%string.
Proof.
  intros Hk Hkne Hv Hvne.
  destruct (trim_fixed_head key Hk Hkne) as (c & rest & -> & Hc).
  unfold trim. change (String c rest ++ "=" ++ v)%string
    with (String c (rest ++ "=" ++ v))%string.
  rewrite trimStart_fixed by exact Hc.
  change (String c (rest ++ "=" ++ v))%string
    with (String c rest ++ ("=" ++ v))%string.
  rewrite string_append_assoc.
  apply trimEnd_append; [now apply trim_fixed_end|exact Hvne].
Qed.

Lemma config_line_assignment config key v :
  clean_key key -> clean_value v ->
  config_line config (key ++ "=" ++ v) = assign_prop key (VStr v) config.
Proof.
  intros (Hkne & Hkt & Heq & _ & Hhash & Hproto) (Hvne & Hvt & _).
  unfold config_line. rewrite trim_assignment by assumption.
  assert (Hline : (key ++ "=" ++ v)%string <> "")
    by (destruct key; [contradiction|discriminate]).
  apply String.eqb_neq in Hline. rewrite Hline.
  assert (Hh : startsWith_hash (key ++ "=" ++ v) = false)
    by (destruct key; [contradiction|exact Hhash]).
  rewrite Hh. cbn [orb].
  change (key ++ "=" ++ v)%string with (key ++ String "="%char v)%string.
  rewrite indexOf_first by exact Heq.
  rewrite substring_0_append, substring_from_append, Hkt, Hvt.
  apply String.eqb_neq in Hkne, Hvne, Hproto. now rewrite Hkne, Hvne, Hproto.
Qed.

Lemma config_line_no_assignment config line :
  no_assignment line -> config_line config line = config.
Proof.
  unfold config_line. intros [->|[Hh|Hi]]; [reflexivity| |].
  - rewrite Hh. now rewrite orb_true_r.
  - rewrite Hi. now destruct (_ || _).
Qed.

Lemma tidy_assign key v config :
  tidy (key, v) -> List.Forall tidy config ->
  List.Forall tidy (assign_prop key v config).
Proof.
  intros Hnew. induction 1 as [|[k x] config Hx Hall IH]; simpl.
  - constructor; [exact Hnew|constructor].
  - destruct (String.eqb key k); constructor; auto.
Qed.

Lemma tidy_config_line config line :
  List.Forall tidy config -> List.Forall tidy (config_line config line).
Proof.
  intros Hall. unfold config_line.
  destruct (_ || _); [exact Hall|].
  destruct (indexOf (trim line) "=") as [eqIndex|]; [|exact Hall].
  set (key := trim (String.substring 0 eqIndex (trim line))).
  set (v := trim (substring_from (eqIndex + 1) (trim line))).
  destruct (String.eqb_spec key ""); [exact Hall|].
  destruct (String.eqb_spec v ""); [exact Hall|]. cbn [negb andb].
  destruct (String.eqb_spec key "__proto__"); [exact Hall|].
  apply tidy_assign; [|exact Hall].
  repeat split; try assumption; [apply trim_idempotent|].
  exists v. repeat split; try assumption. apply trim_idempotent.
Qed.

Lemma tidy_fold lines config :
  List.Forall tidy config ->
  List.Forall tidy (fold_left config_line lines config).
Proof.
  revert config. induction lines as [|line lines IH]; intros config Hall;
    [exact Hall|].
  simpl. apply IH. now apply tidy_config_line.
Qed.

Lemma lookup_prop_tidy key config :
  List.Forall tidy config ->
  lookup_prop key config = VUndefined \/ tidy (key, lookup_prop key config).
Proof.
  induction 1 as [|[k x] config Hx Hall IH]; simpl; [auto|].
  destruct (String.eqb_spec key k) as [->|Hne]; [right; exact Hx|exact IH].
Qed.

Lemma lookup_fold_assign_last pairs config key v :
  lookup_prop key
    (fold_left (fun c (kv : string * string) => assign_prop kv.1 (VStr kv.2) c)
       (pairs ++ [(key, v)]) config)
  = VStr v.
Proof.
  rewrite fold_left_app. simpl. apply lookup_assign_eq.
Qed.

(** The configuration file. [loadConfigFromFile] answers an empty
    object when the file cannot be fetched. Whatever the text, every
    property it sets has a key and a value that are not empty and have
    no white space at either end. Blank lines, comments and lines
    without [=] set nothing; a line [key=value] with a clean key and
    value sets that property and leaves the others, later lines winning
    over earlier ones; so the file made of such lines reads back as the
    assignments it was made of, in their order. *)
Theorem loadConfigFromFile_reads_assignments
    (pairs : list (string * string)) :
  List.Forall (fun kv => clean_key kv.1 /\ clean_value kv.2) pairs ->
  loadConfigFromFile
    (Some (join_lines (map (fun kv => kv.1 ++ "=" ++ kv.2)%string pairs)))
  = VObj (fold_left (fun c kv => assign_prop kv.1 (VStr kv.2) c) pairs [])
  /\ (forall key v front, pairs = front ++ [(key, v)] ->
        prop (loadConfigFromFile
                (Some (join_lines (map (fun kv => kv.1 ++ "=" ++ kv.2)%string pairs))))
             key = VStr v)
  /\ loadConfigFromFile None = VObj []
  /\ (forall text key,
        prop (loadConfigFromFile (Some text)) key = VUndefined
        \/ tidy (key, prop (loadConfigFromFile (Some text)) key))
  /\ (forall config line, no_assignment line -> config_line config line = config)
  /\ (forall lines,
        List.Forall (fun line => has_char line_feed line = false) lines ->
        loadConfigFromFile (Some (join_lines lines))
        = VObj (fold_left config_line lines [])).
Proof.
  intros Hclean.
  assert (Hlines : forall lines,
            List.Forall (fun line => has_char line_feed line = false) lines ->
            loadConfigFromFile (Some (join_lines lines))
            = VObj (fold_left config_line lines [])).
  { intros [|x lines] Hall; [reflexivity|].
    unfold loadConfigFromFile. now rewrite split_join_lines. }
  assert (Hfold : forall config,
            fold_left config_line
              (map (fun kv => kv.1 ++ "=" ++ kv.2)%string pairs) config
            = fold_left (fun c kv => assign_prop kv.1 (VStr kv.2) c) pairs config).
  { induction Hclean as [|[key v] pairs [Hk Hv] Hrest IH]; intros config;
      [reflexivity|].
    simpl. rewrite config_line_assignment by assumption. apply IH. }
  assert (Hread : loadConfigFromFile
            (Some (join_lines (map (fun kv => kv.1 ++ "=" ++ kv.2)%string pairs)))
          = VObj (fold_left (fun c kv => assign_prop kv.1 (VStr kv.2) c) pairs [])).
  { rewrite Hlines; [now rewrite Hfold|].
    apply List.Forall_map. eapply List.Forall_impl; [|exact Hclean].
    intros [key v] [(_ & _ & _ & Hk & _) (_ & _ & Hv)]. simpl in *.
    clear -Hk Hv. induction key as [|a key IH]; simpl in *.
    - exact Hv.
    - apply orb_false_iff in Hk as [Ha Hk]. rewrite Ha. now apply IH. }
  split; [exact Hread|]. split; [|split; [reflexivity|split; [|split]]].
  - intros key v front ->. rewrite Hread. cbn [prop].
    apply lookup_fold_assign_last.
  - intros text key. unfold loadConfigFromFile. cbn [prop].
    apply lookup_prop_tidy. apply tidy_fold. constructor.
  - apply config_line_no_assignment.
  - exact Hlines.
Qed.

Lemma loadConfigFromFile_reads_assignments_witness :
  List.Forall (fun kv : string * string => clean_key kv.1 /\ clean_value kv.2)
    [("OPENAI_API_KEY", "sk-test"); ("AI_MODEL", "gpt-4")]
  /\ loadConfigFromFile
       (Some (join_lines
                (map (fun kv : string * string => kv.1 ++ "=" ++ kv.2)%string
                   [("OPENAI_API_KEY", "sk-test"); ("AI_MODEL", "gpt-4")])))
     = VObj (fold_left
               (fun c (kv : string * string) => assign_prop kv.1 (VStr kv.2) c)
               [("OPENAI_API_KEY", "sk-test"); ("AI_MODEL", "gpt-4")] []).
Proof.
  assert (Hclean : List.Forall
            (fun kv : string * string => clean_key kv.1 /\ clean_value kv.2)
            [("OPENAI_API_KEY", "sk-test"); ("AI_MODEL", "gpt-4")]).
  { repeat constructor; simpl; try discriminate; reflexivity. }
  split; [exact Hclean|].
  exact (proj1 (loadConfigFromFile_reads_assignments _ Hclean)).
Defined.

Example loadConfigFromFile_env :
  loadConfigFromFile
    (Some (join_lines ["# OpenAI settings"; ""; "  OPENAI_API_KEY = sk-test  ";
                       "AI_MODEL=gpt-4"; "no equals sign"; "=orphan";
                       "AI_MODEL=gpt-4o=mini"]))
  = VObj [("OPENAI_API_KEY", VStr "sk-test"); ("AI_MODEL", VStr "gpt-4o=mini")].
Proof. reflexivity. Qed.

Lemma prop_key_object config :
  truthy (prop config "OPENAI_API_KEY") = true -> truthy config = true.
Proof. destruct config; simpl; try discriminate; auto. Qed.

(** Where the configuration comes from. A configuration in the storage
    area that has an API key is answered as it is, and the file is not
    looked at. Without one, the configuration is read from the file;
    when that has a key it is answered and written to the storage area,
    so that the next call does not need the file; when it has none the
    call fails and nothing is written. A configuration that is answered
    always has a key, and [getConfig] touches nothing but the
    [aiConfig] entry. *)
Theorem getConfig_storage_then_file (file : option string) (sv : background) :
  let stored := truthy (prop (aiConfig sv) "OPENAI_API_KEY") in
  let loaded := loadConfigFromFile file in
  (stored = true -> getConfig file sv = (inr (aiConfig sv), sv))
  /\ (stored = false -> truthy (prop loaded "OPENAI_API_KEY") = true ->
      getConfig file sv
      = (inr loaded,
         {| area := area sv; aiConfig := loaded;
            _apiCallTimestamps := _apiCallTimestamps sv; sent := sent sv |})
      /\ forall file',
           getConfig file' (getConfig file sv).2
           = (inr loaded, (getConfig file sv).2))
  /\ (stored = false -> truthy (prop loaded "OPENAI_API_KEY") = false ->
      getConfig file sv = (inl ConfigurationError, sv))
  /\ (forall config, (getConfig file sv).1 = inr config ->
        truthy (prop config "OPENAI_API_KEY") = true)
  /\ area (getConfig file sv).2 = area sv
  /\ _apiCallTimestamps (getConfig file sv).2 = _apiCallTimestamps sv
  /\ sent (getConfig file sv).2 = sent sv.
Proof.
  intros stored loaded.
  assert (Hstored : stored = true -> getConfig file sv = (inr (aiConfig sv), sv)).
  { intros Hs. unfold getConfig. rewrite (prop_key_object _ Hs).
    unfold stored in Hs. now rewrite Hs. }
  assert (Hmiss : stored = false ->
            getConfig file sv
            = if truthy (prop loaded "OPENAI_API_KEY")
              then (inr loaded,
                    {| area := area sv; aiConfig := loaded;
                       _apiCallTimestamps := _apiCallTimestamps sv;
                       sent := sent sv |})
              else (inl ConfigurationError, sv)).
  { intros Hs. unfold getConfig, stored in *.
    destruct (truthy (aiConfig sv)); [now rewrite Hs|reflexivity]. }
  split; [exact Hstored|]. split; [|split; [|split]].
  - intros Hs Hl. rewrite (Hmiss Hs), Hl. split; [reflexivity|].
    intros file'. cbn [snd]. unfold getConfig. cbn [aiConfig].
    rewrite (prop_key_object _ Hl), Hl. reflexivity.
  - intros Hs Hl. now rewrite (Hmiss Hs), Hl.
  - intros config. destruct stored eqn:Hs.
    + rewrite (Hstored eq_refl). intros [= <-]. exact Hs.
    + rewrite (Hmiss eq_refl).
      destruct (truthy (prop loaded "OPENAI_API_KEY")) eqn:Hl; [|discriminate].
      intros [= <-]. exact Hl.
  - destruct stored eqn:Hs.
    + rewrite (Hstored eq_refl). auto.
    + rewrite (Hmiss eq_refl).
      destruct (truthy (prop loaded "OPENAI_API_KEY")); auto.
Qed.

(** ** The summarizer of the background *)

Lemma callOpenAI_sent js_String api checked highlight config sv :
  let res := callOpenAI js_String api checked highlight config sv in
  area res.2 = area sv /\ aiConfig res.2 = aiConfig sv
  /\ _apiCallTimestamps res.2 = _apiCallTimestamps sv
  /\ (sent res.2 = sent sv \/ exists r, sent res.2 = sent sv ++ [(checked, r)]).
Proof.
  unfold callOpenAI.
  destruct (js_String (prop highlight "text")); [|simpl; auto].
  destruct (js_String (prop highlight "title")); [|simpl; auto].
  destruct (js_String (prop highlight "domain")); [|simpl; auto].
  destruct (String_or_empty js_String (prop highlight "pageText")); [|simpl; auto].
  destruct (js_String (prop config "OPENAI_API_KEY")); [|simpl; auto].
  destruct (api _) as [| |[data|]]; simpl; eauto 10.
Qed.

Lemma callOpenAI_context_empty js_String api checked text url title domain config sv :
  (forall s, js_String (VStr s) = Some s) ->
  let sanitized := VObj [("text", VStr text); ("url", VStr url);
                         ("title", VStr title); ("domain", VStr domain)] in
  forall r,
    sent (callOpenAI js_String api checked sanitized config sv).2
    = sent sv ++ [(checked, r)] ->
    user_content r = highlightContent text title domain "".
Proof.
  intros Hstr sanitized r. unfold callOpenAI.
  cbn [prop lookup_prop sanitized]. simpl String.eqb. cbn iota.
  rewrite !Hstr. unfold String_or_empty. cbn [truthy]. rewrite Hstr.
  assert (Hnil : forall l : list (Z * api_request), l = l ++ [(checked, r)] -> False).
  { intros l Hl. apply (f_equal (@length _)) in Hl. rewrite length_app in Hl.
    simpl in Hl. lia. }
  destruct (js_String (prop config "OPENAI_API_KEY")) as [key|];
    [|cbn [snd]; intros Hl; destruct (Hnil _ Hl)].
  destruct (api _) as [| |[data|]]; cbn [snd sent]; intros Hl;
    apply app_inj_tail in Hl as [_ [= <-]]; reflexivity.
Qed.

Lemma summarizeHighlight_invalid js_String out request sv :
  valid_request request = false ->
  summarizeHighlight js_String out request sv = (inl InvalidRequest, sv).
Proof.
  unfold valid_request, summarizeHighlight. intros Hv.
  destruct (truthy (requestId request)), (truthy (highlight request)),
    (String.eqb (cacheKey request) ""); simpl in *; try reflexivity; discriminate.
Qed.

Lemma summarizeHighlight_valid js_String out request sv :
  valid_request request = true ->
  summarizeHighlight js_String out request sv
  = match cached_summary (now_read out) (cacheKey request) (area sv) with
    | Some summary => (inr summary, sv)
    | None =>
        match _checkRateLimit (now_check out) (_apiCallTimestamps sv) with
        | (inl e, ts) => (inl (RateLimited e), set_timestamps ts sv)
        | (inr _, ts) =>
            match sanitizeHighlight js_String (highlight request) with
            | inl e => (inl e, set_timestamps ts sv)
            | inr sanitizedHighlight =>
                match getConfig (config_file out) (set_timestamps ts sv) with
                | (inl e, sv') => (inl e, sv')
                | (inr config, sv') =>
                    match callOpenAI js_String (api out) (now_check out)
                            sanitizedHighlight config sv' with
                    | (inl e, sv'') => (inl e, sv'')
                    | (inr summary, sv'') =>
                        (inr summary,
                         set_area
                           (cacheSummary (now_write out) (cacheKeys out)
                              (cacheKey request) summary (area sv'')).2
                           sv'')
                    end
                end
            end
        end
    end.
Proof.
  unfold valid_request, summarizeHighlight, cached_summary. intros Hv.
  destruct (truthy (requestId request)), (truthy (highlight request)),
    (String.eqb (cacheKey request) ""); simpl in Hv; try discriminate.
  cbn [negb orb].
  destruct ((getCachedSummary (now_read out) (cacheKey request) (area sv)).1)
    as [[|c rest]|]; reflexivity.
Qed.

Lemma getConfig_state file sv :
  area (getConfig file sv).2 = area sv
  /\ _apiCallTimestamps (getConfig file sv).2 = _apiCallTimestamps sv
  /\ sent (getConfig file sv).2 = sent sv.
Proof.
  unfold getConfig.
  destruct (truthy (prop (if truthy (aiConfig sv) then aiConfig sv else VObj [])
                      "OPENAI_API_KEY")); simpl; [auto|].
  destruct (truthy (prop (loadConfigFromFile file) "OPENAI_API_KEY")); simpl; auto.
Qed.

(** What one call does to the state, case by case. *)
Lemma summarizeHighlight_step js_String out request sv :
  let res := summarizeHighlight js_String out request sv in
  let check := _checkRateLimit (now_check out) (_apiCallTimestamps sv) in
  res.2 = sv
  \/ ((exists e, check.1 = inl e /\ res.1 = inl (RateLimited e))
      /\ res.2 = set_timestamps check.2 sv)
  \/ (check.1 = inr tt
      /\ _apiCallTimestamps res.2 = check.2
      /\ (sent res.2 = sent sv
          \/ exists r, sent res.2 = sent sv ++ [(now_check out, r)])
      /\ ((exists e, res.1 = inl e) -> area res.2 = area sv)).
Proof.
  intros res check. unfold res.
  destruct (valid_request request) eqn:Hv.
  2: { left. now rewrite summarizeHighlight_invalid. }
  rewrite summarizeHighlight_valid by exact Hv.
  destruct (cached_summary _ _ _); [left; reflexivity|].
  fold check. destruct check as [[e|[]] ts] eqn:Hcheck.
  { right. left. split; [exists e; auto|reflexivity]. }
  right. right. split; [reflexivity|]. cbn [snd].
  destruct (sanitizeHighlight js_String (highlight request)) as [e|sanitized];
    [cbn; auto|].
  pose proof (getConfig_state (config_file out) (set_timestamps ts sv))
    as (Ha & Ht & Hs).
  destruct (getConfig (config_file out) (set_timestamps ts sv)) as [[e|config] sv'];
    cbn [fst snd] in *.
  { rewrite Ht, Hs, Ha. cbn. auto. }
  pose proof (callOpenAI_sent js_String (api out) (now_check out) sanitized config sv')
    as (Ha' & _ & Ht' & Hs').
  destruct (callOpenAI js_String (api out) (now_check out) sanitized config sv')
    as [[e|summary] sv'']; cbn [fst snd] in *.
  - rewrite Ht', Ht, Ha', Ha. split; [reflexivity|]. split; [|reflexivity].
    rewrite Hs in Hs'. exact Hs'.
  - cbn [set_area _apiCallTimestamps sent]. rewrite Ht', Ht.
    split; [reflexivity|]. split; [rewrite Hs in Hs'; exact Hs'|].
    intros [e He]. discriminate.
Qed.


(** A summary that was fetched is served from the cache afterwards. When
    a valid request that found nothing in the cache succeeds, its
    summary is not empty and has no white space at either end, and it is
    in the cache under the request's key with the time of the write; the
    one request that went out carried the four sanitized fields and an
    empty context, the highlight's [pageText] having been dropped. Every
    valid request with the same key that reads the cache less than five
    minutes after the write is answered with that summary and changes
    nothing at all, whatever its highlight. *)
Theorem summarizeHighlight_then_cached
    (js_String : value -> option string) (out : outside)
    (request : summarize_request) (sv : background) (summary : string) :
  (forall s, js_String (VStr s) = Some s) ->
  valid_request request = true ->
  cached_summary (now_read out) (cacheKey request) (area sv) = None ->
  (summarizeHighlight js_String out request sv).1 = inr summary ->
  let after := (summarizeHighlight js_String out request sv).2 in
  summary <> "" /\ trim summary = summary
  /\ default ∅ (summaryCache (area after)) !! cacheKey request
     = Some {| summary := summary; timestamp := now_write out |}
  /\ (exists text url title domain r,
        sanitizeHighlight js_String (highlight request)
        = inr (VObj [("text", VStr text); ("url", VStr url);
                     ("title", VStr title); ("domain", VStr domain)])
        /\ sent after = sent sv ++ [(now_check out, r)]
        /\ user_content r = highlightContent text title domain "")
  /\ (forall js_String' out' request',
        valid_request request' = true ->
        cacheKey request' = cacheKey request ->
        now_read out' - now_write out < SUMMARY_CACHE_TTL ->
        summarizeHighlight js_String' out' request' after = (inr summary, after)).
Proof.
  intros Hstr Hv Hmiss. rewrite summarizeHighlight_valid, Hmiss by exact Hv.
  destruct (_checkRateLimit (now_check out) (_apiCallTimestamps sv))
    as [[e|[]] ts]; [discriminate|].
  destruct (sanitizeHighlight js_String (highlight request)) as [e|sanitized]
    eqn:Hsan; [discriminate|].
  destruct (sanitizeHighlight_shape _ _ _ Hsan)
    as (text & url & title & domain & ->).
  pose proof (getConfig_state (config_file out) (set_timestamps ts sv))
    as (_ & _ & Hs).
  destruct (getConfig (config_file out) (set_timestamps ts sv))
    as [[e|config] sv']; [discriminate|]. cbn [fst snd] in Hs.
  pose proof (callOpenAI_answers js_String (api out) (now_check out)
                (VObj [("text", VStr text); ("url", VStr url);
                       ("title", VStr title); ("domain", VStr domain)])
                config sv') as Hanswer.
  pose proof (callOpenAI_context_empty js_String (api out) (now_check out)
                text url title domain config sv' Hstr) as Hcontext.
  cbn zeta in Hcontext.
  destruct (callOpenAI js_String (api out) (now_check out) _ config sv')
    as [[e|summary'] sv'']; [discriminate|].
  cbn [fst snd]. intros [= ->].
  destruct (Hanswer summary eq_refl) as (Hne & Htrim & Hreq & _).
  destruct Hreq as (r & _ & _ & _ & _ & Hsent & _). cbn [snd] in Hsent, Hcontext.
  assert (Hcached : default ∅ (summaryCache
              (area (set_area
                 (cacheSummary (now_write out) (cacheKeys out) (cacheKey request)
                    summary (area sv'')).2 sv''))) !! cacheKey request
            = Some {| summary := summary; timestamp := now_write out |}).
  { unfold cacheSummary, modify. cbn. apply lookup_insert_eq. }
  split; [exact Hne|]. split; [exact Htrim|]. split; [exact Hcached|]. split.
  - exists text, url, title, domain, r. split; [reflexivity|].
    cbn [set_area sent]. rewrite Hsent, Hs. cbn [set_timestamps sent].
    split; [reflexivity|].
    exact (Hcontext r Hsent).
  - intros js_String' out' request' Hv' Hkey Hfresh.
    rewrite summarizeHighlight_valid by exact Hv'.
    unfold cached_summary, getCachedSummary, gets. cbn [fst]. rewrite Hkey, Hcached.
    cbn [timestamp].
    destruct (Z.ltb_spec (now_read out' - now_write out) SUMMARY_CACHE_TTL); [|lia].
    simpl. destruct summary; [contradiction|reflexivity].
Qed.

Lemma summarizeHighlight_then_cached_witness :
  (forall s, String_of_primitive (VStr s) = Some s)
  /\ valid_request example_request = true
  /\ cached_summary 1000 (cacheKey example_request) (area idle) = None
  /\ (summarizeHighlight String_of_primitive (example_outside 1000)
        example_request idle).1 = inr "A summary."
  /\ default ∅ (summaryCache (area
       (summarizeHighlight String_of_primitive (example_outside 1000)
          example_request idle).2)) !! cacheKey example_request
     = Some {| summary := "A summary."; timestamp := 1000 |}.
Proof.
  assert (Hstr : forall s, String_of_primitive (VStr s) = Some s) by reflexivity.
  assert (Hv : valid_request example_request = true) by reflexivity.
  assert (Hmiss : cached_summary (now_read (example_outside 1000))
                    (cacheKey example_request) (area idle) = None) by reflexivity.
  assert (Hrun : (summarizeHighlight String_of_primitive (example_outside 1000)
                    example_request idle).1 = inr "A summary.") by reflexivity.
  split; [exact Hstr|]. split; [exact Hv|]. split; [exact Hmiss|].
  split; [exact Hrun|].
  exact (proj1 (proj2 (proj2
    (summarizeHighlight_then_cached String_of_primitive (example_outside 1000)
       example_request idle "A summary." Hstr Hv Hmiss Hrun)))).
Defined.

(** ** Requests to the API, minute by minute *)

Lemma sublist_In {A} (l1 l2 : list A) x : sublist l1 l2 -> In x l1 -> In x l2.
Proof.
  induction 1 as [|y l1 l2 _ IH|y l1 l2 _ IH]; simpl; [tauto| |]; intuition.
Qed.

Lemma nondecreasing_sublist l1 l2 :
  sublist l1 l2 -> nondecreasing l2 -> nondecreasing l1.
Proof.
  induction 1 as [|y l1 l2 Hsub IH|y l1 l2 Hsub IH]; simpl; [tauto| |].
  - intros [Hy Hrest]. split; [|auto]. intros a Ha. apply Hy.
    eapply sublist_In; eauto.
  - intros [_ Hrest]. auto.
Qed.

Lemma calls_in_window_sublist t l1 l2 :
  sublist l1 l2 -> (calls_in_window t l1 <= calls_in_window t l2)%nat.
Proof.
  unfold calls_in_window.
  induction 1 as [|y l1 l2 _ IH|y l1 l2 _ IH]; simpl; [lia| |];
    destruct (in_window t y); simpl; lia.
Qed.

Lemma summarize_all_sent js_String calls sv :
  exists times new,
    sublist times (map (fun call => now_check call.1) calls)
    /\ map fst (sent (summarize_all js_String calls sv)) = map fst (sent sv) ++ new
    /\ sublist new (allowed_calls times (_apiCallTimestamps sv)).
Proof.
  revert sv. induction calls as [|[out request] calls IH]; intros sv.
  - exists [], []. simpl. rewrite app_nil_r. repeat split; constructor.
  - change (summarize_all js_String ((out, request) :: calls) sv)
      with (summarize_all js_String calls
              (summarizeHighlight js_String out request sv).2).
    destruct (IH (summarizeHighlight js_String out request sv).2)
      as (times & new & Htimes & Hsent & Hnew).
    pose proof (summarizeHighlight_step js_String out request sv) as Hstep.
    cbn zeta in Hstep. cbn [map fst].
    destruct Hstep as [Hsame|[[[e [He _]] Hrefused]|(Hok & Hts & Hs & _)]].
    + rewrite Hsame in *. exists times, new.
      split; [now apply sublist_cons|]. split; assumption.
    + rewrite Hrefused in *. cbn [set_timestamps sent _apiCallTimestamps] in *.
      exists (now_check out :: times), new.
      split; [now apply sublist_skip|]. split; [exact Hsent|].
      cbn [allowed_calls].
      destruct (_checkRateLimit (now_check out) (_apiCallTimestamps sv))
        as [[e'|u] ts]; cbn [fst snd] in *; [exact Hnew|discriminate].
    + rewrite Hts in Hnew.
      destruct (_checkRateLimit (now_check out) (_apiCallTimestamps sv))
        as [[e'|[]] ts] eqn:Hcheck; cbn [fst snd] in *; [discriminate|].
      destruct Hs as [Hs|[r Hs]]; rewrite Hs in Hsent.
      * exists (now_check out :: times), new.
        split; [now apply sublist_skip|]. split; [exact Hsent|].
        cbn [allowed_calls]. rewrite Hcheck. now apply sublist_cons.
      * exists (now_check out :: times), (now_check out :: new).
        split; [now apply sublist_skip|]. split.
        -- rewrite Hsent, map_app, <- app_assoc. reflexivity.
        -- cbn [allowed_calls]. rewrite Hcheck. now apply sublist_skip.
Qed.

(** Five requests a minute. Whatever calls of [summarizeHighlight] are
    served, with whatever arguments and answers, when the clock does not
    go back no window of 60 seconds holds the rate checks of more than
    five requests that went out to the API. *)
Theorem at_most_five_requests_a_minute
    (js_String : value -> option string)
    (calls : list (outside * summarize_request)) (sv : background) (t : Z) :
  _apiCallTimestamps sv = [] -> sent sv = [] ->
  nondecreasing (map (fun call => now_check call.1) calls) ->
  (calls_in_window t (map fst (sent (summarize_all js_String calls sv))) <= 5)%nat.
Proof.
  intros Hts Hsent Hsorted.
  destruct (summarize_all_sent js_String calls sv)
    as (times & new & Htimes & Hall & Hnew).
  rewrite Hall, Hsent, Hts in *. cbn [map app].
  etransitivity; [apply calls_in_window_sublist; exact Hnew|].
  apply (allowed_calls_window times [] t); simpl; [|tauto|lia].
  eapply nondecreasing_sublist; eauto.
Qed.

Lemma at_most_five_requests_a_minute_witness :
  _apiCallTimestamps idle = [] /\ sent idle = []
  /\ nondecreasing
       (map (fun call : outside * summarize_request => now_check call.1)
          [(example_outside 1000, example_request);
           (example_outside 2000, example_request)])
  /\ (calls_in_window 0
        (map fst (sent (summarize_all String_of_primitive
                          [(example_outside 1000, example_request);
                           (example_outside 2000, example_request)] idle)))
      <= 5)%nat.
Proof.
  assert (Hts : _apiCallTimestamps idle = []) by reflexivity.
  assert (Hsent : sent idle = []) by reflexivity.
  assert (Hsorted : nondecreasing
            (map (fun call : outside * summarize_request => now_check call.1)
               [(example_outside 1000, example_request);
                (example_outside 2000, example_request)])).
  { simpl. repeat split; try tauto. intros a [<-|[]]. lia. }
  split; [exact Hts|]. split; [exact Hsent|]. split; [exact Hsorted|].
  exact (at_most_five_requests_a_minute String_of_primitive _ idle 0
           Hts Hsent Hsorted).
Defined.

(** ** Text across elements *)

Lemma string_append_nil_r (s : string) : (s ++ "")%string = s.
Proof.
  induction s as [|c s IH]; [reflexivity|].
  change (String c (s ++ "") = String c s)%string. now rewrite IH.
Qed.

Lemma walk_concat contents node concat :
  (DOMUtils.walk contents node concat).2
  = (concat ++ DOMUtils.concat_all contents)%string.
Proof.
  revert node concat. induction contents as [|content rest IH]; intros node concat.
  - simpl. now rewrite string_append_nil_r.
  - cbn [DOMUtils.walk DOMUtils.concat_all fold_right].
    specialize (IH (S node) (concat ++ content)%string).
    destruct (DOMUtils.walk rest (S node) (concat ++ content)) as [nodes all].
    cbn [snd] in *. rewrite IH. fold (DOMUtils.concat_all rest).
    now rewrite string_append_assoc.
Qed.

Lemma text_before_cons content rest k :
  DOMUtils.text_before (content :: rest) (S k)
  = (String.length content + DOMUtils.text_before rest k)%nat.
Proof.
  unfold DOMUtils.text_before. cbn [firstn DOMUtils.concat_all fold_right].
  apply length_append.
Qed.

Lemma locate_walk contents :
  forall node concat index endIndex startNode,
    endIndex <= Z.of_nat (String.length concat)
                + Z.of_nat (String.length (DOMUtils.concat_all contents)) ->
    match startNode with
    | None => Z.of_nat (String.length concat) <= index < endIndex
    | Some _ => Z.of_nat (String.length concat) < endIndex
    end ->
    exists k ec r,
      DOMUtils.locate (DOMUtils.walk contents node concat).1 index endIndex startNode
      = Some r
      /\ contents !! k = Some ec
      /\ DOMUtils.endContainer r = (node + k)%nat
      /\ DOMUtils.endOffset r
         = endIndex - (Z.of_nat (String.length concat)
                       + Z.of_nat (DOMUtils.text_before contents k))
      /\ 0 < DOMUtils.endOffset r <= Z.of_nat (String.length ec)
      /\ match startNode with
         | Some (sn, so) =>
             DOMUtils.startContainer r = sn /\ DOMUtils.startOffset r = so
         | None =>
             exists j sc,
               (j <= k)%nat /\ contents !! j = Some sc
               /\ DOMUtils.startContainer r = (node + j)%nat
               /\ DOMUtils.startOffset r
                  = index - (Z.of_nat (String.length concat)
                             + Z.of_nat (DOMUtils.text_before contents j))
               /\ 0 <= DOMUtils.startOffset r < Z.of_nat (String.length sc)
         end.
Proof.
  induction contents as [|content rest IH];
    intros node concat index endIndex startNode Hend Hstate.
  - simpl in Hend. destruct startNode; lia.
  - cbn [DOMUtils.walk].
    pose proof (IH (S node) (concat ++ content)%string index endIndex) as IH'.
    destruct (DOMUtils.walk rest (S node) (concat ++ content)) as [nodes all].
    cbn [fst] in *. cbn [DOMUtils.locate].
    rewrite length_append in IH'.
    assert (Hlen : String.length (DOMUtils.concat_all (content :: rest))
                   = (String.length content
                      + String.length (DOMUtils.concat_all rest))%nat)
      by apply length_append.
    rewrite Hlen in Hend.
    set (s0 := Z.of_nat (String.length concat)) in *.
    set (nodeEnd := s0 + Z.of_nat (String.length content)).
    assert (Hhere : forall sn so,
              endIndex <= nodeEnd -> s0 < endIndex ->
              exists k ec r,
                Some {| DOMUtils.startContainer := sn; DOMUtils.startOffset := so;
                        DOMUtils.endContainer := node;
                        DOMUtils.endOffset := endIndex - s0 |} = Some r
                /\ (content :: rest) !! k = Some ec
                /\ DOMUtils.endContainer r = (node + k)%nat
                /\ DOMUtils.endOffset r
                   = endIndex - (s0 + Z.of_nat
                                        (DOMUtils.text_before (content :: rest) k))
                /\ 0 < DOMUtils.endOffset r <= Z.of_nat (String.length ec)
                /\ DOMUtils.startContainer r = sn /\ DOMUtils.startOffset r = so
                /\ k = 0%nat).
    { intros sn so Hle Hlt. exists 0%nat, content. eexists.
      split; [reflexivity|]. cbn. unfold nodeEnd in Hle.
      repeat split; lia. }
    assert (Hlater : forall st,
              nodeEnd < endIndex ->
              match st with
              | None => nodeEnd <= index < endIndex
              | Some _ => True
              end ->
              exists k ec r,
                DOMUtils.locate nodes index endIndex st = Some r
                /\ (content :: rest) !! (S k) = Some ec
                /\ DOMUtils.endContainer r = (node + S k)%nat
                /\ DOMUtils.endOffset r
                   = endIndex - (s0 + Z.of_nat
                                        (DOMUtils.text_before (content :: rest) (S k)))
                /\ 0 < DOMUtils.endOffset r <= Z.of_nat (String.length ec)
                /\ match st with
                   | Some (sn, so) =>
                       DOMUtils.startContainer r = sn /\ DOMUtils.startOffset r = so
                   | None =>
                       exists j sc,
                         (j <= k)%nat /\ (content :: rest) !! (S j) = Some sc
                         /\ DOMUtils.startContainer r = (node + S j)%nat
                         /\ DOMUtils.startOffset r
                            = index - (s0 + Z.of_nat
                                (DOMUtils.text_before (content :: rest) (S j)))
                         /\ 0 <= DOMUtils.startOffset r
                              < Z.of_nat (String.length sc)
                   end).
    { intros st Hgt Hst.
      destruct (IH' st) as (k & ec & r & Hr & Hk & Hec & Heo & Hbound & Hstart).
      - unfold nodeEnd, s0 in *. lia.
      - unfold nodeEnd, s0 in *. destruct st; lia.
      - exists k, ec, r. split; [exact Hr|]. split; [exact Hk|].
        split; [lia|]. rewrite text_before_cons.
        split; [unfold s0; lia|]. split; [exact Hbound|].
        destruct st as [[sn so]|]; [exact Hstart|].
        destruct Hstart as (j & sc & Hjk & Hj & Hsn & Hso & Hb).
        exists j, sc. split; [exact Hjk|]. split; [exact Hj|]. split; [lia|].
        rewrite text_before_cons. split; [unfold s0; lia|exact Hb]. }
    fold s0. fold nodeEnd.
    destruct startNode as [[sn so]|].
    + destruct (Z.leb_spec endIndex nodeEnd) as [Hle|Hgt].
      * destruct (Hhere sn so Hle Hstate)
          as (k & ec & r & Hr & Hk & Hec & Heo & Hb & Hs1 & Hs2 & _).
        exists k, ec, r. auto 10.
      * destruct (Hlater (Some (sn, so)) Hgt I)
          as (k & ec & r & Hr & Hk & Hec & Heo & Hb & Hs).
        exists (S k), ec, r. auto 10.
    + assert (Hs0 : s0 <= index < endIndex) by exact Hstate.
      destruct (Z.ltb_spec index nodeEnd) as [Hin|Hout].
      * destruct (Z.leb_spec endIndex nodeEnd) as [Hle|Hgt].
        -- destruct (Hhere node (index - s0) Hle ltac:(lia))
             as (k & ec & r & Hr & Hk & Hec & Heo & Hb & Hs1 & Hs2 & ->).
           exists 0%nat, ec, r. split; [exact Hr|]. split; [exact Hk|].
           split; [exact Hec|]. split; [exact Heo|]. split; [exact Hb|].
           exists 0%nat, content. split; [lia|]. split; [reflexivity|].
           split; [lia|]. rewrite Hs2. cbn. unfold nodeEnd in Hin.
           split; [lia|lia].
        -- destruct (Hlater (Some (node, index - s0)) Hgt I)
             as (k & ec & r & Hr & Hk & Hec & Heo & Hb & Hs1 & Hs2).
           exists (S k), ec, r. split; [exact Hr|]. split; [exact Hk|].
           split; [exact Hec|]. split; [exact Heo|]. split; [exact Hb|].
           exists 0%nat, content. split; [lia|]. split; [reflexivity|].
           split; [lia|]. rewrite Hs2. cbn. unfold nodeEnd in Hin.
           split; [lia|lia].
      * destruct (Hlater None ltac:(lia) (conj Hout (proj2 Hs0)))
          as (k & ec & r & Hr & Hk & Hec & Heo & Hb & j & sc & Hjk & Hj & Hs1 & Hs2 & Hsb).
        exists (S k), ec, r. split; [exact Hr|]. split; [exact Hk|].
        split; [exact Hec|]. split; [exact Heo|]. split; [exact Hb|].
        exists (S j), sc. split; [lia|]. auto.
Qed.

Lemma substring_in_bounds s :
  forall n m, (0 < m)%nat ->
    String.length (String.substring n m s) = m -> (n + m <= String.length s)%nat.
Proof.
  induction s as [|c s IH]; intros n m Hm Hlen.
  - destruct n, m; simpl in Hlen; lia.
  - destruct n as [|n].
    + destruct m as [|m]; [lia|]. simpl in Hlen. injection Hlen as Hlen.
      destruct m as [|m]; [simpl; lia|].
      specialize (IH 0%nat (S m) ltac:(lia) Hlen). simpl in *. lia.
    + simpl in Hlen. specialize (IH n m Hm Hlen). simpl. lia.
Qed.

Lemma walk_fst_snd contents :
  DOMUtils.walk contents 0 ""
  = ((DOMUtils.walk contents 0 "").1, DOMUtils.concat_all contents).
Proof.
  pose proof (walk_concat contents 0 "") as Hall.
  destruct (DOMUtils.walk contents 0 "") as [nodes all]. cbn [fst snd] in *.
  now rewrite Hall.
Qed.

(** Text across elements. When the search text is not empty and occurs
    in the text of the nodes taken together, [findTextRangeAcrossElements]
    answers a range, and never gives up at the creation of the range:
    the start is inside its node and not at its end, the end is inside
    its node and not at its beginning, the start node is not after the
    end node, and the text between start and end, read across the nodes,
    is the search text at its first occurrence. It answers nothing
    exactly when the text does not occur. *)
Theorem findTextRangeAcrossElements_spells
    (searchText : string) (contents : list string) :
  searchText <> "" ->
  match DOMUtils.findTextRangeAcrossElements searchText contents with
  | Some r =>
      DOMUtils.range_text contents r = searchText
      /\ (DOMUtils.startContainer r <= DOMUtils.endContainer r)%nat
      /\ (exists sc ec,
            contents !! DOMUtils.startContainer r = Some sc
            /\ contents !! DOMUtils.endContainer r = Some ec
            /\ 0 <= DOMUtils.startOffset r < Z.of_nat (String.length sc)
            /\ 0 < DOMUtils.endOffset r <= Z.of_nat (String.length ec))
      /\ indexOf (DOMUtils.concat_all contents) searchText
         = Some (Z.to_nat (Z.of_nat (DOMUtils.text_before contents
                                       (DOMUtils.startContainer r))
                           + DOMUtils.startOffset r))
  | None => indexOf (DOMUtils.concat_all contents) searchText = None
  end.
Proof.
  intros Hne. unfold DOMUtils.findTextRangeAcrossElements.
  rewrite walk_fst_snd.
  destruct (indexOf (DOMUtils.concat_all contents) searchText) as [index|] eqn:Hindex;
    [|reflexivity].
  assert (Hsub : String.substring index (String.length searchText)
                   (DOMUtils.concat_all contents) = searchText)
    by (apply (String.index_correct1 0); exact Hindex).
  assert (Hpos : (0 < String.length searchText)%nat)
    by (destruct searchText; [contradiction|simpl; lia]).
  assert (Hbound : (index + String.length searchText
                    <= String.length (DOMUtils.concat_all contents))%nat).
  { apply substring_in_bounds; [exact Hpos|]. now rewrite Hsub. }
  destruct (locate_walk contents 0 "" (Z.of_nat index)
              (Z.of_nat index + Z.of_nat (String.length searchText)) None)
    as (k & ec & r & Hr & Hk & Hec & Heo & Hb & j & sc & Hjk & Hj & Hsc & Hso & Hsb).
  { simpl String.length. lia. }
  { simpl String.length. lia. }
  rewrite Hr. simpl String.length in Heo, Hso. simpl in Hec, Hsc.
  unfold DOMUtils.within. rewrite Hsc, Hec, Hj, Hk.
  destruct (Z.leb_spec 0 (DOMUtils.startOffset r)); [|lia].
  destruct (Z.leb_spec (DOMUtils.startOffset r) (Z.of_nat (String.length sc))); [|lia].
  destruct (Z.leb_spec 0 (DOMUtils.endOffset r)); [|lia].
  destruct (Z.leb_spec (DOMUtils.endOffset r) (Z.of_nat (String.length ec))); [|lia].
  cbn [andb]. split; [|split; [lia|split]].
  - unfold DOMUtils.range_text. rewrite Hsc, Hec, Hso, Heo.
    match goal with
    | |- String.substring ?from ?len _ = _ =>
        replace from with index by lia;
        replace len with (String.length searchText) by lia
    end.
    exact Hsub.
  - exists sc, ec. rewrite Hsc, Hec. auto.
  - rewrite Hsc, Hso. f_equal. lia.
Qed.

Lemma findTextRangeAcrossElements_spells_witness :
  "lo wor" <> ""
  /\ DOMUtils.findTextRangeAcrossElements "lo wor" ["Hel"; "lo "; ""; "world"]
     = Some {| DOMUtils.startContainer := 1; DOMUtils.startOffset := 0;
               DOMUtils.endContainer := 3; DOMUtils.endOffset := 3 |}
  /\ DOMUtils.range_text ["Hel"; "lo "; ""; "world"]
       {| DOMUtils.startContainer := 1; DOMUtils.startOffset := 0;
          DOMUtils.endContainer := 3; DOMUtils.endOffset := 3 |}
     = "lo wor".
Proof.
  assert (Hne : "lo wor" <> "") by discriminate.
  assert (Hrun : DOMUtils.findTextRangeAcrossElements "lo wor"
                   ["Hel"; "lo "; ""; "world"]
                 = Some {| DOMUtils.startContainer := 1; DOMUtils.startOffset := 0;
                           DOMUtils.endContainer := 3; DOMUtils.endOffset := 3 |})
    by reflexivity.
  split; [exact Hne|]. split; [exact Hrun|].
  pose proof (findTextRangeAcrossElements_spells "lo wor"
                ["Hel"; "lo "; ""; "world"] Hne) as Hspec.
  rewrite Hrun in Hspec. exact (proj1 Hspec).
Defined.

(** ** The selection handler *)

Lemma spaced_snoc d times t x :
  EventUtils.spaced d (times ++ [t]) -> t + d <= x ->
  EventUtils.spaced d ((times ++ [t]) ++ [x]).
Proof.
  induction times as [|a times IH]; simpl.
  - intros _ Hx. tauto.
  - intros [Ha Hrest] Hx. split; [|auto].
    destruct times as [|b times]; simpl in *; assumption.
Qed.

Lemma handle_inv {E} (i : EventUtils.input E) (h h' : EventUtils.handler E) :
  EventUtils.handle i h = Some h' ->
  EventUtils.spaced 250 (0 :: map fst (EventUtils.called h)) ->
  List.last (0 :: map fst (EventUtils.called h)) 0 = EventUtils.lastSelectionTime h ->
  (forall due e, EventUtils.selectionTimeout h = Some (due, e) ->
                 EventUtils.lastSelectionTime h + 250 <= due) ->
  EventUtils.spaced 250 (0 :: map fst (EventUtils.called h'))
  /\ List.last (0 :: map fst (EventUtils.called h')) 0
     = EventUtils.lastSelectionTime h'
  /\ (forall due e, EventUtils.selectionTimeout h' = Some (due, e) ->
                    EventUtils.lastSelectionTime h' + 250 <= due).
Proof.
  intros Hstep Hspaced Hlast Hdue. destruct i as [now event|now]; simpl in Hstep.
  - destruct (Z.ltb_spec (now - EventUtils.lastSelectionTime h)
                EventUtils.minSelectionInterval) as [Hsoon|Hlate];
      injection Hstep as <-; [auto|].
    cbn. split; [exact Hspaced|]. split; [exact Hlast|].
    intros due e [= <- <-].
    unfold EventUtils.minSelectionInterval, EventUtils.debounceDelay in *. lia.
  - destruct (EventUtils.selectionTimeout h) as [[due event]|] eqn:Hpending;
      [|discriminate].
    destruct (Z.leb_spec due now) as [Hle|Hgt]; [|discriminate].
    injection Hstep as <-. cbn [EventUtils.called EventUtils.lastSelectionTime
                                  EventUtils.selectionTimeout].
    specialize (Hdue due event eq_refl).
    destruct (exists_last (l := 0 :: map fst (EventUtils.called h)))
      as (times & t & Htimes); [discriminate|].
    rewrite Htimes in Hspaced, Hlast. rewrite last_last in Hlast.
    rewrite map_app. cbn [map fst].
    change (0 :: map fst (EventUtils.called h) ++ [now])
      with ((0 :: map fst (EventUtils.called h)) ++ [now]).
    rewrite Htimes. split; [|split].
    + apply spaced_snoc; [exact Hspaced|lia].
    + apply last_last.
    + discriminate.
Qed.

Lemma handle_all_inv {E} (inputs : list (EventUtils.input E))
    (h h' : EventUtils.handler E) :
  EventUtils.handle_all inputs h = Some h' ->
  EventUtils.spaced 250 (0 :: map fst (EventUtils.called h)) ->
  List.last (0 :: map fst (EventUtils.called h)) 0 = EventUtils.lastSelectionTime h ->
  (forall due e, EventUtils.selectionTimeout h = Some (due, e) ->
                 EventUtils.lastSelectionTime h + 250 <= due) ->
  EventUtils.spaced 250 (0 :: map fst (EventUtils.called h')).
Proof.
  revert h. induction inputs as [|i inputs IH]; intros h Hrun Hs Hl Hd.
  - injection Hrun as <-. exact Hs.
  - simpl in Hrun. destruct (EventUtils.handle i h) as [h1|] eqn:Hstep;
      [|discriminate].
    destruct (handle_inv i h h1 Hstep Hs Hl Hd) as (Hs1 & Hl1 & Hd1).
    exact (IH h1 Hrun Hs1 Hl1 Hd1).
Qed.

(** The selection handler. Whatever selection events arrive and
    whenever the timers go off, two reports to the callback that follow
    each other are at least 250 ms apart: a selection less than 100 ms
    after the last report is dropped, and an accepted one is reported
    150 ms later at the earliest. A selection that is accepted replaces
    the one that is waiting, which is then never reported; a selection
    that is dropped changes nothing. *)
Theorem selection_reports_spaced {E : Type}
    (inputs : list (EventUtils.input E)) (h : EventUtils.handler E) :
  EventUtils.handle_all inputs EventUtils.created = Some h ->
  EventUtils.spaced 250 (0 :: map fst (EventUtils.called h))
  /\ (forall now (event : E) (h0 : EventUtils.handler E),
        now - EventUtils.lastSelectionTime h0 < 100 ->
        EventUtils.handle (EventUtils.Selection now event) h0 = Some h0)
  /\ (forall now (event : E) (h0 : EventUtils.handler E),
        100 <= now - EventUtils.lastSelectionTime h0 ->
        exists h1,
          EventUtils.handle (EventUtils.Selection now event) h0 = Some h1
          /\ EventUtils.selectionTimeout h1 = Some (now + 150, event)
          /\ EventUtils.called h1 = EventUtils.called h0
          /\ forall later,
               now + 150 <= later ->
               exists h2,
                 EventUtils.handle (EventUtils.Timeout later) h1 = Some h2
                 /\ EventUtils.called h2 = EventUtils.called h0 ++ [(later, event)]).
Proof.
  intros Hrun. split; [|split].
  - apply (handle_all_inv inputs EventUtils.created h Hrun).
    + simpl. tauto.
    + reflexivity.
    + intros due e Hp. discriminate.
  - intros now event h0 Hsoon. simpl.
    destruct (Z.ltb_spec (now - EventUtils.lastSelectionTime h0)
                EventUtils.minSelectionInterval) as [_|Hlate]; [reflexivity|].
    unfold EventUtils.minSelectionInterval in Hlate. lia.
  - intros now event h0 Hlate. simpl.
    destruct (Z.ltb_spec (now - EventUtils.lastSelectionTime h0)
                EventUtils.minSelectionInterval) as [Hsoon|_].
    { unfold EventUtils.minSelectionInterval in Hsoon. lia. }
    eexists. split; [reflexivity|]. cbn. split; [reflexivity|].
    split; [reflexivity|]. intros later Hdue.
    destruct (Z.leb_spec (now + EventUtils.debounceDelay) later) as [_|Hgt].
    + eexists. split; reflexivity.
    + unfold EventUtils.debounceDelay in Hgt. lia.
Qed.

Lemma selection_reports_spaced_witness :
  EventUtils.handle_all
    [EventUtils.Selection 1000 "a"; EventUtils.Selection 1100 "b";
     EventUtils.Timeout 1250; EventUtils.Selection 1300 "c";
     EventUtils.Selection 1400 "d"; EventUtils.Timeout 1550]
    EventUtils.created
  = Some {| EventUtils.selectionTimeout := None;
            EventUtils.lastSelectionTime := 1550;
            EventUtils.called := [(1250, "b"); (1550, "d")] |}
  /\ EventUtils.spaced 250 (0 :: map fst [(1250, "b"); (1550, "d")]).
Proof.
  assert (Hrun : EventUtils.handle_all
            [EventUtils.Selection 1000 "a"; EventUtils.Selection 1100 "b";
             EventUtils.Timeout 1250; EventUtils.Selection 1300 "c";
             EventUtils.Selection 1400 "d"; EventUtils.Timeout 1550]
            EventUtils.created
          = Some {| EventUtils.selectionTimeout := None;
                    EventUtils.lastSelectionTime := 1550;
                    EventUtils.called := [(1250, "b"); (1550, "d")] |})
    by reflexivity.
  split; [exact Hrun|].
  exact (proj1 (selection_reports_spaced _ _ Hrun)).
Defined.

(** ** Nodes that contain a text *)

Lemma substring_0_prefix n :
  forall s, String.length (String.substring 0 n s) = n ->
    exists post, s = (String.substring 0 n s ++ post)%string.
Proof.
  induction n as [|n IH]; intros s Hlen.
  - exists s. now rewrite substring_0_0.
  - destruct s as [|c s]; [discriminate|].
    change (String.substring 0 (S n) (String c s))
      with (String c (String.substring 0 n s)) in *.
    cbn [String.length] in Hlen. injection Hlen as Hlen.
    destruct (IH s Hlen) as [post Hpost]. exists post.
    change (String c s = String c (String.substring 0 n s ++ post)).
    now rewrite <- Hpost.
Qed.

Lemma substring_split m :
  forall s n, (0 < n)%nat ->
    String.length (String.substring m n s) = n ->
    exists pre post,
      s = (pre ++ String.substring m n s ++ post)%string
      /\ String.length pre = m.
Proof.
  induction m as [|m IH]; intros s n Hn Hlen.
  - destruct (substring_0_prefix n s Hlen) as [post Hpost].
    exists "", post. split; [exact Hpost|reflexivity].
  - destruct s as [|c s]; [destruct n; [lia|discriminate]|].
    change (String.substring (S m) n (String c s))
      with (String.substring m n s) in *.
    destruct (IH s n Hn Hlen) as (pre & post & Hs & Hpre).
    exists (String c pre), post. split; [|simpl; now rewrite Hpre].
    change (String c s = String c (pre ++ String.substring m n s ++ post)).
    now rewrite <- Hs.
Qed.

Lemma length_trimStart_append pre s c rest :
  s = String c rest -> is_white_space c = false ->
  (String.length s <= String.length (trimStart (pre ++ s)))%nat
  /\ exists pre', trimStart (pre ++ s) = (pre' ++ s)%string.
Proof.
  intros -> Hc. induction pre as [|a pre IH].
  - simpl. rewrite Hc. split; [simpl; lia|]. exists "". reflexivity.
  - change (String a pre ++ String c rest)%string
      with (String a (pre ++ String c rest)).
    cbn [trimStart]. destruct (is_white_space a); [exact IH|].
    split.
    + simpl. rewrite length_append. simpl. lia.
    + exists (String a pre). reflexivity.
Qed.

Lemma trimEnd_fixed_tail c b :
  trimEnd (String c b) = String c b -> b <> "" -> trimEnd b = b.
Proof.
  cbn [trimEnd]. destruct (trimEnd b) as [|x kept] eqn:Hb.
  - destruct (is_white_space c); intros [=]; subst; contradiction.
  - intros [= ->]. reflexivity.
Qed.

Lemma trimEnd_keeps b :
  trimEnd b = b -> b <> "" ->
  forall post, exists post', trimEnd (b ++ post) = (b ++ post')%string.
Proof.
  induction b as [|c b IH]; intros Hb Hne post; [contradiction|].
  change (String c b ++ post)%string with (String c (b ++ post)).
  cbn [trimEnd]. destruct b as [|x b].
  - simpl in Hb. destruct (is_white_space c) eqn:Hc; [discriminate|].
    change ("" ++ post)%string with post.
    destruct (trimEnd post) as [|y kept].
    + exists "". reflexivity.
    + exists (String y kept). reflexivity.
  - destruct (IH (trimEnd_fixed_tail c _ Hb ltac:(discriminate))
                ltac:(discriminate) post) as [post' Hpost].
    rewrite Hpost. exists post'. reflexivity.
Qed.

Lemma trimEnd_keeps_after a b post :
  trimEnd b = b -> b <> "" ->
  exists post', trimEnd (a ++ b ++ post) = (a ++ b ++ post')%string.
Proof.
  intros Hb Hne. destruct (trimEnd_keeps b Hb Hne post) as [post' Hpost].
  exists post'. induction a as [|c a IH]; [exact Hpost|].
  change (String c a ++ b ++ post)%string with (String c (a ++ b ++ post)).
  cbn [trimEnd]. rewrite IH.
  change (String c a ++ b ++ post')%string with (String c (a ++ b ++ post')).
  destruct (a ++ b ++ post')%string eqn:Hab; [|reflexivity].
  destruct a; simpl in Hab; [destruct b; [contradiction|discriminate]|discriminate].
Qed.

Lemma includes_trimmed content searchText :
  trim searchText = searchText -> searchText <> "" ->
  DOMUtils.includes content searchText = true ->
  (String.length searchText <= String.length (trim content))%nat.
Proof.
  intros Htrim Hne Hinc. unfold DOMUtils.includes in Hinc.
  destruct (indexOf content searchText) as [m|] eqn:Hindex; [|discriminate].
  pose proof (String.index_correct1 0 m searchText content Hindex) as Hsub.
  assert (Hpos : (0 < String.length searchText)%nat)
    by (destruct searchText; [contradiction|simpl; lia]).
  destruct (substring_split m content (String.length searchText) Hpos)
    as (pre & post & Hcontent & _); [now rewrite Hsub|].
  rewrite Hsub in Hcontent.
  destruct (trim_fixed_head searchText Htrim Hne) as (c & rest & Hs & Hc).
  unfold trim. rewrite Hcontent.
  assert (Hstart : exists pre', trimStart (pre ++ searchText ++ post)
                                = (pre' ++ searchText ++ post)%string).
  { destruct (length_trimStart_append pre (searchText ++ post) c (rest ++ post))
      as [_ Hpre]; [now rewrite Hs|exact Hc|exact Hpre]. }
  destruct Hstart as [pre' ->].
  destruct (trimEnd_keeps_after pre' searchText post
              (trim_fixed_end _ Htrim Hne) Hne) as [post' ->].
  rewrite !length_append. lia.
Qed.

Lemma walk_matches_spec searchText nodes foundCount textNodes :
  (foundCount <= DOMUtils.SHORT_TEXT_MAX_MATCHES)%nat ->
  DOMUtils.walk_matches searchText nodes foundCount textNodes
  = textNodes
    ++ firstn (DOMUtils.SHORT_TEXT_MAX_MATCHES - foundCount)
         (map fst (List.filter (fun n => DOMUtils.includes n.2 searchText) nodes)).
Proof.
  revert foundCount textNodes.
  induction nodes as [|[node content] rest IH]; intros foundCount textNodes Hle.
  - simpl. rewrite firstn_nil. now rewrite app_nil_r.
  - cbn [DOMUtils.walk_matches List.filter snd].
    destruct (Nat.ltb_spec foundCount DOMUtils.SHORT_TEXT_MAX_MATCHES) as [Hlt|Hge].
    + destruct (DOMUtils.includes content searchText).
      * rewrite IH by lia. rewrite <- app_assoc. cbn [map fst].
        replace (DOMUtils.SHORT_TEXT_MAX_MATCHES - foundCount)%nat
          with (S (DOMUtils.SHORT_TEXT_MAX_MATCHES - S foundCount)) by lia.
        reflexivity.
      * apply IH. exact Hle.
    + replace (DOMUtils.SHORT_TEXT_MAX_MATCHES - foundCount)%nat with 0%nat by lia.
      simpl. now rewrite app_nil_r.
Qed.

Lemma scan_matches_spec searchText nodes textNodes :
  DOMUtils.scan_matches searchText nodes textNodes
  = textNodes
    ++ firstn (Nat.max 1 (DOMUtils.LONG_TEXT_MAX_MATCHES - length textNodes))
         (map fst (List.filter (fun n => DOMUtils.includes n.2 searchText) nodes)).
Proof.
  revert textNodes.
  induction nodes as [|[node content] rest IH]; intros textNodes.
  - simpl. rewrite firstn_nil. now rewrite app_nil_r.
  - cbn [DOMUtils.scan_matches List.filter snd].
    destruct (DOMUtils.includes content searchText); [|apply IH].
    rewrite length_app. cbn [length map fst].
    destruct (Nat.leb_spec DOMUtils.LONG_TEXT_MAX_MATCHES (length textNodes + 1))
      as [Hle|Hgt].
    + replace (Nat.max 1 (DOMUtils.LONG_TEXT_MAX_MATCHES - length textNodes))
        with 1%nat by lia.
      reflexivity.
    + rewrite IH, length_app. cbn [length]. rewrite <- app_assoc.
      replace (Nat.max 1 (DOMUtils.LONG_TEXT_MAX_MATCHES - length textNodes))
        with (S (Nat.max 1 (DOMUtils.LONG_TEXT_MAX_MATCHES
                            - (length textNodes + 1)))) by lia.
      reflexivity.
Qed.

Lemma includes_length content searchText :
  DOMUtils.includes content searchText = true ->
  (String.length searchText <= String.length content)%nat.
Proof.
  unfold DOMUtils.includes.
  destruct (indexOf content searchText) as [m|] eqn:Hindex; [|discriminate].
  intros _. pose proof (String.index_correct1 0 m searchText content Hindex) as Hsub.
  destruct searchText as [|c rest]; [simpl; lia|].
  pose proof (substring_in_bounds content m (String.length (String c rest))
                ltac:(simpl; lia) ltac:(now rewrite Hsub)). lia.
Qed.

(** The nodes that contain a text. For a text of fewer than three
    characters [findTextNodesOptimized] answers the first ten text
    nodes that contain it, in document order; for a longer text that
    has no white space at either end, the first five. The walkers'
    filters, on the length of a node and on the length of its trimmed
    content, keep every node that contains the text. *)
Theorem findTextNodesOptimized_first_matches
    (searchText : string) (contents : list string) :
  ((3 <= String.length searchText)%nat -> trim searchText = searchText) ->
  DOMUtils.findTextNodesOptimized searchText contents
  = firstn (if (String.length searchText <? 3)%nat then 10 else 5)%nat
           (DOMUtils.containing searchText contents)
  /\ (length (DOMUtils.findTextNodesOptimized searchText contents) <= 10)%nat
  /\ (forall node,
        In node (DOMUtils.findTextNodesOptimized searchText contents) ->
        exists content,
          contents !! node = Some content
          /\ DOMUtils.includes content searchText = true).
Proof.
  intros Htrim.
  assert (Hmain : DOMUtils.findTextNodesOptimized searchText contents
                  = firstn (if (String.length searchText <? 3)%nat then 10 else 5)%nat
                      (DOMUtils.containing searchText contents)).
  { unfold DOMUtils.findTextNodesOptimized, DOMUtils.containing,
      DOMUtils.SHORT_TEXT_THRESHOLD.
    destruct (Nat.ltb_spec (String.length searchText) 3) as [Hshort|Hlong].
    - rewrite walk_matches_spec by (unfold DOMUtils.SHORT_TEXT_MAX_MATCHES; lia).
      cbn [app]. rewrite Nat.sub_0_r. unfold DOMUtils.SHORT_TEXT_MAX_MATCHES.
      do 2 f_equal. apply filter_filter_absorb. intros [node content] _ Hinc.
      cbn [snd] in *. apply negb_true_iff, Nat.ltb_ge.
      now apply includes_length.
    - rewrite scan_matches_spec. cbn [app length].
      unfold DOMUtils.LONG_TEXT_MAX_MATCHES. cbn [Nat.sub Nat.max].
      do 2 f_equal. unfold DOMUtils.getAllTextNodes.
      apply filter_filter_absorb. intros [node content] _ Hinc.
      cbn [snd] in *. apply negb_true_iff, Nat.ltb_ge.
      assert (Hne : searchText <> "") by (intros ->; simpl in Hlong; lia).
      pose proof (includes_trimmed content searchText (Htrim Hlong) Hne Hinc).
      lia. }
  split; [exact Hmain|]. split.
  - rewrite Hmain, length_firstn.
    destruct (String.length searchText <? 3)%nat; lia.
  - intros node Hin. rewrite Hmain in Hin. apply In_firstn in Hin.
    unfold DOMUtils.containing in Hin. apply in_map_iff in Hin as ([n content] & <- & Hin).
    apply List.filter_In in Hin as [Hin Hinc]. exists content.
    split; [|exact Hinc]. cbn [fst].
    clear -Hin. change n with (0 + n)%nat at 1.
    assert (Hgen : forall start, In (n, content) (DOMUtils.numbered contents start) ->
                     exists k, n = (start + k)%nat /\ contents !! k = Some content).
    { clear. induction contents as [|c contents IH]; intros start; simpl; [tauto|].
      intros [[= <- <-]|Hin].
      - exists 0%nat. split; [lia|reflexivity].
      - destruct (IH (S start) Hin) as (k & -> & Hk). exists (S k).
        split; [lia|exact Hk]. }
    destruct (Hgen 0%nat Hin) as (k & -> & Hk). exact Hk.
Qed.

Lemma findTextNodesOptimized_first_matches_witness :
  ((3 <= String.length "saved text")%nat -> trim "saved text" = "saved text")
  /\ DOMUtils.findTextNodesOptimized "saved text"
       ["A saved text here"; " "; "no"; "another saved text"]
     = firstn (if (String.length "saved text" <? 3)%nat then 10 else 5)%nat
         (DOMUtils.containing "saved text"
            ["A saved text here"; " "; "no"; "another saved text"]).
Proof.
  assert (Htrim : (3 <= String.length "saved text")%nat
                  -> trim "saved text" = "saved text") by reflexivity.
  split; [exact Htrim|].
  exact (proj1 (findTextNodesOptimized_first_matches "saved text"
                  ["A saved text here"; " "; "no"; "another saved text"] Htrim)).
Defined.

(** ** From a selection to a saved highlight *)

(** A highlight made from a selection. The text the content script
    keeps of a selection is trimmed and has between 1 and 999
    characters. The highlight it builds from it is accepted by
    [saveHighlight] as it is, its timestamp being the time of the
    selection, and is stored at the head of the list; its [id], [text],
    [url] and [timestamp] are well typed. It passes the import filter,
    and so survives an export followed by an import, exactly when the
    address of the page has at most 500 characters. *)
Theorem selection_to_saved_highlight
    (now : Z) (surrounding : string) (position : value) (selected : string)
    (before : option StorageUtils.pendingHighlight)
    (pending : StorageUtils.pendingHighlight)
    (uuid href title hostname : string) (later : Z) (w : world) :
  0 < now -> href <> "" ->
  StorageUtils.handleTextSelection selected
  = Some (true, StorageUtils.pending_text pending) ->
  StorageUtils.onTextSelection false now surrounding position selected before
  = Some pending ->
  let h := StorageUtils.createHighlightObject uuid href title hostname later pending in
  trim (StorageUtils.pending_text pending) = StorageUtils.pending_text pending
  /\ (1 <= String.length (StorageUtils.pending_text pending) <= 999)%nat
  /\ saveable h /\ well_typed h = true
  /\ (run (saveHighlight h) w).1 = inr h
  /\ getAll_after (saveHighlight h) w = h :: firstn 999 (getHighlights (store w))
  /\ (importFilter h = true <-> (String.length href <= 500)%nat)
  /\ (validateHighlight h = true <-> (String.length href <= 2048)%nat).
Proof.
  intros Hnow Hhref Hsel Hpending h.
  unfold StorageUtils.onTextSelection in Hpending. rewrite Hsel in Hpending.
  unfold StorageUtils.handleTextSelection in Hsel.
  destruct ((0 <? String.length (trim selected))%nat
            && (Z.of_nat (String.length (trim selected)) <? MAX_TEXT_LENGTH))
    eqn:Hlen.
  2: { destruct (String.length (trim selected) =? 0)%nat; discriminate. }
  injection Hsel as Htext. rewrite <- Htext in Hpending. rewrite Hlen in Hpending.
  injection Hpending as Hp.
  apply andb_true_iff in Hlen as [Hpos Hmax].
  apply Nat.ltb_lt in Hpos. apply Z.ltb_lt in Hmax. unfold MAX_TEXT_LENGTH in Hmax.
  assert (Hts : StorageUtils.pending_timestamp pending = now) by now rewrite <- Hp.
  assert (Htrim : trim (StorageUtils.pending_text pending)
                  = StorageUtils.pending_text pending)
    by (rewrite <- Htext; apply trim_idempotent).
  assert (Hbound : (1 <= String.length (StorageUtils.pending_text pending) <= 999)%nat)
    by (rewrite <- Htext; lia).
  assert (Htne : StorageUtils.pending_text pending <> "")
    by (intros He; rewrite He in Hbound; simpl in Hbound; lia).
  assert (Hstamp : prop h "timestamp" = VNum now).
  { unfold h, StorageUtils.createHighlightObject. cbn. rewrite Hts.
    destruct (Z.eqb_spec now 0); [lia|reflexivity]. }
  assert (Hsaveable : saveable h).
  { unfold h, StorageUtils.createHighlightObject. repeat split; cbn.
    - now apply negb_true_iff, String.eqb_neq.
    - now apply negb_true_iff, String.eqb_neq. }
  assert (Hstamped : forall t, stamped h t = h).
  { intros t. unfold stamped. rewrite Hstamp. simpl.
    destruct (Z.eqb_spec now 0); [lia|reflexivity]. }
  split; [exact Htrim|]. split; [exact Hbound|]. split; [exact Hsaveable|].
  assert (Hfields :
    prop h "id" = VStr ("highlight_" ++ uuid)
    /\ prop h "text" = VStr (StorageUtils.pending_text pending)
    /\ prop h "url" = VStr href) by (repeat split; reflexivity).
  destruct Hfields as (Hid & Ht & Hu).
  assert (Hlt : js_gt (prop (prop h "text") "length") 0 = true).
  { rewrite Ht. cbn. apply Z.ltb_lt. lia. }
  assert (Hlu : js_gt (prop (prop h "url") "length") 0 = true).
  { rewrite Hu. cbn. apply Z.ltb_lt. destruct href; [contradiction|simpl; lia]. }
  assert (Hwt : well_typed h = true).
  { unfold well_typed. rewrite Hlt, Hlu, Hstamp, Hid, Ht, Hu. cbn.
    apply Z.ltb_lt. exact Hnow. }
  split; [exact Hwt|].
  destruct (saveHighlight_accepts h Hsaveable) as (fn & Hcall & Hrun).
  split; [rewrite Hcall; simpl run; rewrite Hrun; cbn [fst]; now rewrite Hstamped|].
  split.
  { unfold getAll_after. rewrite Hcall. simpl run. rewrite Hrun. cbn [snd store].
    rewrite getHighlights_set, Hstamped. apply cap_cons. }
  assert (Hcommon : forall text_max url_max,
            999 < text_max ->
            (truthy h && String.eqb (typeof h) "object"
             && String.eqb (typeof (prop h "id")) "string"
             && js_gt (prop (prop h "id") "length") 0
             && String.eqb (typeof (prop h "text")) "string"
             && js_gt (prop (prop h "text") "length") 0
             && js_le (prop (prop h "text") "length") text_max
             && String.eqb (typeof (prop h "url")) "string"
             && js_gt (prop (prop h "url") "length") 0
             && js_le (prop (prop h "url") "length") url_max
             && String.eqb (typeof (prop h "timestamp")) "number"
             && js_gt (prop h "timestamp") 0 = true)
            <-> Z.of_nat (String.length href) <= url_max).
  { intros text_max url_max Hmaxt. rewrite Hlt, Hlu, Hstamp, Hid, Ht, Hu.
    change (truthy h) with true. unfold js_gt, js_le. simpl.
    rewrite !andb_true_iff, !Z.leb_le, Z.ltb_lt. lia. }
  split.
  - unfold importFilter. rewrite (Hcommon MAX_TEXT_LENGTH MAX_URL_LENGTH)
      by (unfold MAX_TEXT_LENGTH; lia).
    unfold MAX_URL_LENGTH. lia.
  - unfold validateHighlight. rewrite (Hcommon 10000 2048) by lia. lia.
Qed.

Lemma selection_to_saved_highlight_witness :
  let pending := StorageUtils.PendingHighlight "hello" "say hello to..." VNull 500 in
  let h := StorageUtils.createHighlightObject "1b9d6bcd" "https://a.example/"
             "A page" "a.example" 900 pending in
  (0 < 500 /\ "https://a.example/"%string <> ""%string)
  /\ (run (saveHighlight h) (world_with [example_h1] 900)).1 = inr h
  /\ importFilter h = true.
Proof.
  intros pending h.
  assert (Hnow : 0 < 500) by lia.
  assert (Hhref : "https://a.example/"%string <> ""%string) by discriminate.
  split; [split; [exact Hnow|exact Hhref]|].
  destruct (selection_to_saved_highlight 500 "say hello to..." VNull "  hello " None
              pending "1b9d6bcd" "https://a.example/" "A page" "a.example" 900
              (world_with [example_h1] 900) Hnow Hhref eq_refl eq_refl)
    as (_ & _ & _ & _ & Hrun & _ & Himport & _).
  split; [exact Hrun|].
  apply Himport. simpl. lia.
Defined.
